(** * Metro route finder: graph construction and the two path searches

    A shallow embedding of [Assessment2.py]: the [Station] and [Graph]
    classes, [build_graph], [find_shortest_path] (multi-source breadth-first
    search) and [find_fastest_path] (multi-source Dijkstra on a [heapq]
    priority queue), followed by the properties of the specification. *)

From Stdlib Require Import String Ascii List ZArith Lia Bool Permutation Sorted.
From Stdlib Require OrderedTypeEx SpecFloat DecimalString.
Import ListNotations.
Open Scope string_scope.
Open Scope list_scope.
Open Scope Z_scope.


(** ** Outcomes

    A Python call either returns a value or raises.  The only exception the
    modelled code can raise is [KeyError] (a subscript on a missing key).
    The two [while] loops of the searches are run on fuel; [OutOfFuel] says
    that the fuel given was not enough to see the loop end. *)

Inductive outcome (A : Type) : Type :=
| Done (a : A)
| KeyError
| OutOfFuel.

Arguments Done {A} a.
Arguments KeyError {A}.
Arguments OutOfFuel {A}.

Definition bind {A B : Type} (m : outcome A) (k : A -> outcome B) : outcome B :=
  match m with
  | Done a => k a
  | KeyError => KeyError
  | OutOfFuel => OutOfFuel
  end.

Notation "x <- m ;; k" := (bind m (fun x => k))
  (at level 61, m at next level, right associativity).

(** [for x in xs: body] over a state that may raise. *)
Fixpoint for_each {A S : Type} (xs : list A) (body : A -> S -> outcome S) (s : S)
  : outcome S :=
  match xs with
  | [] => Done s
  | x :: xs' => s' <- body x s ;; for_each xs' body s'
  end.

(** ** Python dictionaries with string keys

    A [dict] keeps its keys in insertion order; assigning to a key that is
    already present keeps its position and replaces the value. *)

Definition dict (V : Type) : Type := list (string * V).

Fixpoint dict_get {V : Type} (d : dict V) (k : string) : option V :=
  match d with
  | [] => None
  | (k', v) :: d' => if String.eqb k' k then Some v else dict_get d' k
  end.

Fixpoint dict_set {V : Type} (d : dict V) (k : string) (v : V) : dict V :=
  match d with
  | [] => [(k, v)]
  | (k', v') :: d' =>
      if String.eqb k' k then (k', v) :: d' else (k', v') :: dict_set d' k v
  end.

Definition dict_keys {V : Type} (d : dict V) : list string := map fst d.

(** [x in xs] for a list or a set of strings. *)
Definition mem (x : string) (xs : list string) : bool :=
  existsb (String.eqb x) xs.

(** ** Station and Graph *)

Record Station : Type := mkStation { name : string; line : string }.

(** [f"{self.name} ({self.line})"] *)
Definition id (self : Station) : string :=
  (name self ++ " (" ++ line self ++ ")")%string.

Record Graph : Type := mkGraph {
  nodes : dict Station;
  edges : dict (list (string * Z))
}.

Definition empty_graph : Graph := {| nodes := []; edges := [] |}.

Definition add_station (self : Graph) (station : Station) : Graph :=
  {| nodes := dict_set (nodes self) (id station) station;
     edges := dict_set (edges self) (id station) [] |}.

(** [self.edges[from_id].append((to_id, time))] then
    [self.edges[to_id].append((from_id, time))]; the second subscript reads
    the dictionary after the first append, so a connection of a node to
    itself appends twice to the same list. *)
Definition add_connection (self : Graph) (from_id to_id : string) (time : Z)
  : outcome Graph :=
  match dict_get (edges self) from_id with
  | None => KeyError
  | Some l1 =>
      let edges1 := dict_set (edges self) from_id (l1 ++ [(to_id, time)]) in
      match dict_get edges1 to_id with
      | None => KeyError
      | Some l2 =>
          Done {| nodes := nodes self;
                  edges := dict_set edges1 to_id (l2 ++ [(from_id, time)]) |}
      end
  end.

(** ** The random source

    [random.randint(a, b)] is [a + randbelow(b - a + 1)].  The generator is
    an arbitrary sequence of raw draws and a position in it; [randbelow]
    reduces the next draw, so every sequence of results in range arises from
    some generator. *)

Record rng : Type := mkRng { raw : nat -> Z; pos : nat }.

Definition randbelow (n : Z) (s : rng) : Z * rng :=
  (raw s (pos s) mod n, {| raw := raw s; pos := S (pos s) |}).

Definition randint (a b : Z) (s : rng) : Z * rng :=
  let (r, s') := randbelow (b - a + 1) s in (a + r, s').

(** ** Numbers as text

    An f-string shows a value through [str].  For an integer that is its
    decimal numeral.  For a double it is the shortest decimal that reads
    back as the same double (the one nearest to it when several do, the
    even one at a tie), laid out with a decimal point, or with an exponent
    from 1e16 up and below 1e-4. *)

Definition decimal (z : Z) : string :=
  DecimalString.NilZero.string_of_int (Z.to_int z).

(** A double is a [spec_float] of precision 53 and exponent bound 1024. *)
Definition float : Type := SpecFloat.spec_float.

(** [float(z)]: the double nearest to the integer, ties to even. *)
Definition float_of_int (z : Z) : float :=
  SpecFloat.binary_normalize 53 1024 z 0 false.

(** The double nearest to [n / d]; the way to write down a double such as
    1.5 ([float_of_ratio 3 2]). *)
Definition float_of_ratio (n d : Z) : float :=
  SpecFloat.SFdiv 53 1024 (float_of_int n) (float_of_int d).

(** The order of the decimal [c * 10^p] and the fraction [n / den]. *)
Definition decimal_compare (den c p n : Z) : comparison :=
  Z.compare (c * 10 ^ Z.max p 0 * den) (n * 10 ^ Z.max (- p) 0).

(** The reals that round to the double [m * 2^e], as fractions over one
    denominator; the ends belong to the interval when [m] is even. *)
Record rounding_interval : Type := mkInterval {
  value_num : Z; low_num : Z; high_num : Z; denom : Z; closed : bool
}.

Definition interval_of (m : positive) (e : Z) : rounding_interval :=
  let narrow := (Z.pos m =? 2 ^ 52) && (-1074 <? e) in
  if 2 <=? e then
    let v := Z.pos m * 2 ^ e in
    {| value_num := v;
       low_num := v - (if narrow then 2 ^ (e - 2) else 2 ^ (e - 1));
       high_num := v + 2 ^ (e - 1);
       denom := 1;
       closed := Z.even (Z.pos m) |}
  else
    {| value_num := 4 * Z.pos m;
       low_num := 4 * Z.pos m - (if narrow then 1 else 2);
       high_num := 4 * Z.pos m + 2;
       denom := 2 ^ (2 - e);
       closed := Z.even (Z.pos m) |}.

Definition rounds_back (i : rounding_interval) (c p : Z) : bool :=
  match decimal_compare (denom i) c p (low_num i),
        decimal_compare (denom i) c p (high_num i) with
  | Gt, Lt => true
  | Eq, Lt | Gt, Eq => closed i
  | _, _ => false
  end.

Fixpoint first_power_above (fuel : nat) (i : rounding_interval) (P : Z) : Z :=
  match fuel with
  | O => P
  | S fuel' =>
      match decimal_compare (denom i) 1 P (value_num i) with
      | Gt => P
      | _ => first_power_above fuel' i (P + 1)
      end
  end.

(** The least [P] with [m * 2^e < 10^P]. *)
Definition decimal_point (m : positive) (e : Z) (i : rounding_interval) : Z :=
  first_power_above 8 i ((Z.log2 (Z.pos m) + e) * 30103 / 100000 - 1).

(** The decimal of [n] digits next to the double that reads back as it. *)
Definition candidate (i : rounding_interval) (P n : Z) : option (Z * Z) :=
  let p := P - n in
  let c0 := if 0 <=? p then value_num i / (denom i * 10 ^ p)
            else value_num i * 10 ^ (- p) / denom i in
  let c1 := c0 + 1 in
  match rounds_back i c0 p, rounds_back i c1 p with
  | true, true =>
      match decimal_compare (denom i) (2 * c0 + 1) p (2 * value_num i) with
      | Gt => Some (c0, p)
      | Lt => Some (c1, p)
      | Eq => if Z.even c0 then Some (c0, p) else Some (c1, p)
      end
  | true, false => Some (c0, p)
  | false, true => Some (c1, p)
  | false, false => None
  end.

Fixpoint shortest_from (fuel : nat) (i : rounding_interval) (P n : Z) : Z * Z :=
  match fuel with
  | O => (0, 0)
  | S fuel' =>
      match candidate i P n with
      | Some cp => cp
      | None => shortest_from fuel' i P (n + 1)
      end
  end.

Fixpoint strip_zeros (fuel : nat) (c p : Z) : Z * Z :=
  match fuel with
  | O => (c, p)
  | S fuel' => if (c mod 10 =? 0) && negb (c =? 0)
               then strip_zeros fuel' (c / 10) (p + 1) else (c, p)
  end.

Fixpoint zeros (n : nat) : string :=
  match n with O => "" | S n' => String "0" (zeros n') end.

Definition exponent_text (x : Z) : string :=
  let sign := if x <? 0 then "-" else "+" in
  let pad := if Z.abs x <? 10 then "0" else "" in
  (sign ++ pad ++ decimal (Z.abs x))%string.

(** The digits [ds] with the decimal point after the first [decpt] of
    them. *)
Definition layout (ds : string) (decpt : Z) : string :=
  let nd := Z.of_nat (String.length ds) in
  let rest := if 1 <? nd then String "." (substring 1 (String.length ds - 1) ds)
              else "" in
  if (16 <? decpt) || (decpt <? -3) then
    (substring 0 1 ds ++ rest ++ "e" ++ exponent_text (decpt - 1))%string
  else if decpt <=? 0 then
    ("0." ++ zeros (Z.to_nat (- decpt)) ++ ds)%string
  else if nd <=? decpt then
    (ds ++ zeros (Z.to_nat (decpt - nd)) ++ ".0")%string
  else
    (substring 0 (Z.to_nat decpt) ds ++ "." ++
     substring (Z.to_nat decpt) (String.length ds - Z.to_nat decpt) ds)%string.

(** [str(x)] for a double. *)
Definition float_repr (x : float) : string :=
  match x with
  | SpecFloat.S754_nan => "nan"
  | SpecFloat.S754_infinity s => if s then "-inf" else "inf"
  | SpecFloat.S754_zero s => if s then "-0.0" else "0.0"
  | SpecFloat.S754_finite s m e =>
      let i := interval_of m e in
      let P := decimal_point m e i in
      let (c, p) := shortest_from 17 i P 1 in
      let (c', p') := strip_zeros 20 c p in
      let ds := decimal c' in
      let sign := if s then "-" else "" in
      (sign ++ layout ds (Z.of_nat (String.length ds) + p'))%string
  end.

(** ** The data frame

    The frame [pd.read_csv] hands to [build_graph], in file order, with the
    two columns the code reads.  [read_csv] settles the kind of a column by
    what the file holds in it, so a column has cells of one kind: integers
    throughout (dtype int64) where every entry is an integer numeral;
    doubles throughout (float64, a missing value being NaN) where every
    entry is a number or missing; text otherwise (object), with NaN where a
    value is missing, and there a numeral stays the text it is.  Boolean
    columns are not represented. *)

Inductive cell : Type :=
| Str (s : string)
| Int (z : Z)
| Flt (x : float).

Definition NaN : cell := Flt SpecFloat.S754_nan.

Record frame_row : Type := mkFrameRow { Station_cell : cell; Line_cell : cell }.

Definition DataFrame : Type := list frame_row.

(** [str(value)], as an f-string shows a cell. *)
Definition str (c : cell) : string :=
  match c with
  | Str s => s
  | Int z => decimal z
  | Flt x => float_repr x
  end.

Definition isna (c : cell) : bool :=
  match c with
  | Flt SpecFloat.S754_nan => true
  | _ => false
  end.

Inductive dtype : Type := int64 | float64 | object.

Definition is_int (c : cell) : bool :=
  match c with Int _ => true | _ => false end.

Definition is_float (c : cell) : bool :=
  match c with Flt _ => true | _ => false end.

Definition dtype_of (column : list cell) : dtype :=
  if forallb is_int column then int64
  else if forallb is_float column then float64
  else object.

(** [df.iterrows()] yields each row as a Series of one dtype for both
    columns: beside a float64 column the integers of an int64 column come
    out as doubles; in every other case the values come out as they are. *)
Definition upcasts (df : DataFrame) : bool :=
  match dtype_of (map Station_cell df), dtype_of (map Line_cell df) with
  | int64, float64 | float64, int64 => true
  | _, _ => false
  end.

Definition row_value (up : bool) (c : cell) : cell :=
  match c with
  | Int z => if up then Flt (float_of_int z) else c
  | _ => c
  end.

Definition iterrows (df : DataFrame) : list frame_row :=
  map (fun r => mkFrameRow (row_value (upcasts df) (Station_cell r))
                           (row_value (upcasts df) (Line_cell r))) df.

(** The order of the values of one column: text by characters, numbers by
    value. *)
Definition cell_leb (a b : cell) : bool :=
  match a, b with
  | Str s, Str t => String.leb s t
  | Int x, Int y => x <=? y
  | Flt x, Flt y => SpecFloat.SFleb x y
  | _, _ => true
  end.

(** [a] may stand before [b] in a sorted column: missing values go last. *)
Definition before (a b : cell) : bool :=
  isna b || (negb (isna a) && cell_leb a b).

(** Equal values make one group. *)
Definition cell_eqb (a b : cell) : bool :=
  match a, b with
  | Str s, Str t => String.eqb s t
  | Int x, Int y => x =? y
  | Flt x, Flt y => SpecFloat.SFeqb x y
  | _, _ => false
  end.

(** Insertion of a row into a list sorted by a column. *)
Fixpoint insert_row (key : frame_row -> cell) (r : frame_row)
    (rs : list frame_row) : list frame_row :=
  match rs with
  | [] => [r]
  | r' :: rs' =>
      if before (key r) (key r') then r :: rs
      else r' :: insert_row key r rs'
  end.

(** [df.sort_values(col)]: the rows in ascending order of the column,
    missing values last.  pandas does not promise the order of rows with
    equal keys; [build_graph] sorts the group of one line by station, where
    rows with equal keys give equal identifiers. *)
Definition sort_values (key : frame_row -> cell) (df : DataFrame) : DataFrame :=
  fold_right (insert_row key) [] df.

(** The first occurrence of each value. *)
Fixpoint uniq {A : Type} (eqb : A -> A -> bool) (xs : list A) : list A :=
  match xs with
  | [] => []
  | x :: xs' => x :: filter (fun y => negb (eqb x y)) (uniq eqb xs')
  end.

Fixpoint insert_cell (k : cell) (ks : list cell) : list cell :=
  match ks with
  | [] => [k]
  | k' :: ks' =>
      if cell_leb k k' then k :: ks else k' :: insert_cell k ks'
  end.

(** The group keys of [df.groupby(col)]: the distinct values of the column
    that are not missing, ascending. *)
Definition group_keys (key : frame_row -> cell) (df : DataFrame) : list cell :=
  fold_right insert_cell []
    (uniq cell_eqb (filter (fun c => negb (isna c)) (map key df))).

(** [df.groupby(col)]: for each key, ascending, the rows that carry it, in
    their original order; rows with a missing key are in no group. *)
Definition groupby (key : frame_row -> cell) (df : DataFrame)
  : list (cell * DataFrame) :=
  map (fun k => (k, filter (fun r => cell_eqb (key r) k) df))
      (group_keys key df).

(** ** build_graph

    [Station] objects keep the text of their two values, which is all that
    [id] reads of them. *)

(** The body of the intra-line loop at index [i]:
    [stations.loc[i, "Station"]] is the cell as the column holds it, [line]
    the group key. *)
Definition connect_pair (line : cell) (stations : DataFrame) (i : nat)
    (st : Graph * rng) : outcome (Graph * rng) :=
  match nth_error stations i, nth_error stations (S i) with
  | Some ra, Some rb =>
      let a := id (mkStation (str (Station_cell ra)) (str line)) in
      let b := id (mkStation (str (Station_cell rb)) (str line)) in
      let (time, rnd) := randint 2 8 (snd st) in
      graph <- add_connection (fst st) a b time ;;
      Done (graph, rnd)
  | _, _ => KeyError
  end.

(** [for i in range(len(stations) - 1): ...] for one line's group. *)
Definition connect_line (line : cell) (group : DataFrame)
    (st : Graph * rng) : outcome (Graph * rng) :=
  let stations := sort_values Station_cell group in
  for_each (seq 0 (length stations - 1)) (connect_pair line stations) st.

(** The body of the transfer loops at indices [i], [j]. *)
Definition connect_transfer (station_name : cell) (lines : list cell)
    (i j : nat) (graph : Graph) : outcome Graph :=
  match nth_error lines i, nth_error lines j with
  | Some li, Some lj =>
      let a := (str station_name ++ " (" ++ str li ++ ")")%string in
      let b := (str station_name ++ " (" ++ str lj ++ ")")%string in
      add_connection graph a b 5
  | _, _ => KeyError
  end.

(** [for i in range(len(lines)): for j in range(i+1, len(lines)): ...] *)
Definition connect_transfers (station_name : cell) (group : DataFrame)
    (graph : Graph) : outcome Graph :=
  let lines := map Line_cell group in
  for_each (seq 0 (length lines))
    (fun i => for_each (seq (S i) (length lines - S i))
                (connect_transfer station_name lines i))
    graph.

Definition build_graph (df : DataFrame) (rnd : rng) : outcome Graph :=
  let graph0 :=
    fold_left (fun graph row =>
                 add_station graph (mkStation (str (Station_cell row)) (str (Line_cell row))))
              (iterrows df) empty_graph in
  st <- for_each (groupby Line_cell df)
          (fun lg => connect_line (fst lg) (snd lg)) (graph0, rnd) ;;
  for_each (groupby Station_cell df)
    (fun sg => connect_transfers (fst sg) (snd sg)) (fst st).

(** ** Candidate resolution *)

(** [sid.startswith(prefix)] *)
Definition startswith (sid prefix : string) : bool := String.prefix prefix sid.

(** [[sid for sid in graph.nodes if sid.startswith(name)]] *)
Definition candidates (graph : Graph) (station_name : string) : list string :=
  filter (fun sid => startswith sid station_name) (dict_keys (nodes graph)).

(** ** Path reconstruction

    [while current: path.append(current); current = <lookup>(current)].
    [current] is a string or [None]; both [None] and the empty string are
    false.  The two searches differ in the lookup only: [parent[current]]
    raises on a missing key, [previous.get(current)] yields [None]. *)

Definition truthy (current : option string) : option string :=
  match current with
  | Some EmptyString => None
  | _ => current
  end.

Fixpoint walk_back (fuel : nat) (lookup : string -> outcome (option string))
    (current : option string) (path : list string) : outcome (list string) :=
  match truthy current with
  | None => Done path
  | Some c =>
      match fuel with
      | O => OutOfFuel
      | S fuel' =>
          next <- lookup c ;;
          walk_back fuel' lookup next (path ++ [c])
      end
  end.

(** ** find_shortest_path *)

Record bfs_state : Type := mkBfs {
  visited : list string;
  parent : dict (option string);
  queue : list string
}.

(** The seeding loop: [queue.append(sid); visited.add(sid); parent[sid] = None]. *)
Definition bfs_seed (st : bfs_state) (sid : string) : bfs_state :=
  {| visited := sid :: visited st;
     parent := dict_set (parent st) sid None;
     queue := (queue st ++ [sid]) |}.

(** The body of [for neighbor, _ in graph.edges[current]]. *)
Definition bfs_visit (current : string) (st : bfs_state) (e : string * Z)
  : bfs_state :=
  let neighbor := fst e in
  if mem neighbor (visited st) then st
  else {| visited := neighbor :: visited st;
          parent := dict_set (parent st) neighbor (Some current);
          queue := (queue st ++ [neighbor]) |}.

(** [parent[current]] *)
Definition parent_lookup (parent : dict (option string)) (current : string)
  : outcome (option string) :=
  match dict_get parent current with
  | Some p => Done p
  | None => KeyError
  end.

(** [while queue: ...]; [None] is the "no route" result.  Each turn of the
    loop takes one unit of fuel, and the walk back along the parents runs on
    what is left. *)
Fixpoint bfs_loop (fuel : nat) (graph : Graph) (end_ids : list string)
    (st : bfs_state) : outcome (option (list string)) :=
  match queue st with
  | [] => Done None
  | current :: rest =>
      match fuel with
      | O => OutOfFuel
      | S fuel' =>
          if mem current end_ids then
            path <- walk_back fuel' (parent_lookup (parent st)) (Some current) [] ;;
            Done (Some (rev path))
          else
            match dict_get (edges graph) current with
            | None => KeyError
            | Some adj =>
                bfs_loop fuel' graph end_ids
                  (fold_left (bfs_visit current) adj
                     {| visited := visited st;
                        parent := parent st;
                        queue := rest |})
            end
      end
  end.

Definition find_shortest_path (fuel : nat) (graph : Graph)
    (start_name end_name : string) : outcome (option (list string)) :=
  let start_ids := candidates graph start_name in
  let end_ids := candidates graph end_name in
  bfs_loop fuel graph end_ids
    (fold_left bfs_seed start_ids {| visited := []; parent := []; queue := [] |}).

(** ** find_fastest_path *)

(** A distance is an [int] or [float('inf')]. *)
Inductive dist : Type :=
| Fin (d : Z)
| Inf.

(** [new_dist < d] for an integer [new_dist]. *)
Definition lt_dist (new_dist : Z) (d : dist) : bool :=
  match d with
  | Fin z => new_dist <? z
  | Inf => true
  end.

(** Heap entries are tuples [(dist, sid)], compared as Python compares
    tuples: by distance, then by identifier. *)
Definition entry : Type := (Z * string)%type.

Definition entry_leb (x y : entry) : bool :=
  (fst x <? fst y) || ((fst x =? fst y) && String.leb (snd x) (snd y)).

(** [heapq] keeps a multiset of entries and hands out a smallest one; the
    layout of the underlying list is never observed. *)
Definition heappush (q : list entry) (x : entry) : list entry := x :: q.

Fixpoint heappop (q : list entry) : option (entry * list entry) :=
  match q with
  | [] => None
  | x :: q' =>
      match heappop q' with
      | None => Some (x, [])
      | Some (m, r) =>
          if entry_leb x m then Some (x, q') else Some (m, x :: r)
      end
  end.

Record dijkstra_state : Type := mkDijkstra {
  distances : dict dist;
  previous : dict string;
  heap : list entry
}.

(** The body of [for neighbor, time in graph.edges[current]]. *)
Definition relax (current : string) (current_dist : Z)
    (e : string * Z) (st : dijkstra_state) : outcome dijkstra_state :=
  let neighbor := fst e in
  let time := snd e in
  let new_dist := current_dist + time in
  match dict_get (distances st) neighbor with
  | None => KeyError
  | Some d =>
      if lt_dist new_dist d then
        Done {| distances := dict_set (distances st) neighbor (Fin new_dist);
                previous := dict_set (previous st) neighbor current;
                heap := heappush (heap st) (new_dist, neighbor) |}
      else Done st
  end.

(** [previous.get(current)] *)
Definition previous_lookup (previous : dict string) (current : string)
  : outcome (option string) :=
  Done (dict_get previous current).

(** [while queue: ...]; fuel as in [bfs_loop]. *)
Fixpoint dijkstra_loop (fuel : nat) (graph : Graph) (end_ids : list string)
    (st : dijkstra_state) : outcome (option (list string) * dist) :=
  match heappop (heap st) with
  | None => Done (None, Inf)
  | Some ((current_dist, current), rest) =>
      match fuel with
      | O => OutOfFuel
      | S fuel' =>
          if mem current end_ids then
            path <- walk_back fuel' (previous_lookup (previous st)) (Some current) [] ;;
            Done (Some (rev path), Fin current_dist)
          else
            match dict_get (edges graph) current with
            | None => KeyError
            | Some adj =>
                st' <- for_each adj (relax current current_dist)
                         {| distances := distances st;
                            previous := previous st;
                            heap := rest |} ;;
                dijkstra_loop fuel' graph end_ids st'
            end
      end
  end.

(** [distances[sid] = 0; heapq.heappush(queue, (0, sid))] *)
Definition dijkstra_seed (st : dijkstra_state) (sid : string) : dijkstra_state :=
  {| distances := dict_set (distances st) sid (Fin 0);
     previous := previous st;
     heap := heappush (heap st) (0, sid) |}.

Definition find_fastest_path (fuel : nat) (graph : Graph)
    (start_name end_name : string) : outcome (option (list string) * dist) :=
  let start_ids := candidates graph start_name in
  let end_ids := candidates graph end_name in
  let distances0 := map (fun sid => (sid, Inf)) (dict_keys (nodes graph)) in
  dijkstra_loop fuel graph end_ids
    (fold_left dijkstra_seed start_ids
       {| distances := distances0; previous := []; heap := [] |}).


(** * Vocabulary of the properties *)

(** ** Tables of text

    A table of text rows stands for the frame whose cells are those texts:
    station names and line names as the specification has them.  On such a
    frame sorting and grouping go by the characters of the texts. *)

Record row : Type := mkRow { Station_col : string; Line_col : string }.

Definition table : Type := list row.

Definition frame_row_of (r : row) : frame_row :=
  mkFrameRow (Str (Station_col r)) (Str (Line_col r)).

Definition frame_of (rows : table) : DataFrame := map frame_row_of rows.

(** The two texts a row of any frame shows. *)
Definition text_of (r : frame_row) : row :=
  mkRow (str (Station_cell r)) (str (Line_cell r)).

(** Insertion of a row into a list sorted by a string key. *)
Fixpoint insert_by (key : row -> string) (r : row) (rs : list row) : list row :=
  match rs with
  | [] => [r]
  | r' :: rs' =>
      if String.leb (key r) (key r') then r :: rs
      else r' :: insert_by key r rs'
  end.

(** The rows in ascending order of a text; texts compare character by
    character. *)
Definition sort_rows (key : row -> string) (df : table) : table :=
  fold_right (insert_by key) [] df.

Fixpoint insert_key (k : string) (ks : list string) : list string :=
  match ks with
  | [] => [k]
  | k' :: ks' =>
      if String.leb k k' then k :: ks else k' :: insert_key k ks'
  end.

(** The distinct texts of a column, ascending. *)
Definition row_keys (key : row -> string) (df : table) : list string :=
  fold_right insert_key [] (uniq String.eqb (map key df)).

(** For each text of a column, ascending, the rows that carry it, in their
    original order. *)
Definition group_rows (key : row -> string) (df : table)
  : list (string * table) :=
  map (fun k => (k, filter (fun r => String.eqb (key r) k) df))
      (row_keys key df).


(** ** Edges, paths and routes *)

(** The adjacency list of [a] holds [(b, w)]. *)
Definition has_edge (g : Graph) (a b : string) (w : Z) : Prop :=
  exists adj, dict_get (edges g) a = Some adj /\ In (b, w) adj.

(** [p] is a sequence of nodes in which each node is joined to the next by
    an edge of the graph; [ws] lists the weights of the edges taken. *)
Fixpoint joins (g : Graph) (p : list string) (ws : list Z) : Prop :=
  match p, ws with
  | [_], [] => True
  | a :: ((b :: _) as rest), w :: ws' => has_edge g a b w /\ joins g rest ws'
  | _, _ => False
  end.

(** A route: a path from one of [starts] to one of [ends]. *)
Definition route (g : Graph) (starts ends : list string)
    (p : list string) (ws : list Z) : Prop :=
  joins g p ws /\
  (exists s, hd_error p = Some s /\ In s starts) /\
  (exists e, hd_error (rev p) = Some e /\ In e ends).

Definition total (ws : list Z) : Z := fold_right Z.add 0 ws.

(** ** What [build_graph] guarantees of its result *)

Record wf_graph (g : Graph) : Prop := {
  wf_keys : dict_keys (edges g) = dict_keys (nodes g);
  wf_nodup : NoDup (dict_keys (nodes g));
  wf_nonempty : forall k, In k (dict_keys (nodes g)) -> k <> "";
  wf_edge : forall a b w, has_edge g a b w ->
      In b (dict_keys (nodes g)) /\ 2 <= w <= 8 /\ has_edge g b a w
}.

(** ** The calls of [add_connection] made by [build_graph] *)

Definition connection : Type := (string * string * Z)%type.

Definition connect (c : connection) (g : Graph) : outcome Graph :=
  add_connection g (fst (fst c)) (snd (fst c)) (snd c).

(** The graph after the given calls, in order. *)
Definition connect_all (cs : list connection) (g : Graph) : outcome Graph :=
  for_each cs connect g.

(** The graph after the first loop of [build_graph]: every row registered. *)
Definition stations_graph (df : table) : Graph :=
  fold_left (fun graph r =>
               add_station graph (mkStation (Station_col r) (Line_col r)))
            df empty_graph.

(** [n] successive results of [random.randint(2, 8)]. *)
Fixpoint draws (n : nat) (rnd : rng) : list Z * rng :=
  match n with
  | O => ([], rnd)
  | S n' =>
      let (w, rnd1) := randint 2 8 rnd in
      let (ws, rnd2) := draws n' rnd1 in
      (w :: ws, rnd2)
  end.

(** Each identifier joined to the next one, with the weights in order. *)
Fixpoint chain (ids : list string) (ws : list Z) : list connection :=
  match ids, ws with
  | a :: ((b :: _) as rest), w :: ws' => (a, b, w) :: chain rest ws'
  | _, _ => []
  end.

Definition line_ids (l : string) (group : table) : list string :=
  map (fun r => id (mkStation (Station_col r) l))
      (sort_rows Station_col group).

(** The connections the intra-line loop makes for one line, and the
    generator it leaves. *)
Definition line_connections (l : string) (group : table) (rnd : rng)
  : list connection * rng :=
  let (ws, rnd') := draws (length group - 1) rnd in
  (chain (line_ids l group) ws, rnd').

(** The connections of the whole intra-line pass, line by line. *)
Fixpoint intra_connections (groups : list (string * table)) (rnd : rng)
  : list (string * list connection) :=
  match groups with
  | [] => []
  | (l, group) :: rest =>
      let (cs, rnd') := line_connections l group rnd in
      (l, cs) :: intra_connections rest rnd'
  end.

(** All pairs [(xs[i], xs[j])] with [i < j], in loop order. *)
Fixpoint pairs {A : Type} (xs : list A) : list (A * A) :=
  match xs with
  | [] => []
  | x :: rest => (map (pair x) rest ++ pairs rest)
  end.

(** The connections the transfer loops make for one station name. *)
Definition transfer_connections (station_name : string) (group : table)
  : list connection :=
  map (fun ll => (id (mkStation station_name (fst ll)),
                  id (mkStation station_name (snd ll)), 5))
      (pairs (map Line_col group)).

(** The connections of the whole transfer pass, station by station. *)
Definition transfers (df : table) : list (string * list connection) :=
  map (fun sg => (fst sg, transfer_connections (fst sg) (snd sg)))
      (group_rows Station_col df).

Definition intra (df : table) (rnd : rng) : list (string * list connection) :=
  intra_connections (group_rows Line_col df) rnd.

(** The rows of a line, and the rows of a station name. *)
Definition rows_of_line (df : table) (l : string) : table :=
  filter (fun r => String.eqb (Line_col r) l) df.

Definition rows_of_station (df : table) (n : string) : table :=
  filter (fun r => String.eqb (Station_col r) n) df.

(** Before any connection is added: the two dictionaries have the same
    keys, all of them station identifiers, and no node has a neighbour. *)
Record bare_graph (df : table) (g : Graph) : Prop := {
  bare_keys : dict_keys (edges g) = dict_keys (nodes g);
  bare_nodup : NoDup (dict_keys (nodes g));
  bare_ids : forall k, In k (dict_keys (nodes g)) <->
               exists r, In r df /\ k = id (mkStation (Station_col r) (Line_col r));
  bare_adj : forall a adj, dict_get (edges g) a = Some adj -> adj = []
}.


(** A connection the graph can take: both ends registered, weight in range. *)
Definition admissible (g : Graph) (c : connection) : Prop :=
  In (fst (fst c)) (dict_keys (nodes g)) /\
  In (snd (fst c)) (dict_keys (nodes g)) /\
  2 <= snd c <= 8.


(** All the calls of [add_connection] made by [build_graph], in order. *)
Definition connections (df : table) (rnd : rng) : list connection :=
  concat (map snd (intra df rnd)) ++ concat (map snd (transfers df)).


(** ** Reachability at a cost

    [reach g cost starts n W]: some path of the graph leads from one of
    [starts] to [n], and the costs of its edges add up to [W].  The cost of
    an edge is a function of its weight: the weight itself when minutes are
    counted, 1 when stops are counted. *)

Inductive reach (g : Graph) (cost : Z -> Z) (starts : list string)
  : string -> Z -> Prop :=
| reach_start s : In s starts -> reach g cost starts s 0
| reach_step a b t W :
    reach g cost starts a W -> has_edge g a b t ->
    reach g cost starts b (W + cost t).

Definition hops (t : Z) : Z := 1.
Definition minutes (t : Z) : Z := t.

(** ** The invariant of the breadth-first search

    Besides the state of the loop it speaks of: the nodes [settled] so far
    (dequeued and expanded, or being expanded), the depth [dep] at which
    each visited node was found, the node [cur] being expanded with the
    edges [pending] in its adjacency list, and the depth [lo] of the last
    node dequeued. *)

Definition upd (dep : string -> Z) (m : string) (v : Z) : string -> Z :=
  fun n => if String.eqb n m then v else dep n.

Record bfs_inv (g : Graph) (starts ends settled : list string)
    (dep : string -> Z) (lo : Z) (cur : string) (pending : list (string * Z))
    (st : bfs_state) : Prop := {
  bi_starts : forall s, In s starts -> In s (visited st) /\ dep s <= 0;
  bi_keys : forall n, In n (visited st) -> In n (dict_keys (nodes g));
  bi_nodup_visited : NoDup (visited st);
  bi_settled : forall n, In n settled -> In n (visited st);
  bi_frontier : forall n, In n (visited st) -> In n settled \/ In n (queue st);
  bi_queue : forall n, In n (queue st) -> In n (visited st) /\ ~ In n settled;
  bi_nodup_queue : NoDup (queue st);
  bi_min : forall n W, In n settled -> reach g hops starts n W -> dep n <= W;
  bi_relaxed : forall n m t, In n settled -> has_edge g n m t ->
      (n = cur /\ In (m, t) pending) \/
      (In m (visited st) /\ dep m <= dep n + 1);
  bi_reach : forall n, In n (visited st) -> reach g hops starts n (dep n);
  bi_sorted : StronglySorted (fun a b => dep a <= dep b) (queue st);
  bi_band : forall q, In q (queue st) -> lo <= dep q <= lo + 1;
  bi_cur : pending <> [] -> In cur settled /\ dep cur = lo;
  bi_pending : forall m t, In (m, t) pending -> has_edge g cur m t;
  bi_parent : forall n, In n (visited st) ->
      (dict_get (parent st) n = Some None /\ In n starts /\ dep n = 0) \/
      (exists u t, dict_get (parent st) n = Some (Some u) /\
                   In u (visited st) /\ has_edge g u n t /\ dep n = dep u + 1);
  bi_ends : forall n, In n settled -> ~ In n ends
}.

(** What is left to do: the nodes not yet visited and the queue. *)
Definition bfs_measure (g : Graph) (st : bfs_state) : nat :=
  (length (dict_keys (nodes g)) - length (visited st) + length (queue st))%nat.

(** ** The invariant of the search by travel time

    Besides the state of the loop it speaks of: the nodes [settled] so far
    (popped and expanded, or being expanded), the node [cur] being expanded
    with the distance [dcur] it was popped at, and the edges [pending] in
    its adjacency list. *)

Record dj_inv (g : Graph) (starts ends settled : list string)
    (cur : string) (dcur : Z) (pending : list (string * Z))
    (st : dijkstra_state) : Prop := {
  dj_keys : dict_keys (distances st) = dict_keys (nodes g);
  dj_starts : forall s, In s starts -> dict_get (distances st) s = Some (Fin 0);
  dj_settled_keys : forall n, In n settled -> In n (dict_keys (nodes g));
  dj_nodup_settled : NoDup settled;
  dj_frontier : forall n x, dict_get (distances st) n = Some (Fin x) ->
      In n settled \/ In (x, n) (heap st);
  dj_heap : forall x n, In (x, n) (heap st) ->
      exists y, dict_get (distances st) n = Some (Fin y) /\ y <= x;
  dj_reach : forall n x, dict_get (distances st) n = Some (Fin x) ->
      reach g minutes starts n x;
  dj_min : forall n W, In n settled -> reach g minutes starts n W ->
      exists x, dict_get (distances st) n = Some (Fin x) /\ x <= W;
  dj_relaxed : forall n m w, In n settled -> has_edge g n m w ->
      (n = cur /\ In (m, w) pending) \/
      (exists x y, dict_get (distances st) n = Some (Fin x) /\
                   dict_get (distances st) m = Some (Fin y) /\ y <= x + w);
  dj_cur : pending <> [] ->
      In cur settled /\ dict_get (distances st) cur = Some (Fin dcur);
  dj_pending : forall m w, In (m, w) pending -> has_edge g cur m w;
  dj_prev : forall n u, dict_get (previous st) n = Some u ->
      In u settled /\
      exists x w, dict_get (distances st) u = Some (Fin x) /\
                  has_edge g u n w /\
                  dict_get (distances st) n = Some (Fin (x + w));
  dj_root : forall n x, dict_get (distances st) n = Some (Fin x) ->
      dict_get (previous st) n = None -> In n starts /\ x = 0;
  dj_ends : forall n, In n settled -> ~ In n ends
}.

(** The adjacency entries of the nodes that are not settled. *)
Definition unsettled_degree (g : Graph) (settled : list string) : nat :=
  list_sum (map (fun kv => if mem (fst kv) settled then O else length (snd kv))
                (edges g)).

(** What is left to do: the heap and the edges not yet relaxed. *)
Definition dj_measure (g : Graph) (settled : list string) (st : dijkstra_state)
  : nat :=
  (length (heap st) + unsettled_degree g settled)%nat.

(** Fuel that lets both searches end on a built graph: more than the number
    of nodes plus the number of adjacency entries. *)
Definition search_fuel (g : Graph) : nat :=
  S (length (nodes g) + unsettled_degree g []).

(** The state in which the loop of [find_fastest_path] starts. *)
Definition dijkstra_start (g : Graph) (start_ids : list string) : dijkstra_state :=
  fold_left dijkstra_seed start_ids
    {| distances := map (fun sid => (sid, Inf)) (dict_keys (nodes g));
       previous := []; heap := [] |}.

(** ** A small network

    Line L1 with stations B, A, C (in file order), line L2 with stations B
    and D; B is the interchange.  The generator draws 0, 1, 2, ... *)

Definition demo_rows : table :=
  [mkRow "B" "L1"; mkRow "A" "L1"; mkRow "C" "L1"; mkRow "B" "L2"; mkRow "D" "L2"].

Definition demo_df : DataFrame := frame_of demo_rows.

Definition demo_rng : rng := {| raw := fun n => Z.of_nat n; pos := 0 |}.

Definition demo_graph : Graph :=
  Eval vm_compute in
    match build_graph demo_df demo_rng with
    | Done g => g
    | _ => empty_graph
    end.

(** ** Frames that are not text

    Stations numbered 10, 9 and 2 on one line; a station without a name on
    two lines; such a row given twice; and, an int64 column beside a
    float64 column: stations 1 and 2 on line 1.5, station 1 on lines 1.5 and
    2.5, station 1 on line 1.5 given twice, station 1 on line 1.5 and
    station 2 on line 2.5. *)

Definition numbered_df : DataFrame :=
  [mkFrameRow (Int 10) (Str "L1"); mkFrameRow (Int 9) (Str "L1");
   mkFrameRow (Int 2) (Str "L1")].

Definition unnamed_df : DataFrame :=
  [mkFrameRow NaN (Str "L1"); mkFrameRow (Str "B") (Str "L1");
   mkFrameRow NaN (Str "L2")].


Definition fractional_df : DataFrame :=
  [mkFrameRow (Int 1) (Flt (float_of_ratio 3 2));
   mkFrameRow (Int 2) (Flt (float_of_ratio 3 2))].



Definition apart_df : DataFrame :=
  [mkFrameRow (Int 1) (Flt (float_of_ratio 3 2));
   mkFrameRow (Int 2) (Flt (float_of_ratio 5 2))].


(** ** Further vocabulary *)

(** The identifier of the node registered for a row. *)
Definition row_id (r : row) : string :=
  id (mkStation (Station_col r) (Line_col r)).

(** The node entry registered for a row. *)
Definition row_node (r : row) : string * Station :=
  (row_id r, mkStation (Station_col r) (Line_col r)).

(** The character occurs in the string. *)
Fixpoint contains_char (c : ascii) (s : string) : bool :=
  match s with
  | EmptyString => false
  | String c' s' => Ascii.eqb c' c || contains_char c s'
  end.

(** The number of entries in all adjacency lists: twice the number of
    edges, a self-loop counting for two entries. *)
Definition adjacency_entries (g : Graph) : nat :=
  list_sum (map (fun kv => length (snd kv)) (edges g)).

(** The graph has no edge out of one node that is not matched by the
    reverse edge. *)
Definition symmetric (g : Graph) : Prop :=
  forall a b w, has_edge g a b w -> has_edge g b a w.

(** The results of [n] calls of [random.randint(2, 8)] from position [p] of
    a sequence of raw draws. *)
Definition drawn_weights (raw : nat -> Z) (p n : nat) : list Z :=
  map (fun i => 2 + raw (p + i)%nat mod 7) (seq 0 n).

(** Some path of the graph leads from [x] to [y]. *)
Definition connected (g : Graph) (x y : string) : Prop :=
  exists p ws, joins g p ws /\ hd_error p = Some x /\ hd_error (rev p) = Some y.

(** Identifiers linked through the rows of the table: from the identifier of
    a row one steps to that of any row on the same line or of the same
    station name. *)
Inductive linked (df : table) : string -> string -> Prop :=
| linked_here r : In r df -> linked df (row_id r) (row_id r)
| linked_step a rb rc :
    linked df a (row_id rb) -> In rb df -> In rc df ->
    Line_col rb = Line_col rc \/ Station_col rb = Station_col rc ->
    linked df a (row_id rc).
(** * Properties *)

(** ** Dictionaries *)

Section DictFacts.
Context {V : Type}.
Implicit Types (d : dict V) (k : string) (v : V).

Lemma dict_get_set d k v k' :
    dict_get (dict_set d k v) k' =
    if String.eqb k k' then Some v else dict_get d k'.
Proof.
    induction d as [|[k0 v0] d IH]; simpl.
    - reflexivity.
    - destruct (String.eqb_spec k0 k) as [->|Hk0]; simpl.
      + destruct (String.eqb k k'); reflexivity.
      + rewrite IH.
        destruct (String.eqb_spec k0 k') as [->|]; [|reflexivity].
        destruct (String.eqb_spec k k'); congruence.
Qed.

Lemma dict_get_set_same d k v : dict_get (dict_set d k v) k = Some v.
Proof. now rewrite dict_get_set, String.eqb_refl. Qed.

Lemma dict_get_set_other d k v k' :
    k <> k' -> dict_get (dict_set d k v) k' = dict_get d k'.
Proof.
    intros H. rewrite dict_get_set.
    now destruct (String.eqb_spec k k').
Qed.

Lemma dict_get_in_keys d k :
    In k (dict_keys d) <-> exists v, dict_get d k = Some v.
Proof.
    unfold dict_keys.
    induction d as [|[k0 v0] d IH]; simpl.
    - split; [tauto | intros [v Hv]; discriminate].
    - destruct (String.eqb_spec k0 k) as [->|Hne].
      + split; eauto.
      + rewrite <- IH. tauto.
Qed.

Lemma dict_get_none d k : ~ In k (dict_keys d) -> dict_get d k = None.
Proof.
    intros H. destruct (dict_get d k) eqn:E; [|reflexivity].
    exfalso. apply H, dict_get_in_keys. eauto.
Qed.

Lemma dict_keys_set_in d k v :
    In k (dict_keys d) -> dict_keys (dict_set d k v) = dict_keys d.
Proof.
    unfold dict_keys.
    induction d as [|[k0 v0] d IH]; simpl; [tauto|].
    intros H. destruct (String.eqb_spec k0 k) as [->|Hne]; simpl.
    - reflexivity.
    - f_equal. apply IH. destruct H; congruence.
Qed.

Lemma dict_keys_set_new d k v :
    ~ In k (dict_keys d) -> dict_keys (dict_set d k v) = (dict_keys d ++ [k]).
Proof.
    unfold dict_keys.
    induction d as [|[k0 v0] d IH]; simpl; [reflexivity|].
    intros H. destruct (String.eqb_spec k0 k) as [->|Hne]; simpl.
    - tauto.
    - f_equal. apply IH. tauto.
Qed.

Lemma dict_keys_set_iff d k v k' :
    In k' (dict_keys (dict_set d k v)) <-> k' = k \/ In k' (dict_keys d).
Proof.
    destruct (in_dec string_dec k (dict_keys d)) as [Hin|Hout].
    - rewrite dict_keys_set_in by assumption.
      split; [tauto | intros [->|]; assumption].
    - rewrite dict_keys_set_new, in_app_iff by assumption. simpl.
      split; intros [H|H]; auto.
      + destruct H; [subst; auto | tauto].
Qed.

Lemma dict_keys_set_nodup d k v :
    NoDup (dict_keys d) -> NoDup (dict_keys (dict_set d k v)).
Proof.
    intros H.
    destruct (in_dec string_dec k (dict_keys d)) as [Hin|Hout].
    - now rewrite dict_keys_set_in.
    - rewrite dict_keys_set_new by assumption.
      apply NoDup_app; [assumption | repeat constructor; simpl; tauto |].
      intros x Hx [<-|[]]. contradiction.
Qed.
End DictFacts.

Lemma mem_in x xs : mem x xs = true <-> In x xs.
Proof.
  unfold mem. rewrite existsb_exists. split.
  - intros [y [Hy E]]. apply String.eqb_eq in E. now subst.
  - intros H. exists x. split; [assumption | apply String.eqb_refl].
Qed.

Lemma mem_not_in x xs : mem x xs = false <-> ~ In x xs.
Proof.
  rewrite <- mem_in. destruct (mem x xs); split; congruence.
Qed.

(** ** Outcomes and loops *)

Lemma for_each_app {A S : Type} (xs ys : list A) (body : A -> S -> outcome S) s :
  for_each (xs ++ ys) body s = (s' <- for_each xs body s ;; for_each ys body s').
Proof.
  revert s. induction xs as [|x xs IH]; intros s; simpl.
  - reflexivity.
  - destruct (body x s); simpl; auto.
Qed.

Lemma for_each_inv {A S : Type} (P : S -> Prop) (Q : A -> Prop)
    (body : A -> S -> outcome S) :
  (forall x s, Q x -> P s -> exists s', body x s = Done s' /\ P s') ->
  forall xs s, Forall Q xs -> P s -> exists s', for_each xs body s = Done s' /\ P s'.
Proof.
  intros Hstep xs. induction xs as [|x xs IH]; intros s HQ HP; simpl.
  - eauto.
  - inversion HQ; subst.
    destruct (Hstep x s) as [s1 [E1 P1]]; auto.
    rewrite E1. simpl. apply IH; assumption.
Qed.

(** ** Station identifiers *)

Lemma id_nonempty st : id st <> "".
Proof.
  unfold id. destruct (name st); simpl; discriminate.
Qed.

Lemma append_inj_l (p a b : string) : (p ++ a = p ++ b)%string -> a = b.
Proof.
  induction p; simpl; intros H; [assumption|].
  injection H as H. auto.
Qed.

Lemma append_inj_r (a b s : string) : (a ++ s = b ++ s)%string -> a = b.
Proof.
  intros H.
  assert (L : String.length a = String.length b).
  { apply (f_equal String.length) in H.
    assert (E : forall x y, String.length (x ++ y)%string = (String.length x + String.length y)%nat).
    { intros x y. induction x; simpl; auto. }
    rewrite !E in H. lia. }
  revert b H L. induction a as [|c a IH]; intros [|c' b] H L; simpl in *;
    try discriminate; auto.
  injection H as -> H. f_equal. apply IH; auto.
Qed.

(** For one station name, distinct lines give distinct identifiers. *)
Lemma id_inj_line n l1 l2 : id (mkStation n l1) = id (mkStation n l2) -> l1 = l2.
Proof.
  unfold id; simpl. intros H.
  apply append_inj_l in H. apply (append_inj_l " (") in H.
  now apply append_inj_r in H.
Qed.

(** On one line, distinct station names give distinct identifiers. *)
Lemma id_inj_name n1 n2 l : id (mkStation n1 l) = id (mkStation n2 l) -> n1 = n2.
Proof.
  unfold id; simpl. intros H. now apply append_inj_r in H.
Qed.

(** ** The graph operations *)

Lemma dict_keys_set_eq {V W : Type} (d1 : dict V) (d2 : dict W) k v w :
  dict_keys d1 = dict_keys d2 ->
  dict_keys (dict_set d1 k v) = dict_keys (dict_set d2 k w).
Proof.
  intros E.
  destruct (in_dec string_dec k (dict_keys d1)) as [Hin|Hout].
  - rewrite !dict_keys_set_in; congruence.
  - rewrite !dict_keys_set_new; congruence.
Qed.

Lemma add_station_bare df g r :
  bare_graph df g ->
  bare_graph (df ++ [r]) (add_station g (mkStation (Station_col r) (Line_col r))).
Proof.
  intros [K N I A]. split; simpl.
  - now apply dict_keys_set_eq.
  - now apply dict_keys_set_nodup.
  - intros k. rewrite dict_keys_set_iff, I. split.
    + intros [->|[r' [Hr' ->]]].
      * exists r. split; [apply in_or_app; simpl; auto | reflexivity].
      * exists r'. split; [apply in_or_app; auto | reflexivity].
    + intros [r' [Hr' ->]]. apply in_app_or in Hr'. destruct Hr' as [Hr'|[<-|[]]].
      * right. eauto.
      * now left.
  - intros a adj. rewrite dict_get_set.
    destruct (String.eqb _ a); [congruence | apply A].
Qed.

Lemma stations_graph_bare df : bare_graph df (stations_graph df).
Proof.
  unfold stations_graph.
  assert (G : forall rest done g, bare_graph done g ->
            bare_graph (done ++ rest)
              (fold_left (fun graph r =>
                 add_station graph (mkStation (Station_col r) (Line_col r))) rest g)).
  { induction rest as [|r rest IH]; intros done g Hg; simpl.
    - now rewrite app_nil_r.
    - replace (done ++ r :: rest) with ((done ++ [r]) ++ rest)
        by (rewrite <- app_assoc; reflexivity).
      apply IH. now apply add_station_bare. }
  apply (G df [] empty_graph).
  split; simpl; try reflexivity.
  - constructor.
  - intros k. split; [tauto | intros [r [[] _]]].
  - discriminate.
Qed.

Lemma add_connection_spec g a b t g' :
  add_connection g a b t = Done g' ->
  nodes g' = nodes g /\
  dict_keys (edges g') = dict_keys (edges g) /\
  forall x y w, has_edge g' x y w <->
    has_edge g x y w \/ (x = a /\ y = b /\ w = t) \/ (x = b /\ y = a /\ w = t).
Proof.
  unfold add_connection.
  destruct (dict_get (edges g) a) as [l1|] eqn:Ea; [|discriminate].
  rewrite dict_get_set.
  assert (Ha : In a (dict_keys (edges g))) by (apply dict_get_in_keys; eauto).
  destruct (String.eqb_spec a b) as [<-|Hab].
  - intros [= <-]. simpl. split; [reflexivity|]. split.
    { rewrite !dict_keys_set_in; auto. now rewrite dict_keys_set_in. }
    intros x y w. unfold has_edge; simpl.
    rewrite dict_get_set.
    destruct (String.eqb_spec a x) as [<-|Hax].
    + split.
      * intros [adj [[= <-] Hin]].
        rewrite !in_app_iff in Hin. simpl in Hin.
        destruct Hin as [[Hin|[[= <- <-]|[]]]|[[= <- <-]|[]]]; eauto.
      * intros [[adj [E Hin]]|[[_ [-> ->]]|[_ [-> ->]]]].
        -- rewrite Ea in E. injection E as <-.
           eexists; split; [reflexivity|]. rewrite !in_app_iff. auto.
        -- eexists; split; [reflexivity|]. rewrite !in_app_iff. simpl. auto.
        -- eexists; split; [reflexivity|]. rewrite !in_app_iff. simpl. auto.
    + rewrite dict_get_set_other by assumption.
      split; [auto|]. intros [H|[[-> _]|[-> _]]]; tauto.
  - destruct (dict_get (edges g) b) as [l2|] eqn:Eb; [|discriminate].
    assert (Hb : In b (dict_keys (edges g))) by (apply dict_get_in_keys; eauto).
    intros [= <-]. simpl. split; [reflexivity|]. split.
    { rewrite dict_keys_set_in; rewrite dict_keys_set_in; auto. }
    intros x y w. unfold has_edge; simpl.
    rewrite !dict_get_set.
    destruct (String.eqb_spec b x) as [<-|Hbx].
    + split.
      * intros [adj [[= <-] Hin]].
        rewrite in_app_iff in Hin. simpl in Hin.
        destruct Hin as [Hin|[[= <- <-]|[]]]; eauto.
      * intros [[adj [E Hin]]|[[-> _]|[_ [-> ->]]]].
        -- rewrite Eb in E. injection E as <-.
           eexists; split; [reflexivity|]. rewrite in_app_iff. auto.
        -- congruence.
        -- eexists; split; [reflexivity|]. rewrite in_app_iff. simpl. auto.
    + destruct (String.eqb_spec a x) as [<-|Hax].
      * split.
        -- intros [adj [[= <-] Hin]].
           rewrite in_app_iff in Hin. simpl in Hin.
           destruct Hin as [Hin|[[= <- <-]|[]]]; eauto.
        -- intros [[adj [E Hin]]|[[_ [-> ->]]|[-> _]]].
           ++ rewrite Ea in E. injection E as <-.
              eexists; split; [reflexivity|]. rewrite in_app_iff. auto.
           ++ eexists; split; [reflexivity|]. rewrite in_app_iff. simpl. auto.
           ++ congruence.
      * split; [auto|]. intros [H|[[-> _]|[-> _]]]; tauto.
Qed.

Lemma add_connection_done g a b t :
  In a (dict_keys (edges g)) -> In b (dict_keys (edges g)) ->
  exists g', add_connection g a b t = Done g'.
Proof.
  intros Ha Hb. unfold add_connection.
  apply dict_get_in_keys in Ha. destruct Ha as [l1 ->].
  rewrite dict_get_set.
  destruct (String.eqb a b); [eauto|].
  apply dict_get_in_keys in Hb. destruct Hb as [l2 ->]. eauto.
Qed.

Lemma add_connection_keys g a b t g' :
  add_connection g a b t = Done g' ->
  In a (dict_keys (edges g)) /\ In b (dict_keys (edges g)).
Proof.
  unfold add_connection.
  destruct (dict_get (edges g) a) as [l1|] eqn:Ea; [|discriminate].
  assert (Ha : In a (dict_keys (edges g))) by (apply dict_get_in_keys; eauto).
  destruct (dict_get _ b) as [l2|] eqn:Eb; [|discriminate].
  intros _. split; [assumption|].
  assert (Hb : In b (dict_keys (dict_set (edges g) a (l1 ++ [(b, t)]))))
    by (apply dict_get_in_keys; eauto).
  now rewrite dict_keys_set_in in Hb.
Qed.

Lemma add_connection_wf g a b t g' :
  wf_graph g -> 2 <= t <= 8 ->
  add_connection g a b t = Done g' -> wf_graph g'.
Proof.
  intros [K N E W] Ht H.
  destruct (add_connection_keys _ _ _ _ _ H) as [Ha Hb].
  destruct (add_connection_spec _ _ _ _ _ H) as [Hn [Hk He]].
  split.
  - congruence.
  - now rewrite Hn.
  - rewrite Hn. exact E.
  - intros x y w Hxy. rewrite Hn. apply He in Hxy.
    destruct Hxy as [Hxy|[[-> [-> ->]]|[-> [-> ->]]]].
    + destruct (W _ _ _ Hxy) as [? [? ?]]. repeat split; try tauto.
      apply He. auto.
    + rewrite <- K. repeat split; try tauto. apply He. auto.
    + rewrite <- K. repeat split; try tauto. apply He. auto.
Qed.

Lemma bare_graph_wf df g : bare_graph df g -> wf_graph g.
Proof.
  intros [K N I A]. split; auto.
  - intros k Hk. apply I in Hk. destruct Hk as [r [_ ->]]. apply id_nonempty.
  - intros a b w [adj [Hadj Hin]]. apply A in Hadj. subst. destruct Hin.
Qed.

Lemma connect_all_spec cs g :
  wf_graph g -> Forall (admissible g) cs ->
  exists g', connect_all cs g = Done g' /\ wf_graph g' /\ nodes g' = nodes g /\
    forall x y w, has_edge g' x y w <->
      has_edge g x y w \/ In (x, y, w) cs \/ In (y, x, w) cs.
Proof.
  revert g. induction cs as [|[[a b] t] cs IH]; intros g Hwf Hadm.
  - exists g. simpl. split; [reflexivity|]. split; [assumption|].
    split; [reflexivity|]. intros x y w. tauto.
  - inversion Hadm as [|? ? [Ha [Hb Ht]] Hrest]; subst. simpl in Ha, Hb, Ht.
    destruct (add_connection_done g a b t) as [g1 E1].
    { now rewrite (wf_keys g Hwf). }
    { now rewrite (wf_keys g Hwf). }
    pose proof (add_connection_wf g a b t g1 Hwf Ht E1) as Hwf1.
    destruct (add_connection_spec _ _ _ _ _ E1) as [Hn [_ He]].
    destruct (IH g1 Hwf1) as [g' [E' [Hwf' [Hn' He']]]].
    { eapply Forall_impl; [|exact Hrest].
      intros c. unfold admissible. now rewrite Hn. }
    exists g'. unfold connect_all in *. simpl. unfold connect at 1. simpl.
    rewrite E1. simpl. split; [assumption|]. split; [assumption|].
    split; [congruence|].
    intros x y w. rewrite He', He. simpl.
    split.
    + intros [[H|[[-> [-> ->]]|[-> [-> ->]]]]|[H|H]]; auto.
    + intros [H|[[[= -> -> ->]|H]|[[= -> -> ->]|H]]]; auto 6.
Qed.

Lemma connect_all_app cs1 cs2 g :
  connect_all (cs1 ++ cs2) g = (g' <- connect_all cs1 g ;; connect_all cs2 g').
Proof. apply for_each_app. Qed.

(** ** Sorting and grouping *)

Lemma insert_by_perm key r rs : Permutation (insert_by key r rs) (r :: rs).
Proof.
  induction rs as [|r' rs IH]; simpl.
  - reflexivity.
  - destruct (String.leb (key r) (key r')).
    + reflexivity.
    + rewrite IH. apply perm_swap.
Qed.

Lemma sort_rows_perm key df : Permutation (sort_rows key df) df.
Proof.
  induction df as [|r df IH]; simpl.
  - reflexivity.
  - rewrite insert_by_perm. now constructor.
Qed.

Lemma sort_rows_length key df : length (sort_rows key df) = length df.
Proof. apply Permutation_length, sort_rows_perm. Qed.

Lemma insert_key_perm k ks : Permutation (insert_key k ks) (k :: ks).
Proof.
  induction ks as [|k' ks IH]; simpl.
  - reflexivity.
  - destruct (String.leb k k').
    + reflexivity.
    + rewrite IH. apply perm_swap.
Qed.

Lemma filter_map_comm {A B : Type} (f : B -> bool) (g : A -> B) (xs : list A) :
  filter f (map g xs) = map g (filter (fun x => f (g x)) xs).
Proof.
  induction xs as [|x xs IH]; simpl; [reflexivity|].
  destruct (f (g x)); simpl; now rewrite IH.
Qed.

Lemma uniq_in (xs : list string) y : In y (uniq String.eqb xs) <-> In y xs.
Proof.
  induction xs as [|x xs IH]; simpl; [tauto|].
  rewrite filter_In, IH. split.
  - intros [H|[H _]]; auto.
  - intros [H|H]; [now left|].
    destruct (String.eqb x y) eqn:E.
    + apply String.eqb_eq in E. now left.
    + right. auto.
Qed.


Lemma row_keys_perm key df :
  Permutation (row_keys key df) (uniq String.eqb (map key df)).
Proof.
  unfold row_keys. induction (uniq String.eqb (map key df)) as [|k ks IH]; simpl.
  - reflexivity.
  - rewrite insert_key_perm. now constructor.
Qed.

Lemma row_keys_in key df k : In k (row_keys key df) <-> In k (map key df).
Proof.
  rewrite <- (uniq_in (map key df)). split; apply Permutation_in.
  - apply row_keys_perm.
  - symmetry. apply row_keys_perm.
Qed.


Lemma group_rows_in key df k grp :
  In (k, grp) (group_rows key df) <->
  In k (map key df) /\ grp = filter (fun r => String.eqb (key r) k) df.
Proof.
  unfold group_rows. split.
  - intros H. apply in_map_iff in H. destruct H as [k' [E Hk]].
    injection E as E1 E2. subst k'.
    apply row_keys_in in Hk. auto.
  - intros [Hk ->]. apply in_map_iff. exists k.
    split; [reflexivity | now apply row_keys_in].
Qed.


(** ** Frames of text

    On the frame of a table of text nothing is promoted, no key is missing,
    and sorting and grouping are those of the table. *)

Lemma iterrows_text rows : iterrows (frame_of rows) = frame_of rows.
Proof.
  unfold iterrows.
  assert (E : upcasts (frame_of rows) = false).
  { destruct rows as [|r rows]; reflexivity. }
  rewrite E. unfold frame_of. rewrite map_map. reflexivity.
Qed.

Lemma register_text rows : forall g,
  fold_left (fun graph row =>
               add_station graph (mkStation (str (Station_cell row))
                                            (str (Line_cell row))))
            (frame_of rows) g =
  fold_left (fun graph r =>
               add_station graph (mkStation (Station_col r) (Line_col r)))
            rows g.
Proof.
  induction rows as [|r rows IH]; intros g; [reflexivity|]. simpl. apply IH.
Qed.

Lemma insert_row_text kc ks r rs :
  (forall x, kc (frame_row_of x) = Str (ks x)) ->
  insert_row kc (frame_row_of r) (frame_of rs) = frame_of (insert_by ks r rs).
Proof.
  intros Hk. induction rs as [|r' rs IH]; [reflexivity|].
  cbn [frame_of map insert_row insert_by]. rewrite !Hk.
  change (before (Str (ks r)) (Str (ks r'))) with (String.leb (ks r) (ks r')).
  destruct (String.leb (ks r) (ks r')); [reflexivity|].
  cbn [map]. f_equal. exact IH.
Qed.

Lemma sort_values_text kc ks rows :
  (forall x, kc (frame_row_of x) = Str (ks x)) ->
  sort_values kc (frame_of rows) = frame_of (sort_rows ks rows).
Proof.
  intros Hk. induction rows as [|r rows IH]; [reflexivity|].
  cbn [frame_of map sort_values sort_rows fold_right].
  fold (frame_of rows). fold (sort_values kc (frame_of rows)).
  fold (sort_rows ks rows). rewrite IH. now apply insert_row_text.
Qed.

Lemma uniq_text (xs : list string) :
  uniq cell_eqb (map Str xs) = map Str (uniq String.eqb xs).
Proof.
  induction xs as [|x xs IH]; [reflexivity|].
  cbn [map uniq]. rewrite IH, filter_map_comm. reflexivity.
Qed.

Lemma insert_cell_text k ks :
  insert_cell (Str k) (map Str ks) = map Str (insert_key k ks).
Proof.
  induction ks as [|k' ks IH]; [reflexivity|].
  cbn [map insert_cell insert_key cell_leb].
  destruct (String.leb k k'); [reflexivity|]. cbn [map]. now rewrite IH.
Qed.

Lemma sorted_keys_text (xs : list string) :
  fold_right insert_cell [] (map Str xs) = map Str (fold_right insert_key [] xs).
Proof.
  induction xs as [|x xs IH]; [reflexivity|].
  cbn [map fold_right]. rewrite IH. apply insert_cell_text.
Qed.

Lemma group_keys_text kc ks rows :
  (forall x, kc (frame_row_of x) = Str (ks x)) ->
  group_keys kc (frame_of rows) = map Str (row_keys ks rows).
Proof.
  intros Hk. unfold group_keys, row_keys, frame_of.
  rewrite map_map.
  rewrite (map_ext (fun x => kc (frame_row_of x)) (fun x => Str (ks x)) Hk).
  rewrite <- (map_map ks Str), filter_map_comm.
  cbn [isna negb].
  replace (filter (fun _ : string => true) (map ks rows)) with (map ks rows).
  - rewrite uniq_text. apply sorted_keys_text.
  - induction (map ks rows) as [|x xs IH]; [reflexivity|]. cbn [filter]. now f_equal.
Qed.

Lemma groupby_text kc ks rows :
  (forall x, kc (frame_row_of x) = Str (ks x)) ->
  groupby kc (frame_of rows) =
  map (fun lg => (Str (fst lg), frame_of (snd lg))) (group_rows ks rows).
Proof.
  intros Hk. unfold groupby, group_rows.
  rewrite (group_keys_text kc ks rows Hk), !map_map. cbn [fst snd].
  apply map_ext. intros k. f_equal.
  unfold frame_of. rewrite filter_map_comm. f_equal.
  apply filter_ext. intros r. rewrite Hk. reflexivity.
Qed.

Lemma nth_error_frame_of rows i :
  nth_error (frame_of rows) i = option_map frame_row_of (nth_error rows i).
Proof. unfold frame_of. apply nth_error_map. Qed.

(** ** The random source *)

Lemma randint_range a b s : a <= b -> a <= fst (randint a b s) <= b.
Proof.
  intros H. unfold randint, randbelow. simpl.
  pose proof (Z.mod_pos_bound (raw s (pos s)) (b - a + 1)). lia.
Qed.

Lemma draws_length n rnd : length (fst (draws n rnd)) = n.
Proof.
  revert rnd. induction n as [|n IH]; intros rnd; cbn [draws].
  - reflexivity.
  - destruct (randint 2 8 rnd) as [w r1].
    specialize (IH r1). destruct (draws n r1) as [ws r2]. simpl in *. congruence.
Qed.

Lemma draws_range n rnd : Forall (fun w => 2 <= w <= 8) (fst (draws n rnd)).
Proof.
  revert rnd. induction n as [|n IH]; intros rnd; cbn [draws].
  - constructor.
  - pose proof (randint_range 2 8 rnd ltac:(lia)) as Hw.
    destruct (randint 2 8 rnd) as [w r1].
    specialize (IH r1). destruct (draws n r1) as [ws r2]. simpl in *.
    constructor; assumption.
Qed.

(** ** The loops of [build_graph] as lists of connections *)

Lemma nth_error_skipn {A : Type} (l : list A) i a :
  nth_error l i = Some a -> skipn i l = a :: skipn (S i) l.
Proof.
  revert l. induction i as [|i IH]; intros [|x l]; simpl; try discriminate.
  - intros [= ->]. reflexivity.
  - intros H. rewrite (IH l H). reflexivity.
Qed.

Lemma nth_error_lt {A : Type} (l : list A) i :
  (i < length l)%nat -> exists a, nth_error l i = Some a.
Proof.
  intros H. destruct (nth_error l i) eqn:E; [eauto|].
  apply nth_error_None in E. lia.
Qed.

Lemma chain_nil_r ids : chain ids [] = [].
Proof. destruct ids as [|a [|b ids]]; reflexivity. Qed.

Lemma connect_pair_loop l stations n : forall s g rnd,
  (n = 0 \/ s + S n = length stations)%nat ->
  for_each (seq s n) (connect_pair (Str l) (frame_of stations)) (g, rnd) =
  (g' <- connect_all
           (chain (map (fun r => id (mkStation (Station_col r) l)) (skipn s stations))
                  (fst (draws n rnd))) g ;;
   Done (g', snd (draws n rnd))).
Proof.
  induction n as [|n IH]; intros s g rnd Hn.
  - simpl. rewrite chain_nil_r. reflexivity.
  - destruct Hn as [Hn|Hn]; [discriminate|].
    destruct (nth_error_lt stations s ltac:(lia)) as [ra Ea].
    destruct (nth_error_lt stations (S s) ltac:(lia)) as [rb Eb].
    rewrite (nth_error_skipn _ _ _ Ea), (nth_error_skipn _ _ _ Eb).
    cbn [seq for_each]. unfold connect_pair at 1.
    rewrite !nth_error_frame_of, Ea, Eb.
    cbn [option_map frame_row_of Station_cell str draws fst snd].
    destruct (randint 2 8 rnd) as [w r1].
    specialize (IH (S s)).
    rewrite (nth_error_skipn _ _ _ Eb) in IH.
    destruct (draws n r1) as [ws r2] eqn:Ed.
    cbn [map chain fst snd]. unfold connect_all. cbn [for_each].
    unfold connect at 1. cbn [fst snd].
    destruct (add_connection g _ _ w) as [g1| |]; cbn [bind]; try reflexivity.
    rewrite IH by lia. rewrite Ed. reflexivity.
Qed.

Lemma connect_line_trace l group g rnd :
  connect_line (Str l) (frame_of group) (g, rnd) =
  (g' <- connect_all (fst (line_connections l group rnd)) g ;;
   Done (g', snd (line_connections l group rnd))).
Proof.
  unfold connect_line, line_connections, line_ids.
  rewrite (sort_values_text Station_cell Station_col) by reflexivity.
  unfold frame_of at 1. rewrite length_map. fold (frame_of (sort_rows Station_col group)).
  rewrite connect_pair_loop.
  - rewrite sort_rows_length. simpl skipn.
    destruct (draws (length group - 1) rnd); reflexivity.
  - lia.
Qed.

Lemma intra_pass_trace groups : forall g rnd,
  exists rnd',
    for_each (map (fun lg => (Str (fst lg), frame_of (snd lg))) groups)
      (fun lg => connect_line (fst lg) (snd lg)) (g, rnd) =
    (g' <- connect_all (concat (map snd (intra_connections groups rnd))) g ;;
     Done (g', rnd')).
Proof.
  induction groups as [|[l grp] groups IH]; intros g rnd.
  - exists rnd. reflexivity.
  - cbn [map for_each intra_connections fst snd].
    rewrite connect_line_trace.
    destruct (line_connections l grp rnd) as [cs r1].
    cbn [map concat fst snd]. rewrite connect_all_app.
    destruct (connect_all cs g) as [g1| |]; cbn [bind].
    + apply IH.
    + exists rnd. reflexivity.
    + exists rnd. reflexivity.
Qed.

Lemma transfer_inner_loop n lines i li : forall m j,
  nth_error lines i = Some li ->
  (j + m = length lines)%nat ->
  forall g,
  for_each (seq j m) (connect_transfer (Str n) (map Str lines) i) g =
  connect_all
    (map (fun lj => (id (mkStation n li), id (mkStation n lj), 5)) (skipn j lines)) g.
Proof.
  induction m as [|m IH]; intros j Ei Hj g.
  - rewrite skipn_all2 by lia. reflexivity.
  - destruct (nth_error_lt lines j ltac:(lia)) as [lj Ej].
    rewrite (nth_error_skipn _ _ _ Ej).
    cbn [seq for_each map]. unfold connect_transfer at 1.
    rewrite !nth_error_map, Ei, Ej. cbn [option_map str].
    unfold connect_all. cbn [for_each]. unfold connect at 1. cbn [fst snd].
    change (n ++ " (" ++ li ++ ")")%string with (id (mkStation n li)).
    change (n ++ " (" ++ lj ++ ")")%string with (id (mkStation n lj)).
    destruct (add_connection g _ _ 5) as [g1| |]; cbn [bind]; try reflexivity.
    apply IH; [assumption | lia].
Qed.

Lemma transfer_outer_loop n lines : forall m i g,
  (i + m = length lines)%nat ->
  for_each (seq i m)
    (fun i => for_each (seq (S i) (length lines - S i))
                (connect_transfer (Str n) (map Str lines) i)) g =
  connect_all
    (map (fun ll => (id (mkStation n (fst ll)), id (mkStation n (snd ll)), 5))
         (pairs (skipn i lines))) g.
Proof.
  induction m as [|m IH]; intros i g Hi.
  - rewrite skipn_all2 by lia. reflexivity.
  - destruct (nth_error_lt lines i ltac:(lia)) as [li Ei].
    rewrite (nth_error_skipn _ _ _ Ei).
    cbn [seq for_each pairs]. rewrite map_app, map_map. cbn [fst snd].
    rewrite connect_all_app.
    rewrite (transfer_inner_loop n lines i li _ _ Ei) by lia.
    destruct (connect_all _ g) as [g1| |]; cbn [bind]; try reflexivity.
    apply IH. lia.
Qed.

Lemma connect_transfers_trace n group g :
  connect_transfers (Str n) (frame_of group) g =
  connect_all (transfer_connections n group) g.
Proof.
  unfold connect_transfers, transfer_connections, frame_of.
  rewrite map_map. cbn [Line_cell frame_row_of].
  rewrite <- (map_map Line_col Str), !length_map.
  rewrite <- (length_map Line_col group).
  now rewrite transfer_outer_loop by lia.
Qed.

Lemma transfer_pass_trace groups : forall g,
  for_each (map (fun sg => (Str (fst sg), frame_of (snd sg))) groups)
    (fun sg => connect_transfers (fst sg) (snd sg)) g =
  connect_all
    (concat (map snd
       (map (fun sg => (fst sg, transfer_connections (fst sg) (snd sg))) groups))) g.
Proof.
  induction groups as [|[n grp] groups IH]; intros g.
  - reflexivity.
  - cbn [for_each map concat fst snd].
    rewrite connect_transfers_trace, connect_all_app.
    destruct (connect_all _ g) as [g1| |]; cbn [bind]; try reflexivity.
    apply IH.
Qed.

(** On the frame of a table of text [build_graph] registers every row,
    then makes the connections of the intra-line pass and those of the
    transfer pass, in this order. *)
Lemma build_graph_trace df rnd :
  build_graph (frame_of df) rnd =
  connect_all (concat (map snd (intra df rnd)) ++ concat (map snd (transfers df)))
              (stations_graph df).
Proof.
  unfold build_graph, intra, transfers.
  rewrite iterrows_text, register_text. fold (stations_graph df).
  rewrite (groupby_text Line_cell Line_col) by reflexivity.
  rewrite (groupby_text Station_cell Station_col) by reflexivity.
  destruct (intra_pass_trace (group_rows Line_col df) (stations_graph df) rnd)
    as [rnd' ->].
  rewrite connect_all_app.
  destruct (connect_all _ (stations_graph df)) as [g1| |]; cbn [bind fst];
    try reflexivity.
  apply transfer_pass_trace.
Qed.

(** ** Every connection of [build_graph] joins registered nodes *)

Lemma chain_in ids ws a b w :
  In (a, b, w) (chain ids ws) -> In a ids /\ In b ids /\ In w ws.
Proof.
  revert ws. induction ids as [|x ids IH]; intros ws H; [destruct H|].
  destruct ids as [|y ids]; [destruct H|].
  destruct ws as [|w0 ws]; [destruct H|].
  cbn [chain] in H. destruct H as [[= -> -> ->]|H].
  - simpl. auto.
  - apply IH in H. simpl in *. tauto.
Qed.

Lemma chain_length ids ws :
  length ws = (length ids - 1)%nat -> length (chain ids ws) = length ws.
Proof.
  revert ws. induction ids as [|x ids IH]; intros ws H.
  - destruct ws; [reflexivity | discriminate].
  - destruct ids as [|y ids].
    + destruct ws; [reflexivity | discriminate].
    + destruct ws as [|w0 ws]; [discriminate|].
      cbn [chain length]. f_equal. apply IH. simpl in *. lia.
Qed.

Lemma pairs_in {A : Type} (xs : list A) x y :
  In (x, y) (pairs xs) -> In x xs /\ In y xs.
Proof.
  induction xs as [|z xs IH]; simpl; [tauto|].
  rewrite in_app_iff, in_map_iff.
  intros [[y' [[= -> ->] Hy]]|H]; [auto|].
  apply IH in H. tauto.
Qed.

Lemma line_connections_admissible df g l rnd :
  bare_graph df g ->
  Forall (admissible g) (fst (line_connections l (rows_of_line df l) rnd)).
Proof.
  intros Hg. unfold line_connections.
  pose proof (draws_range (length (rows_of_line df l) - 1) rnd) as Hr.
  destruct (draws _ rnd) as [ws r1]. cbn [fst] in *.
  apply Forall_forall. intros [[a b] w] Hc.
  apply chain_in in Hc. destruct Hc as [Ha [Hb Hw]].
  assert (Hid : forall x, In x (line_ids l (rows_of_line df l)) ->
                          In x (dict_keys (nodes g))).
  { intros x Hx. unfold line_ids in Hx. apply in_map_iff in Hx.
    destruct Hx as [r [<- Hr']].
    apply (Permutation_in _ (sort_rows_perm _ _)) in Hr'.
    unfold rows_of_line in Hr'. apply filter_In in Hr'.
    destruct Hr' as [Hr' El]. apply String.eqb_eq in El. subst l.
    apply (bare_ids df g Hg). eauto. }
  rewrite Forall_forall in Hr.
  unfold admissible; cbn [fst snd]. auto.
Qed.

Lemma intra_connections_admissible df g : forall ks rnd,
  bare_graph df g ->
  Forall (admissible g)
    (concat (map snd
       (intra_connections (map (fun k => (k, rows_of_line df k)) ks) rnd))).
Proof.
  induction ks as [|k ks IH]; intros rnd Hg.
  - constructor.
  - cbn [map intra_connections].
    pose proof (line_connections_admissible df g k rnd Hg) as H1.
    destruct (line_connections k (rows_of_line df k) rnd) as [cs r1].
    cbn [map concat fst snd] in *.
    apply Forall_app. split; [assumption | now apply IH].
Qed.

Lemma transfer_connections_admissible df g n :
  bare_graph df g ->
  Forall (admissible g) (transfer_connections n (rows_of_station df n)).
Proof.
  intros Hg. apply Forall_forall. intros c Hc.
  unfold transfer_connections in Hc. apply in_map_iff in Hc.
  destruct Hc as [[l1 l2] [<- Hp]]. apply pairs_in in Hp.
  assert (Hid : forall l', In l' (map Line_col (rows_of_station df n)) ->
                           In (id (mkStation n l')) (dict_keys (nodes g))).
  { intros l' Hl. apply in_map_iff in Hl. destruct Hl as [r [<- Hr]].
    unfold rows_of_station in Hr. apply filter_In in Hr.
    destruct Hr as [Hr En]. apply String.eqb_eq in En. subst n.
    apply (bare_ids df g Hg). eauto. }
  unfold admissible; cbn [fst snd]. repeat split; try apply Hid; try tauto; lia.
Qed.

Lemma transfers_admissible df g :
  bare_graph df g ->
  Forall (admissible g) (concat (map snd (transfers df))).
Proof.
  intros Hg. unfold transfers, group_rows. rewrite !map_map. cbn [fst snd].
  induction (row_keys Station_col df) as [|k ks IH]; cbn [map concat].
  - constructor.
  - apply Forall_app. split; [|assumption].
    now apply transfer_connections_admissible.
Qed.

(** On the frame of a table of text [build_graph] never raises; its result
    is well formed, and its edges are exactly those of the connections
    made. *)
Lemma build_graph_done df rnd :
  exists g, build_graph (frame_of df) rnd = Done g /\ wf_graph g /\
    nodes g = nodes (stations_graph df) /\
    forall x y w, has_edge g x y w <->
      let cs := concat (map snd (intra df rnd)) ++ concat (map snd (transfers df)) in
      In (x, y, w) cs \/ In (y, x, w) cs.
Proof.
  pose proof (stations_graph_bare df) as Hb.
  rewrite build_graph_trace.
  destruct (connect_all_spec
              (concat (map snd (intra df rnd)) ++ concat (map snd (transfers df)))
              (stations_graph df)) as [g [E [Hwf [Hn He]]]].
  - eapply bare_graph_wf; eassumption.
  - apply Forall_app. split.
    + unfold intra, group_rows. now apply intra_connections_admissible.
    + now apply transfers_admissible.
  - exists g. split; [assumption|]. split; [assumption|]. split; [assumption|].
    intros x y w. cbv zeta. rewrite He. split.
    + intros [[adj [Hadj Hin]]|H]; [|exact H].
      apply (bare_adj df _ Hb) in Hadj. subst. destruct Hin.
    + intros H. right. exact H.
Qed.

(** ** The result of [build_graph] on any frame *)

Lemma for_each_preserves {A S : Type} (P : S -> Prop)
    (body : A -> S -> outcome S) :
  (forall x s s', P s -> body x s = Done s' -> P s') ->
  forall xs s s', P s -> for_each xs body s = Done s' -> P s'.
Proof.
  intros Hstep xs. induction xs as [|x xs IH]; intros s s' HP H; simpl in H.
  - injection H as <-. exact HP.
  - destruct (body x s) as [s1| |] eqn:E; simpl in H; try discriminate.
    eapply IH; [|exact H]. eapply Hstep; eassumption.
Qed.

Lemma registered_wf (frame : DataFrame) :
  wf_graph
    (fold_left (fun graph row =>
                  add_station graph (mkStation (str (Station_cell row))
                                               (str (Line_cell row))))
               frame empty_graph).
Proof.
  apply (bare_graph_wf (map text_of frame)).
  replace (fold_left _ frame empty_graph)
    with (stations_graph (map text_of frame)).
  - apply stations_graph_bare.
  - unfold stations_graph. generalize empty_graph.
    induction frame as [|r frame IH]; intros g; [reflexivity|]. simpl. apply IH.
Qed.

Lemma connect_pair_wf l stations i g rnd g' rnd' :
  wf_graph g -> connect_pair l stations i (g, rnd) = Done (g', rnd') ->
  wf_graph g'.
Proof.
  intros Hwf H. unfold connect_pair in H.
  destruct (nth_error stations i); [|discriminate].
  destruct (nth_error stations (S i)); [|discriminate].
  cbn [fst snd] in H.
  pose proof (randint_range 2 8 rnd ltac:(lia)) as Hr.
  destruct (randint 2 8 rnd) as [w r1]. cbn [fst] in Hr.
  destruct (add_connection g _ _ w) as [g1| |] eqn:E; simpl in H; try discriminate.
  injection H as <- _. eapply add_connection_wf; eassumption.
Qed.

Lemma connect_line_wf l group st st' :
  wf_graph (fst st) -> connect_line l group st = Done st' -> wf_graph (fst st').
Proof.
  unfold connect_line.
  apply (for_each_preserves (fun s => wf_graph (fst s))).
  intros i [g rnd] [g' rnd'] Hwf H. cbn [fst] in *.
  eapply connect_pair_wf; eassumption.
Qed.

Lemma connect_transfers_wf n group g g' :
  wf_graph g -> connect_transfers n group g = Done g' -> wf_graph g'.
Proof.
  unfold connect_transfers.
  apply (for_each_preserves wf_graph). intros i g1 g2 Hwf.
  apply (for_each_preserves wf_graph); [|exact Hwf].
  intros j g3 g4 Hwf3 H. unfold connect_transfer in H.
  destruct (nth_error _ i); [|discriminate].
  destruct (nth_error _ j); [|discriminate].
  eapply add_connection_wf; [exact Hwf3| |exact H]. lia.
Qed.

(** Whatever the frame holds, a graph that [build_graph] returns is well
    formed. *)
Lemma build_graph_wf frame rnd g : build_graph frame rnd = Done g -> wf_graph g.
Proof.
  unfold build_graph. intros H.
  destruct (for_each (groupby Line_cell frame) _ _) as [st| |] eqn:E1;
    simpl in H; try discriminate.
  assert (Hwf1 : wf_graph (fst st)).
  { revert E1. apply (for_each_preserves (fun s => wf_graph (fst s))).
    - intros lg s s'. apply connect_line_wf.
    - apply registered_wf. }
  revert H. apply (for_each_preserves wf_graph); [|exact Hwf1].
  intros sg g1 g2. apply connect_transfers_wf.
Qed.

(** ** Order of strings *)




(** ** [sort_rows] sorts *)






(** ** Rows of a line *)

Lemma row_eta r : mkRow (Station_col r) (Line_col r) = r.
Proof. now destruct r. Qed.



(** ** The connections of one line *)


Lemma intra_connections_in groups l grp : forall rnd,
  In (l, grp) groups ->
  exists rnd1, In (l, fst (line_connections l grp rnd1)) (intra_connections groups rnd).
Proof.
  induction groups as [|[l0 grp0] groups IH]; intros rnd H; [destruct H|].
  cbn [intra_connections].
  destruct (line_connections l0 grp0 rnd) as [cs r1] eqn:E.
  destruct H as [[= -> ->]|H].
  - exists rnd. rewrite E. left. reflexivity.
  - destruct (IH r1 H) as [rnd1 H1]. exists rnd1. right. exact H1.
Qed.








(** ** Pairs of lines *)

Lemma pairs_length {A : Type} (xs : list A) :
  (2 * length (pairs xs) = length xs * (length xs - 1))%nat.
Proof.
  induction xs as [|x xs IH]; simpl pairs; [reflexivity|].
  rewrite length_app, length_map. cbn [length]. nia.
Qed.

Lemma pairs_length_div {A : Type} (xs : list A) :
  length (pairs xs) = (length xs * (length xs - 1) / 2)%nat.
Proof.
  rewrite <- pairs_length, Nat.mul_comm, Nat.div_mul; [reflexivity | discriminate].
Qed.



Lemma pairs_complete {A : Type} (xs : list A) x y :
  In x xs -> In y xs -> x <> y -> In (x, y) (pairs xs) \/ In (y, x) (pairs xs).
Proof.
  induction xs as [|z xs IH]; simpl; intros Hx Hy Hne; [destruct Hx|].
  rewrite !in_app_iff, !in_map_iff.
  destruct Hx as [->|Hx], Hy as [->|Hy].
  - contradiction.
  - left. left. eauto.
  - right. left. eauto.
  - destruct (IH Hx Hy Hne); auto.
Qed.


Lemma rows_of_station_nonempty df n :
  In n (map Station_col df) <-> rows_of_station df n <> [].
Proof.
  unfold rows_of_station. split.
  - intros H E. apply in_map_iff in H. destruct H as [r [<- Hr]].
    assert (Hin : In r (filter (fun r' => String.eqb (Station_col r') (Station_col r)) df))
      by (apply filter_In; split; [assumption | apply String.eqb_refl]).
    rewrite E in Hin. destruct Hin.
  - intros H. destruct (filter _ df) as [|r rs] eqn:E; [contradiction|].
    assert (Hr : In r (filter (fun r => String.eqb (Station_col r) n) df))
      by (rewrite E; now left).
    apply filter_In in Hr. destruct Hr as [Hr En]. apply String.eqb_eq in En.
    apply in_map_iff. eauto.
Qed.

Lemma transfers_in df n :
  In n (map Station_col df) ->
  In (n, transfer_connections n (rows_of_station df n)) (transfers df).
Proof.
  intros H. unfold transfers. apply in_map_iff.
  exists (n, rows_of_station df n). split; [reflexivity|].
  apply group_rows_in. auto.
Qed.

Lemma transfer_connections_in n group l1 l2 w :
  In (id (mkStation n l1), id (mkStation n l2), w) (transfer_connections n group) <->
  w = 5 /\ In (l1, l2) (pairs (map Line_col group)).
Proof.
  unfold transfer_connections. rewrite in_map_iff. split.
  - intros [[a b] [[= Ea Eb <-] H]]. cbn [fst snd] in *.
    apply id_inj_line in Ea, Eb. subst. auto.
  - intros [-> H]. exists (l1, l2). auto.
Qed.


(** ** A row given twice *)







(** C3: in every graph produced by [build_graph] the edges are symmetric:
    when the adjacency list of [a] holds [(b, w)], the adjacency list of
    [b] holds [(a, w)], with the same weight. *)
Theorem edges_symmetric df rnd g a adj b w :
  build_graph df rnd = Done g ->
  dict_get (edges g) a = Some adj ->
  In (b, w) adj ->
  exists adj', dict_get (edges g) b = Some adj' /\ In (a, w) adj'.
Proof.
  intros Hg Ha Hin.
  apply build_graph_wf in Hg.
  destruct (wf_edge g Hg a b w) as [_ [_ H]].
  - exists adj. auto.
  - exact H.
Qed.

(** ** Candidates of a name *)

Lemma startswith_spec sid p :
  startswith sid p = true <-> exists rest, sid = (p ++ rest)%string.
Proof.
  unfold startswith. revert sid.
  induction p as [|c p IH]; intros sid; simpl.
  - split; [intros _; exists sid; reflexivity|].
    intros _. destruct sid; reflexivity.
  - destruct sid as [|c' sid]; simpl.
    + split; [discriminate | intros [rest H]; discriminate].
    + destruct (Ascii.ascii_dec c c') as [->|Hne].
      * rewrite IH. split; intros [rest H]; exists rest; congruence.
      * split; [discriminate | intros [rest H]; congruence].
Qed.

Lemma startswith_append sid p q :
  startswith p q = true -> startswith (p ++ sid)%string q = true.
Proof.
  rewrite !startswith_spec. intros [rest ->]. exists (rest ++ sid)%string.
  induction q; simpl; congruence.
Qed.

(** C7: the candidates of a name, for the start and for the end of both
    searches, are exactly the registered identifiers that begin with the
    name as a string; so a name that is a prefix of another station's name
    also selects the nodes of that other station. *)
Theorem candidates_by_prefix graph query :
  (forall sid,
     In sid (candidates graph query) <->
     In sid (dict_keys (nodes graph)) /\ exists rest, sid = (query ++ rest)%string) /\
  (forall fuel start_name end_name,
     find_shortest_path fuel graph start_name end_name =
     bfs_loop fuel graph (candidates graph end_name)
       (fold_left bfs_seed (candidates graph start_name)
          {| visited := []; parent := []; queue := [] |}) /\
     find_fastest_path fuel graph start_name end_name =
     dijkstra_loop fuel graph (candidates graph end_name)
       (fold_left dijkstra_seed (candidates graph start_name)
          {| distances := map (fun sid => (sid, Inf)) (dict_keys (nodes graph));
             previous := []; heap := [] |})) /\
  (forall other l,
     startswith other query = true ->
     In (id (mkStation other l)) (dict_keys (nodes graph)) ->
     In (id (mkStation other l)) (candidates graph query)).
Proof.
  split; [|split].
  - intros sid. unfold candidates. rewrite filter_In, startswith_spec. tauto.
  - intros fuel start_name end_name. split; reflexivity.
  - intros other l Hp Hin. unfold candidates. apply filter_In.
    split; [assumption|]. unfold id; cbn [name line].
    now apply startswith_append.
Qed.

(** ** Paths *)

Lemma total_app ws1 ws2 : total (ws1 ++ ws2) = total ws1 + total ws2.
Proof.
  unfold total. induction ws1 as [|w ws1 IH]; simpl; lia.
Qed.

Lemma total_map_hops ws : total (map hops ws) = Z.of_nat (length ws).
Proof.
  unfold total, hops. induction ws as [|w ws IH]; simpl length; simpl map;
    cbn [fold_right]; lia.
Qed.

Lemma total_map_minutes ws : total (map minutes ws) = total ws.
Proof.
  unfold minutes. now rewrite map_id.
Qed.

Lemma joins_snoc g q u n ws t :
  joins g (q ++ [u]) ws -> has_edge g u n t ->
  joins g ((q ++ [u]) ++ [n]) (ws ++ [t]).
Proof.
  revert ws. induction q as [|a q IH]; intros ws H He.
  - destruct ws; [|destruct H]. simpl. auto.
  - change ((a :: q) ++ [u]) with (a :: (q ++ [u])) in *.
    destruct (q ++ [u]) as [|b l] eqn:E; [destruct q; discriminate|].
    destruct ws as [|w ws]; [destruct H|].
    destruct H as [Hab H].
    change (joins g (a :: ((b :: l) ++ [n])) ((w :: ws) ++ [t])).
    cbn [app joins]. split; [assumption|].
    apply (IH ws H He).
Qed.

Lemma reach_nonneg g cost starts n W :
  (forall a b t, has_edge g a b t -> 0 <= cost t) ->
  reach g cost starts n W -> 0 <= W.
Proof.
  intros Hc. induction 1 as [|a b t W _ IH He]; [lia|].
  specialize (Hc _ _ _ He). lia.
Qed.

(** Every reachable node is the end of a path from a start. *)
Lemma reach_route g cost starts e W :
  reach g cost starts e W ->
  exists q ws, joins g (q ++ [e]) ws /\
    (exists s, hd_error (q ++ [e]) = Some s /\ In s starts) /\
    total (map cost ws) = W.
Proof.
  induction 1 as [s Hs|a b t W _ [q [ws [Hj [Hs HW]]]] He].
  - exists [], []. simpl. eauto.
  - exists (q ++ [a]), (ws ++ [t]). split; [|split].
    + now apply joins_snoc.
    + destruct Hs as [s [Hhd Hs]]. exists s. split; [|assumption].
      destruct q; simpl in *; assumption.
    + rewrite map_app, total_app, HW. unfold total. simpl. lia.
Qed.

Lemma joins_reach g cost starts : forall p a ws W,
  reach g cost starts a W ->
  joins g (a :: p) ws ->
  exists e, hd_error (rev (a :: p)) = Some e /\
            reach g cost starts e (W + total (map cost ws)).
Proof.
  induction p as [|b p IH]; intros a ws W Hr Hj.
  - destruct ws; [|destruct Hj]. exists a. simpl. unfold total. simpl.
    rewrite Z.add_0_r. auto.
  - destruct ws as [|w ws]; [destruct Hj|]. destruct Hj as [Hab Hj].
    destruct (IH b ws (W + cost w) (reach_step g cost starts a b w W Hr Hab) Hj)
      as [e [He Hre]].
    exists e. split.
    + change (a :: b :: p) with ([a] ++ (b :: p)). rewrite rev_app_distr.
      destruct (rev (b :: p)); [discriminate | exact He].
    + cbn [map]. unfold total in *. cbn [fold_right].
      replace (W + (cost w + fold_right Z.add 0 (map cost ws)))
        with (W + cost w + fold_right Z.add 0 (map cost ws)) by lia.
      exact Hre.
Qed.

(** The end of a route is reachable at the cost of the route. *)
Lemma route_reach g cost starts ends p ws :
  route g starts ends p ws ->
  exists e, In e ends /\ reach g cost starts e (total (map cost ws)).
Proof.
  intros [Hj [[s [Hhd Hs]] [e [Hlast He]]]].
  destruct p as [|a p]; [discriminate|]. injection Hhd as ->.
  destruct (joins_reach g cost starts p s ws 0 (reach_start g cost starts s Hs) Hj)
    as [e' [He' Hr]].
  rewrite Hlast in He'. injection He' as <-.
  exists e. auto.
Qed.

(** ** The first unsettled node of a path

    The argument shared by the two searches.  Nodes carry labels; the
    settled nodes have labels no greater than the cost of any path to them,
    and every edge out of a settled node has been relaxed.  Then every path
    from a start to an unsettled node goes through an unsettled node whose
    label is no greater than the cost of the path. *)

Section FirstUnsettled.
Variable g : Graph.
Variable cost : Z -> Z.
Variable starts : list string.
Variable settled : list string.
Variable label : string -> option Z.

Hypothesis cost_nonneg : forall a b t, has_edge g a b t -> 0 <= cost t.
Hypothesis starts_zero :
  forall s, In s starts -> exists x, label s = Some x /\ x <= 0.
Hypothesis settled_min :
  forall n W, In n settled -> reach g cost starts n W ->
              exists x, label n = Some x /\ x <= W.
Hypothesis settled_relaxed :
  forall n m t x, In n settled -> has_edge g n m t -> label n = Some x ->
                  exists y, label m = Some y /\ y <= x + cost t.

Lemma first_unsettled n W :
  reach g cost starts n W ->
  In n settled \/
  exists v y, ~ In v settled /\ label v = Some y /\ y <= W.
Proof.
  induction 1 as [s Hs|a b t W Hr IH He].
  - destruct (in_dec string_dec s settled) as [?|Hout]; [now left|].
    right. destruct (starts_zero s Hs) as [x [Hx Hle]]. eauto.
  - pose proof (cost_nonneg _ _ _ He) as Hc.
    destruct IH as [Ha|[v [y [Hv [Hy Hle]]]]].
    + destruct (settled_min a W Ha Hr) as [x [Hx Hxle]].
      destruct (settled_relaxed a b t x Ha He Hx) as [y [Hy Hyle]].
      destruct (in_dec string_dec b settled) as [?|Hout]; [now left|].
      right. exists b, y. repeat split; auto. lia.
    + right. exists v, y. repeat split; auto. lia.
Qed.
End FirstUnsettled.

(** ** Breadth-first search *)

Lemma upd_same dep m v : upd dep m v m = v.
Proof. unfold upd. now rewrite String.eqb_refl. Qed.

Lemma upd_other dep m v n : n <> m -> upd dep m v n = dep n.
Proof. unfold upd. intros H. now destruct (String.eqb_spec n m). Qed.

Lemma strongly_sorted_snoc {A : Type} (R : A -> A -> Prop) l a :
  StronglySorted R l -> (forall x, In x l -> R x a) -> StronglySorted R (l ++ [a]).
Proof.
  induction 1 as [|x l Hs IH Hall]; intros Ha; simpl.
  - repeat constructor.
  - constructor.
    + apply IH. intros y Hy. apply Ha. now right.
    + apply Forall_app. split; [assumption|].
      constructor; [|constructor]. apply Ha. now left.
Qed.

Lemma strongly_sorted_ext {A : Type} (R R' : A -> A -> Prop) l :
  (forall x y, In x l -> In y l -> R x y -> R' x y) ->
  StronglySorted R l -> StronglySorted R' l.
Proof.
  intros Hext H. induction H as [|x l Hs IH Hall].
  - constructor.
  - constructor.
    + apply IH. intros; apply Hext; simpl; auto.
    + rewrite Forall_forall in *. intros y Hy.
      apply Hext; simpl; auto.
Qed.

Section BfsProof.
Variable g : Graph.
Variables starts ends : list string.
Hypothesis Hwf : wf_graph g.

Lemma hops_nonneg : forall a b t, has_edge g a b t -> 0 <= hops t.
Proof. intros. unfold hops. lia. Qed.

(** One turn of the inner loop. *)
Lemma bfs_visit_inv settled dep lo cur m t pending st :
  bfs_inv g starts ends settled dep lo cur ((m, t) :: pending) st ->
  exists dep',
    bfs_inv g starts ends settled dep' lo cur pending (bfs_visit cur st (m, t)) /\
    (length (visited (bfs_visit cur st (m, t))) + length (queue st) =
     length (visited st) + length (queue (bfs_visit cur st (m, t))))%nat.
Proof.
  intros [Hst Hk Hnv Hset Hfr Hq Hnq Hmin Hrel Hre Hsort Hband Hcur Hpend Hpar Hends].
  destruct (Hcur ltac:(discriminate)) as [HcurS Hlo].
  pose proof (Hpend m t (or_introl eq_refl)) as Hedge.
  assert (Hstep : reach g hops starts m (dep cur + 1)).
  { change (dep cur + 1) with (dep cur + hops t).
    eapply reach_step; [apply Hre, Hset, HcurS | exact Hedge]. }
  unfold bfs_visit; cbn [fst].
  destruct (mem m (visited st)) eqn:Em.
  - apply mem_in in Em. exists dep. split; [|lia].
    constructor; auto.
    + intros n m' t' Hn He.
      destruct (Hrel n m' t' Hn He) as [[-> [[= <- <-]|Hin]]|H];
        [|left; split; [reflexivity | assumption] | right; assumption].
      right. split; [assumption|].
      destruct (Hfr m Em) as [HmS|HmQ].
      * now apply Hmin.
      * pose proof (Hband m HmQ). lia.
    + intros m' t' Hin. apply Hpend. now right.
  - apply mem_not_in in Em.
    assert (HmS : ~ In m settled) by (intros H; apply Em, Hset, H).
    assert (HmQ : ~ In m (queue st)) by (intros H; apply Em, (Hq m H)).
    assert (Hcm : cur <> m) by (intros ->; contradiction).
    assert (Hdep : forall n, In n (visited st) -> upd dep m (lo + 1) n = dep n).
    { intros n Hn. apply upd_other. intros ->. contradiction. }
    exists (upd dep m (lo + 1)). split; [|cbn [visited queue]; rewrite length_app; simpl; lia].
    constructor; cbn [visited parent queue].
    + intros s Hs. destruct (Hst s Hs) as [H1 H2].
      split; [now right|]. now rewrite Hdep.
    + intros n [<-|Hn]; [|auto].
      now destruct (wf_edge g Hwf cur m t Hedge).
    + now constructor.
    + intros n Hn. right. auto.
    + intros n [<-|Hn].
      * right. apply in_or_app. right. now left.
      * destruct (Hfr n Hn); [now left|]. right. apply in_or_app. now left.
    + intros n Hn. apply in_app_or in Hn. destruct Hn as [Hn|[<-|[]]].
      * destruct (Hq n Hn). split; [now right | assumption].
      * split; [now left | assumption].
    + apply NoDup_app; [assumption | repeat constructor; simpl; tauto |].
      intros x Hx [<-|[]]. contradiction.
    + intros n W Hn Hr. rewrite Hdep by auto. now apply Hmin.
    + intros n m' t' Hn He.
      rewrite (Hdep n) by auto.
      destruct (Hrel n m' t' Hn He) as [[-> [[= <- <-]|Hin]]|[H1 H2]].
      * right. split; [now left|]. rewrite upd_same. lia.
      * left. auto.
      * right. split; [now right|]. now rewrite Hdep.
    + intros n [<-|Hn].
      * rewrite upd_same. rewrite <- Hlo. exact Hstep.
      * rewrite Hdep by assumption. auto.
    + apply strongly_sorted_snoc.
      * eapply strongly_sorted_ext; [|exact Hsort].
        intros x y Hx Hy. rewrite !Hdep by (apply Hq; assumption). auto.
      * intros x Hx. rewrite upd_same, Hdep by (apply Hq; assumption).
        pose proof (Hband x Hx). lia.
    + intros q Hq'. apply in_app_or in Hq'. destruct Hq' as [Hq'|[<-|[]]].
      * rewrite Hdep by (apply Hq; assumption). auto.
      * rewrite upd_same. lia.
    + intros _. split; [assumption|]. rewrite upd_other; assumption.
    + intros m' t' Hin. apply Hpend. now right.
    + intros n [<-|Hn].
      * right. exists cur, t. rewrite dict_get_set_same.
        repeat split; auto.
        -- right. auto.
        -- rewrite upd_same, Hdep by auto. lia.
      * rewrite dict_get_set_other by (intros ->; contradiction).
        rewrite Hdep by assumption.
        destruct (Hpar n Hn) as [H|[u [t' [H1 [H2 [H3 H4]]]]]]; [now left|].
        right. exists u, t'. rewrite Hdep by assumption.
        repeat split; auto. now right.
    + assumption.
Qed.

(** The whole inner loop. *)
Lemma bfs_expand_inv settled lo cur : forall pending dep st,
  bfs_inv g starts ends settled dep lo cur pending st ->
  exists dep',
    bfs_inv g starts ends settled dep' lo cur []
      (fold_left (bfs_visit cur) pending st) /\
    (length (visited (fold_left (bfs_visit cur) pending st)) + length (queue st) =
     length (visited st) +
     length (queue (fold_left (bfs_visit cur) pending st)))%nat.
Proof.
  induction pending as [|[m t] pending IH]; intros dep st H.
  - exists dep. split; [assumption | reflexivity].
  - destruct (bfs_visit_inv _ _ _ _ _ _ _ _ H) as [dep1 [H1 L1]].
    destruct (IH dep1 _ H1) as [dep2 [H2 L2]].
    exists dep2. split; [exact H2|]. cbn [fold_left]. lia.
Qed.

(** At the head of the loop, a path from a start to a node that is not
    settled passes through a queued node that is at most as deep as the
    path is long. *)
Lemma bfs_unsettled settled dep lo cur st n W :
  bfs_inv g starts ends settled dep lo cur [] st ->
  reach g hops starts n W -> ~ In n settled ->
  exists v, In v (queue st) /\ dep v <= W.
Proof.
  intros [Hst Hk Hnv Hset Hfr Hq Hnq Hmin Hrel Hre Hsort Hband Hcur Hpend Hpar Hends]
         Hr Hn.
  destruct (first_unsettled g hops starts settled
              (fun v => if mem v (visited st) then Some (dep v) else None)
              hops_nonneg) with (n := n) (W := W) as [H|[v [y [Hv [Hy Hle]]]]].
  - intros s Hs. destruct (Hst s Hs) as [H1 H2].
    apply mem_in in H1. rewrite H1. eauto.
  - intros x W' Hx Hr'. pose proof (Hset x Hx) as H1.
    apply mem_in in H1. rewrite H1. eauto.
  - intros x m t d Hx He Hd.
    pose proof (Hset x Hx) as H1. apply mem_in in H1. rewrite H1 in Hd.
    injection Hd as <-.
    destruct (Hrel x m t Hx He) as [[_ []]|[H2 H3]].
    apply mem_in in H2. rewrite H2. unfold hops. eauto.
  - exact Hr.
  - contradiction.
  - destruct (mem v (visited st)) eqn:Em; [|discriminate].
    injection Hy as <-. apply mem_in in Em.
    destruct (Hfr v Em); [contradiction|]. eauto.
Qed.

(** Dequeuing a node that is not an end and starting on its edges. *)
Lemma bfs_pop_inv settled dep lo cur st c rest adj :
  bfs_inv g starts ends settled dep lo cur [] st ->
  queue st = c :: rest ->
  ~ In c ends ->
  dict_get (edges g) c = Some adj ->
  bfs_inv g starts ends (c :: settled) dep (dep c) c adj
    {| visited := visited st; parent := parent st; queue := rest |}.
Proof.
  intros Hinv HQ Hc Hadj.
  pose proof (fun n W Hr Hn => bfs_unsettled _ _ _ _ _ n W Hinv Hr Hn) as Hun.
  destruct Hinv as
    [Hst Hk Hnv Hset Hfr Hq Hnq Hmin Hrel Hre Hsort Hband Hcur Hpend Hpar Hends].
  rewrite HQ in *.
  inversion Hnq as [|? ? Hcrest Hnrest]; subst.
  inversion Hsort as [|? ? Hsrest Hall]; subst.
  rewrite Forall_forall in Hall.
  destruct (Hq c (or_introl eq_refl)) as [HcV HcS].
  constructor; cbn [visited parent queue]; auto.
  - intros n [<-|Hn]; auto.
  - intros n Hn. destruct (Hfr n Hn) as [H|[<-|H]]; simpl; auto.
  - intros n Hn. destruct (Hq n (or_intror Hn)) as [H1 H2].
    split; [assumption|]. intros [<-|H]; contradiction.
  - intros n W [<-|Hn] Hr; [|now apply Hmin].
    destruct (Hun c W Hr HcS) as [v [[<-|Hv] Hle]]; [assumption|].
    specialize (Hall v Hv). simpl in Hall. lia.
  - intros n m t [<-|Hn] He.
    + left. split; [reflexivity|].
      destruct He as [adj' [E Hin]]. congruence.
    + destruct (Hrel n m t Hn He) as [[_ []]|H]. now right.
  - intros q Hq'. specialize (Hall q Hq'). simpl in Hall.
    pose proof (Hband q (or_intror Hq')). pose proof (Hband c (or_introl eq_refl)).
    lia.
  - intros _. split; [now left | reflexivity].
  - intros m t Hin. exists adj. auto.
  - intros n [<-|Hn]; auto.
Qed.
End BfsProof.

(** ** Walking back along the parents *)

Lemma walk_back_none fuel lookup acc : walk_back fuel lookup None acc = Done acc.
Proof. destruct fuel; reflexivity. Qed.

Lemma walk_back_step fuel lookup n acc :
  n <> "" ->
  walk_back (S fuel) lookup (Some n) acc =
  (next <- lookup n ;; walk_back fuel lookup next (acc ++ [n])).
Proof. destruct n; [contradiction | reflexivity]. Qed.

Lemma walk_back_zero lookup n acc :
  n <> "" -> walk_back 0 lookup (Some n) acc = OutOfFuel.
Proof. destruct n; [contradiction | reflexivity]. Qed.

Lemma joins_length g p ws : joins g p ws -> length p = S (length ws).
Proof.
  revert ws. induction p as [|a p IH]; intros ws H; [destruct H|].
  destruct p as [|b p].
  - destruct ws; [reflexivity | destruct H].
  - destruct ws as [|w ws]; [destruct H|]. destruct H as [_ H].
    simpl. f_equal. apply (IH ws H).
Qed.

Section BfsLoop.
Variable g : Graph.
Variables starts ends : list string.
Hypothesis Hwf : wf_graph g.

(** The path rebuilt from a visited node: it leads from a start to the
    node along edges of the graph and has as many edges as the node is
    deep. *)
Lemma bfs_walk_back settled dep lo cur pending st :
  bfs_inv g starts ends settled dep lo cur pending st ->
  forall fuel n acc, In n (visited st) ->
  match walk_back fuel (parent_lookup (parent st)) (Some n) acc with
  | Done p => exists q ws,
      p = acc ++ rev (q ++ [n]) /\ joins g (q ++ [n]) ws /\
      (exists s, hd_error (q ++ [n]) = Some s /\ In s starts) /\
      Z.of_nat (length ws) = dep n
  | KeyError => False
  | OutOfFuel => Z.of_nat fuel <= dep n
  end.
Proof.
  intros Hinv.
  induction fuel as [|fuel IH]; intros n acc Hn.
  - rewrite walk_back_zero
      by (apply (wf_nonempty g Hwf), (bi_keys _ _ _ _ _ _ _ _ _ Hinv), Hn).
    apply (reach_nonneg g hops starts n); [unfold hops; lia|].
    apply (bi_reach _ _ _ _ _ _ _ _ _ Hinv), Hn.
  - rewrite walk_back_step
      by (apply (wf_nonempty g Hwf), (bi_keys _ _ _ _ _ _ _ _ _ Hinv), Hn).
    unfold parent_lookup at 1.
    destruct (bi_parent _ _ _ _ _ _ _ _ _ Hinv n Hn)
      as [[E [Hs Hd]]|[u [t [E [Hu [He Hd]]]]]]; rewrite E; cbn [bind].
    + rewrite walk_back_none. exists [], []. simpl. rewrite Hd.
      split; [reflexivity|]. split; [exact I|]. split; [eauto | reflexivity].
    + specialize (IH u (acc ++ [n]) Hu).
      destruct (walk_back fuel _ (Some u) (acc ++ [n])) as [p| |].
      * destruct IH as [q [ws [-> [Hj [[s [Hhd Hs]] Hlen]]]]].
        exists (q ++ [u]), (ws ++ [t]). split; [|split; [|split]].
        -- rewrite (rev_app_distr (q ++ [u]) [n]). simpl.
           now rewrite <- app_assoc.
        -- now apply joins_snoc.
        -- exists s. split; [|assumption]. destruct q; simpl in *; assumption.
        -- rewrite length_app. simpl. lia.
      * assumption.
      * lia.
Qed.

Lemma hd_sorted_min dep (c : string) rest v :
  StronglySorted (fun a b => dep a <= dep b) (c :: rest) ->
  In v (c :: rest) -> dep c <= dep v.
Proof.
  intros Hs [<-|Hv]; [lia|].
  inversion Hs as [|? ? _ Hall]; subst.
  rewrite Forall_forall in Hall. now apply Hall.
Qed.

(** The outcome of the loop from a state that satisfies the invariant. *)
Lemma bfs_loop_spec : forall fuel settled dep lo cur st,
  bfs_inv g starts ends settled dep lo cur [] st ->
  match bfs_loop fuel g ends st with
  | Done None => forall e W, In e ends -> ~ reach g hops starts e W
  | Done (Some p) => exists ws,
      route g starts ends p ws /\
      forall e W, In e ends -> reach g hops starts e W -> Z.of_nat (length ws) <= W
  | KeyError => False
  | OutOfFuel =>
      (fuel < bfs_measure g st)%nat \/
      exists d, Z.of_nat fuel <= Z.of_nat (bfs_measure g st) + d /\
                (exists e, In e ends /\ reach g hops starts e d) /\
                forall e W, In e ends -> reach g hops starts e W -> d <= W
  end.
Proof.
  induction fuel as [|fuel IH]; intros settled dep lo cur st Hinv;
    destruct (queue st) as [|c rest] eqn:HQ.
  - simpl. rewrite HQ. intros e W He Hr.
    destruct (bfs_unsettled g starts ends settled dep lo cur st e W Hinv Hr)
      as [v [Hv _]].
    + intros Hs; exact (bi_ends _ _ _ _ _ _ _ _ _ Hinv e Hs He).
    + rewrite HQ in Hv. destruct Hv.
  - simpl. rewrite HQ. left. unfold bfs_measure. rewrite HQ. simpl. lia.
  - simpl. rewrite HQ. intros e W He Hr.
    destruct (bfs_unsettled g starts ends settled dep lo cur st e W Hinv Hr)
      as [v [Hv _]].
    + intros Hs; exact (bi_ends _ _ _ _ _ _ _ _ _ Hinv e Hs He).
    + rewrite HQ in Hv. destruct Hv.
  - cbn [bfs_loop]. rewrite HQ.
    assert (HcQ : In c (queue st)) by (rewrite HQ; now left).
    destruct (bi_queue _ _ _ _ _ _ _ _ _ Hinv c HcQ) as [HcV HcS].
    assert (Hbest : forall e W, In e ends -> reach g hops starts e W -> dep c <= W).
    { intros e W He Hr.
      destruct (bfs_unsettled g starts ends settled dep lo cur st e W Hinv Hr)
        as [v [Hv Hle]].
      - intros Hs; exact (bi_ends _ _ _ _ _ _ _ _ _ Hinv e Hs He).
      - pose proof (bi_sorted _ _ _ _ _ _ _ _ _ Hinv) as Hs.
        rewrite HQ in Hs, Hv. pose proof (hd_sorted_min dep c rest v Hs Hv). lia. }
    destruct (mem c ends) eqn:Eend.
    + apply mem_in in Eend.
      pose proof (bfs_walk_back settled dep lo cur [] st Hinv fuel c [] HcV) as Hwb.
      destruct (walk_back fuel _ (Some c) []) as [p| |]; cbn [bind].
      * destruct Hwb as [q [ws [-> [Hj [Hs Hlen]]]]]. exists ws.
        rewrite app_nil_l, rev_involutive. split.
        -- split; [assumption|]. split; [assumption|].
           exists c. rewrite rev_app_distr. simpl. auto.
        -- intros e W He Hr. rewrite Hlen. eauto.
      * assumption.
      * right. exists (dep c). split; [|split; [|exact Hbest]].
        -- unfold bfs_measure. rewrite HQ. simpl length. lia.
        -- exists c. split; [assumption|].
           now apply (bi_reach _ _ _ _ _ _ _ _ _ Hinv).
    + apply mem_not_in in Eend.
      assert (Hkey : In c (dict_keys (edges g))).
      { rewrite (wf_keys g Hwf). now apply (bi_keys _ _ _ _ _ _ _ _ _ Hinv). }
      apply dict_get_in_keys in Hkey. destruct Hkey as [adj Hadj]. rewrite Hadj.
      pose proof (bfs_pop_inv g starts ends settled dep lo cur st c rest adj
                    Hinv HQ Eend Hadj) as Hpop.
      destruct (bfs_expand_inv g starts ends Hwf (c :: settled) (dep c) c adj dep _ Hpop)
        as [dep' [Hinv' Hlen]].
      cbn [visited queue] in Hlen.
      set (st' := fold_left (bfs_visit c) adj
                    {| visited := visited st; parent := parent st; queue := rest |})
        in *.
      assert (Hmeasure : (S (bfs_measure g st') = bfs_measure g st)%nat).
      { unfold bfs_measure. rewrite HQ. simpl length.
        assert (length (visited st') <= length (dict_keys (nodes g)))%nat.
        { apply NoDup_incl_length.
          - apply (bi_nodup_visited _ _ _ _ _ _ _ _ _ Hinv').
          - intros x. apply (bi_keys _ _ _ _ _ _ _ _ _ Hinv'). }
        assert (length (visited st) <= length (dict_keys (nodes g)))%nat.
        { apply NoDup_incl_length.
          - apply (bi_nodup_visited _ _ _ _ _ _ _ _ _ Hinv).
          - intros x. apply (bi_keys _ _ _ _ _ _ _ _ _ Hinv). }
        lia. }
      specialize (IH (c :: settled) dep' (dep c) c st' Hinv').
      destruct (bfs_loop fuel g ends st') as [[p|]| |]; auto.
      destruct IH as [IH|[d [Hd Hmin]]].
      * left. lia.
      * right. exists d. split; [lia | assumption].
Qed.
End BfsLoop.

(** ** The state seeded with the start candidates *)

Lemma bfs_seed_fold : forall l st,
  visited (fold_left bfs_seed l st) = rev l ++ visited st /\
  queue (fold_left bfs_seed l st) = queue st ++ l /\
  forall n, dict_get (parent (fold_left bfs_seed l st)) n =
            if mem n l then Some None else dict_get (parent st) n.
Proof.
  induction l as [|s l IH]; intros st.
  - simpl. rewrite app_nil_r. auto.
  - cbn [fold_left]. destruct (IH (bfs_seed st s)) as [E1 [E2 E3]].
    rewrite E1, E2. cbn [bfs_seed visited queue parent].
    split; [|split].
    + simpl. now rewrite <- app_assoc.
    + now rewrite <- app_assoc.
    + intros n. rewrite E3. cbn [bfs_seed parent]. rewrite dict_get_set.
      unfold mem. cbn [existsb]. rewrite (String.eqb_sym n s).
      destruct (existsb (String.eqb n) l); [now rewrite orb_true_r|].
      destruct (String.eqb s n); reflexivity.
Qed.

Lemma strongly_sorted_total {A : Type} (R : A -> A -> Prop) l :
  (forall x y, R x y) -> StronglySorted R l.
Proof.
  intros H. induction l; constructor; auto.
  apply Forall_forall. auto.
Qed.

Lemma candidates_nodup g n : wf_graph g -> NoDup (candidates g n).
Proof. intros H. apply NoDup_filter, (wf_nodup g H). Qed.

Lemma candidates_keys g n x :
  In x (candidates g n) -> In x (dict_keys (nodes g)).
Proof. unfold candidates. rewrite filter_In. tauto. Qed.

Lemma bfs_init_inv g starts ends :
  NoDup starts -> (forall s, In s starts -> In s (dict_keys (nodes g))) ->
  bfs_inv g starts ends [] (fun _ => 0) 0 "" []
    (fold_left bfs_seed starts {| visited := []; parent := []; queue := [] |}).
Proof.
  intros Hnd Hk.
  destruct (bfs_seed_fold starts {| visited := []; parent := []; queue := [] |})
    as [E1 [E2 E3]].
  cbn [visited queue parent] in *. rewrite app_nil_r in E1.
  constructor; rewrite ?E1, ?E2; cbn [app]; try (intros; contradiction).
  - intros s Hs. split; [now apply in_rev in Hs | lia].
  - intros n Hn. apply in_rev in Hn. auto.
  - apply NoDup_rev. assumption.
  - intros n Hn. apply in_rev in Hn. now right.
  - intros n Hn. split; [now apply in_rev in Hn | tauto].
  - assumption.
  - intros n Hn. apply in_rev in Hn. now constructor.
  - apply strongly_sorted_total. intros. lia.
  - intros. lia.
  - intros n Hn. apply in_rev in Hn. left. rewrite E3.
    pose proof (proj2 (mem_in n starts) Hn) as ->. auto.
Qed.

Lemma bfs_init_measure g starts :
  NoDup starts -> (forall s, In s starts -> In s (dict_keys (nodes g))) ->
  bfs_measure g
    (fold_left bfs_seed starts {| visited := []; parent := []; queue := [] |})
  = length (nodes g).
Proof.
  intros Hnd Hk.
  destruct (bfs_seed_fold starts {| visited := []; parent := []; queue := [] |})
    as [E1 [E2 _]].
  unfold bfs_measure. rewrite E1, E2. cbn [visited queue app].
  rewrite app_nil_r, length_rev.
  assert (length starts <= length (dict_keys (nodes g)))%nat
    by (apply NoDup_incl_length; [assumption | exact Hk]).
  unfold dict_keys in *. rewrite length_map in *. lia.
Qed.

(** The outcome of [find_shortest_path] on a well-formed graph. *)
Lemma find_shortest_path_spec fuel g start_name end_name :
  wf_graph g ->
  let starts := candidates g start_name in
  let ends := candidates g end_name in
  match find_shortest_path fuel g start_name end_name with
  | Done None => forall e W, In e ends -> ~ reach g hops starts e W
  | Done (Some p) => exists ws,
      route g starts ends p ws /\
      forall e W, In e ends -> reach g hops starts e W -> Z.of_nat (length ws) <= W
  | KeyError => False
  | OutOfFuel =>
      (fuel < length (nodes g))%nat \/
      exists d, Z.of_nat fuel <= Z.of_nat (length (nodes g)) + d /\
                (exists e, In e ends /\ reach g hops starts e d) /\
                forall e W, In e ends -> reach g hops starts e W -> d <= W
  end.
Proof.
  intros Hwf starts ends. unfold find_shortest_path. fold starts. fold ends.
  rewrite <- (bfs_init_measure g starts)
    by (try apply candidates_nodup; try apply candidates_keys; assumption).
  eapply bfs_loop_spec; [assumption|].
  apply bfs_init_inv.
  - now apply candidates_nodup.
  - apply candidates_keys.
Qed.

(** C1: when [find_shortest_path] returns a path on a built graph, the
    path starts at a start candidate, ends at an end candidate, each of its
    nodes is joined to the next by an edge of the graph, and no path of the
    graph from a start candidate to an end candidate has fewer edges. *)
Theorem shortest_path_minimal df rnd g fuel start_name end_name path :
  build_graph df rnd = Done g ->
  find_shortest_path fuel g start_name end_name = Done (Some path) ->
  let starts := candidates g start_name in
  let ends := candidates g end_name in
  exists ws,
    route g starts ends path ws /\
    length path = S (length ws) /\
    forall path' ws', route g starts ends path' ws' ->
      (length ws <= length ws')%nat /\ (length path <= length path')%nat.
Proof.
  intros Hg Hfind starts ends.
  pose proof (find_shortest_path_spec fuel g start_name end_name
                (build_graph_wf df rnd g Hg)) as H.
  rewrite Hfind in H. cbv zeta in H. fold starts ends in H.
  destruct H as [ws [Hroute Hmin]].
  exists ws. split; [assumption|].
  pose proof (joins_length g path ws (proj1 Hroute)) as Hlen.
  split; [assumption|].
  intros path' ws' Hroute'.
  destruct (route_reach g hops starts ends path' ws' Hroute') as [e [He Hr]].
  specialize (Hmin e _ He Hr). rewrite total_map_hops in Hmin.
  pose proof (joins_length g path' ws' (proj1 Hroute')).
  lia.
Qed.

(** ** The priority queue *)

Lemma heappop_none q : heappop q = None -> q = [].
Proof.
  destruct q as [|x q]; [reflexivity|]. simpl.
  destruct (heappop q) as [[m r]|]; [|discriminate].
  destruct (entry_leb x m); discriminate.
Qed.

(** [heappop] hands out an entry of the least distance and keeps the rest. *)
Lemma heappop_spec : forall q m r,
  heappop q = Some (m, r) ->
  Permutation q (m :: r) /\ forall x, In x q -> fst m <= fst x.
Proof.
  induction q as [|x q IH]; intros m r H; [discriminate|].
  simpl in H. destruct (heappop q) as [[m' r']|] eqn:E.
  - destruct (IH m' r' eq_refl) as [Hp Hmin].
    destruct (entry_leb x m') eqn:El; injection H as <- <-.
    + split; [reflexivity|].
      intros y [<-|Hy]; [lia|].
      specialize (Hmin y Hy). unfold entry_leb in El.
      apply orb_true_iff in El. destruct El as [El|El].
      * apply Z.ltb_lt in El. lia.
      * apply andb_true_iff in El. destruct El as [El _].
        apply Z.eqb_eq in El. lia.
    + split.
      * rewrite Hp. apply perm_swap.
      * intros y [<-|Hy]; [|auto].
        unfold entry_leb in El. apply orb_false_iff in El.
        destruct El as [El _]. apply Z.ltb_ge in El. exact El.
  - injection H as <- <-. apply heappop_none in E. subst q.
    split; [reflexivity|]. intros y [<-|[]]. lia.
Qed.

Lemma for_each_noop {A S : Type} (xs : list A) (body : A -> S -> outcome S) s :
  (forall x, In x xs -> body x s = Done s) -> for_each xs body s = Done s.
Proof.
  induction xs as [|x xs IH]; intros H; simpl; [reflexivity|].
  rewrite (H x) by now left. simpl. apply IH. intros y Hy. apply H. now right.
Qed.

(** ** The measure *)

Lemma list_sum_cons a l : list_sum (a :: l) = (a + list_sum l)%nat.
Proof. reflexivity. Qed.

Lemma unsettled_degree_skip (d : dict (list (string * Z))) c settled :
  ~ In c (dict_keys d) ->
  list_sum (map (fun kv => if mem (fst kv) (c :: settled) then O
                           else length (snd kv)) d) =
  list_sum (map (fun kv => if mem (fst kv) settled then O
                           else length (snd kv)) d).
Proof.
  induction d as [|[k v] d IH]; intros Hc; [reflexivity|].
  simpl in Hc. rewrite !map_cons, !list_sum_cons. cbn [fst snd].
  rewrite IH by tauto.
  unfold mem at 1. cbn [existsb].
  replace (String.eqb k c) with false; [reflexivity|].
  symmetry. apply String.eqb_neq. tauto.
Qed.

Lemma unsettled_degree_settle g settled c adj :
  NoDup (dict_keys (edges g)) ->
  dict_get (edges g) c = Some adj ->
  ~ In c settled ->
  (unsettled_degree g (c :: settled) + length adj = unsettled_degree g settled)%nat.
Proof.
  unfold unsettled_degree. intros Hnd Hget Hc.
  induction (edges g) as [|[k v] d IH]; [discriminate|].
  simpl in Hnd, Hget. inversion Hnd as [|? ? Hk Hd]; subst.
  rewrite !map_cons, !list_sum_cons. cbn [fst snd].
  destruct (String.eqb_spec k c) as [->|Hne].
  - injection Hget as ->.
    rewrite unsettled_degree_skip by assumption.
    apply mem_not_in in Hc. rewrite Hc.
    unfold mem at 1. cbn [existsb]. rewrite String.eqb_refl. simpl. lia.
  - specialize (IH Hd Hget).
    unfold mem at 1. cbn [existsb].
    replace (String.eqb k c) with false by (symmetry; now apply String.eqb_neq).
    cbn [orb]. fold (mem k settled).
    destruct (mem k settled); lia.
Qed.

(** ** Search by travel time *)

Section DijkstraProof.
Variable g : Graph.
Variables starts ends : list string.
Hypothesis Hwf : wf_graph g.

Lemma minutes_nonneg : forall a b t, has_edge g a b t -> 0 <= minutes t.
Proof.
  intros a b t H. destruct (wf_edge g Hwf a b t H) as [_ [Ht _]].
  unfold minutes. lia.
Qed.

(** One turn of the inner loop. *)
Lemma relax_inv settled cur dcur m w pending st :
  dj_inv g starts ends settled cur dcur ((m, w) :: pending) st ->
  exists st',
    relax cur dcur (m, w) st = Done st' /\
    dj_inv g starts ends settled cur dcur pending st' /\
    (length (heap st') <= S (length (heap st)))%nat.
Proof.
  intros [Hk Hst Hsk Hns Hfr Hhp Hre Hmin Hrel Hcur Hpend Hprev Hroot Hends].
  destruct (Hcur ltac:(discriminate)) as [HcurS Hdcur].
  pose proof (Hpend m w (or_introl eq_refl)) as Hedge.
  destruct (wf_edge g Hwf cur m w Hedge) as [Hm [Hw _]].
  assert (Hstep : reach g minutes starts m (dcur + w)).
  { change (dcur + w) with (dcur + minutes w).
    eapply reach_step; [apply Hre, Hdcur | exact Hedge]. }
  pose proof (reach_nonneg g minutes starts m _ minutes_nonneg Hstep) as Hpos.
  assert (Hmk : In m (dict_keys (distances st))) by now rewrite Hk.
  apply dict_get_in_keys in Hmk. destruct Hmk as [d Hd].
  unfold relax. cbn [fst snd]. rewrite Hd.
  destruct (lt_dist (dcur + w) d) eqn:Elt.
  - (* the neighbour is improved *)
    assert (Hlt : forall y, d = Fin y -> dcur + w < y).
    { intros y ->. simpl in Elt. now apply Z.ltb_lt in Elt. }
    assert (HmS : ~ In m settled).
    { intros H. destruct (Hmin m _ H Hstep) as [x [Hx Hle]].
      rewrite Hd in Hx. injection Hx as ->. specialize (Hlt x eq_refl). lia. }
    assert (Hms : ~ In m starts).
    { intros H. rewrite (Hst m H) in Hd. injection Hd as <-.
      specialize (Hlt 0 eq_refl). lia. }
    assert (Hcm : cur <> m) by (intros ->; contradiction).
    eexists. split; [reflexivity|]. split; [|simpl; lia].
    constructor; cbn [distances previous heap heappush].
    + rewrite dict_keys_set_in; [assumption|]. apply dict_get_in_keys. eauto.
    + intros s Hs. rewrite dict_get_set_other by (intros ->; contradiction). auto.
    + assumption.
    + assumption.
    + intros n x. rewrite dict_get_set.
      destruct (String.eqb_spec m n) as [<-|Hne].
      * intros [= <-]. right. now left.
      * intros H. destruct (Hfr n x H); [now left | right; now right].
    + intros x n [[= <- <-]|Hin].
      * rewrite dict_get_set_same. exists (dcur + w). split; [reflexivity | lia].
      * destruct (Hhp x n Hin) as [y [Hy Hle]]. rewrite dict_get_set.
        destruct (String.eqb_spec m n) as [<-|Hne]; [|eauto].
        exists (dcur + w). split; [reflexivity|].
        rewrite Hd in Hy. injection Hy as ->. specialize (Hlt y eq_refl). lia.
    + intros n x. rewrite dict_get_set.
      destruct (String.eqb_spec m n) as [<-|Hne]; [|auto].
      intros [= <-]. exact Hstep.
    + intros n W Hn Hr. rewrite dict_get_set_other by (intros ->; contradiction).
      auto.
    + intros n m' w' Hn He.
      assert (Hnm : m <> n) by (intros ->; contradiction).
      rewrite (dict_get_set_other _ _ _ _ Hnm).
      destruct (Hrel n m' w' Hn He) as [[-> [[= <- <-]|Hin]]|[x [y [Hx [Hy Hle]]]]].
      * right. exists dcur, (dcur + w). rewrite dict_get_set_same.
        split; [assumption|]. split; [reflexivity | lia].
      * left. auto.
      * right. rewrite dict_get_set.
        destruct (String.eqb_spec m m') as [<-|Hne]; [|eauto].
        exists x, (dcur + w). split; [assumption|]. split; [reflexivity|].
        rewrite Hd in Hy. injection Hy as ->. specialize (Hlt y eq_refl). lia.
    + intros _. split; [assumption|]. now rewrite dict_get_set_other by auto.
    + intros m' w' Hin. apply Hpend. now right.
    + intros n u. rewrite dict_get_set.
      destruct (String.eqb_spec m n) as [<-|Hne].
      * intros [= <-]. split; [assumption|].
        exists dcur, w. rewrite dict_get_set_same.
        rewrite dict_get_set_other by auto. auto.
      * intros H. destruct (Hprev n u H) as [Hu [x [w' [Hx [He Hn]]]]].
        split; [assumption|]. exists x, w'.
        rewrite !dict_get_set_other by (try assumption; intros ->; contradiction).
        auto.
    + intros n x. rewrite !dict_get_set.
      destruct (String.eqb_spec m n) as [<-|Hne]; [discriminate|]. auto.
    + assumption.
  - (* the neighbour is left as it is *)
    destruct d as [y|]; [|discriminate]. simpl in Elt. apply Z.ltb_ge in Elt.
    exists st. split; [reflexivity|]. split; [|lia].
    constructor; auto.
    + intros n m' w' Hn He.
      destruct (Hrel n m' w' Hn He) as [[-> [[= <- <-]|Hin]]|H];
        [|left; split; [reflexivity | assumption] | right; assumption].
      right. exists dcur, y. auto.
    + intros m' w' Hin. apply Hpend. now right.
Qed.

(** The whole inner loop. *)
Lemma relax_all_inv settled cur dcur : forall pending st,
  dj_inv g starts ends settled cur dcur pending st ->
  exists st',
    for_each pending (relax cur dcur) st = Done st' /\
    dj_inv g starts ends settled cur dcur [] st' /\
    (length (heap st') <= length (heap st) + length pending)%nat.
Proof.
  induction pending as [|[m w] pending IH]; intros st H.
  - exists st. simpl. split; [reflexivity|]. split; [assumption | lia].
  - destruct (relax_inv _ _ _ _ _ _ _ H) as [st1 [E1 [H1 L1]]].
    destruct (IH st1 H1) as [st2 [E2 [H2 L2]]].
    exists st2. cbn [for_each]. rewrite E1. cbn [bind].
    split; [assumption|]. split; [assumption | simpl; lia].
Qed.

(** At the head of the loop, a path from a start to a node that is not
    settled passes through a node that is on the heap at a distance no
    greater than the cost of the path. *)
Lemma dj_unsettled settled cur dcur st n W :
  dj_inv g starts ends settled cur dcur [] st ->
  reach g minutes starts n W -> ~ In n settled ->
  exists v y, In (y, v) (heap st) /\ y <= W.
Proof.
  intros [Hk Hst Hsk Hns Hfr Hhp Hre Hmin Hrel Hcur Hpend Hprev Hroot Hends] Hr Hn.
  destruct (first_unsettled g minutes starts settled
              (fun v => match dict_get (distances st) v with
                        | Some (Fin x) => Some x
                        | _ => None
                        end)
              minutes_nonneg) with (n := n) (W := W) as [H|[v [y [Hv [Hy Hle]]]]].
  - intros s Hs. rewrite (Hst s Hs). exists 0. split; [reflexivity | lia].
  - intros x W' Hx Hr'. destruct (Hmin x W' Hx Hr') as [y [-> Hle]]. eauto.
  - intros x m t d Hx He Hd.
    destruct (Hrel x m t Hx He) as [[_ []]|[x' [y [Hx' [Hy Hle]]]]].
    rewrite Hx' in Hd. injection Hd as <-. rewrite Hy. unfold minutes. eauto.
  - exact Hr.
  - contradiction.
  - destruct (dict_get (distances st) v) as [[x|]|] eqn:E; try discriminate.
    injection Hy as <-. destruct (Hfr v x E); [contradiction|]. eauto.
Qed.

(** Popping an entry of a node that is already settled changes nothing but
    the heap. *)
Lemma dj_pop_stale settled cur dcur st d c rest adj :
  dj_inv g starts ends settled cur dcur [] st ->
  Permutation (heap st) ((d, c) :: rest) ->
  In c settled ->
  dict_get (edges g) c = Some adj ->
  let st' := {| distances := distances st; previous := previous st; heap := rest |} in
  for_each adj (relax c d) st' = Done st' /\
  dj_inv g starts ends settled cur dcur [] st'.
Proof.
  intros [Hk Hst Hsk Hns Hfr Hhp Hre Hmin Hrel Hcur Hpend Hprev Hroot Hends]
         Hperm Hc Hadj st'.
  assert (Hsub : forall e, In e rest -> In e (heap st)).
  { intros e He. eapply Permutation_in; [symmetry; exact Hperm | now right]. }
  split.
  - apply for_each_noop. intros [m w] Hin.
    assert (He : has_edge g c m w) by (exists adj; auto).
    destruct (Hrel c m w Hc He) as [[_ []]|[x [y [Hx [Hy Hle]]]]].
    destruct (Hhp d c) as [x' [Hx' Hle']].
    { eapply Permutation_in; [symmetry; exact Hperm | now left]. }
    rewrite Hx in Hx'. injection Hx' as <-.
    unfold relax. cbn [fst snd distances st']. rewrite Hy. simpl.
    replace (d + w <? y) with false; [reflexivity|].
    symmetry. apply Z.ltb_ge. lia.
  - constructor; cbn [distances previous heap st']; auto.
    intros n x Hn. destruct (Hfr n x Hn) as [H|H]; [now left|].
    apply (Permutation_in _ Hperm) in H. destruct H as [[= -> ->]|H]; auto.
Qed.

(** Popping an entry of a node that is not settled and not an end, and
    starting on its edges. *)
Lemma dj_pop_fresh settled cur dcur st d c rest adj :
  dj_inv g starts ends settled cur dcur [] st ->
  Permutation (heap st) ((d, c) :: rest) ->
  (forall e, In e (heap st) -> d <= fst e) ->
  ~ In c settled ->
  ~ In c ends ->
  dict_get (edges g) c = Some adj ->
  dj_inv g starts ends (c :: settled) c d adj
    {| distances := distances st; previous := previous st; heap := rest |}.
Proof.
  intros Hinv Hperm Hleast Hc Hend Hadj.
  pose proof (fun n W Hr Hn => dj_unsettled _ _ _ _ n W Hinv Hr Hn) as Hun.
  destruct Hinv as
    [Hk Hst Hsk Hns Hfr Hhp Hre Hmin Hrel Hcur Hpend Hprev Hroot Hends].
  assert (Hin : In (d, c) (heap st)).
  { eapply Permutation_in; [symmetry; exact Hperm | now left]. }
  assert (Hsub : forall e, In e rest -> In e (heap st)).
  { intros e He. eapply Permutation_in; [symmetry; exact Hperm | now right]. }
  destruct (Hhp d c Hin) as [y [Hy Hle]].
  assert (Hd : y = d).
  { destruct (Hfr c y Hy) as [H|H]; [contradiction|].
    specialize (Hleast _ H). simpl in Hleast. lia. }
  subst y.
  assert (Hck : In c (dict_keys (nodes g))).
  { rewrite <- Hk. apply dict_get_in_keys. eauto. }
  constructor; cbn [distances previous heap]; auto.
  - intros n [<-|Hn]; auto.
  - now constructor.
  - intros n x Hn.
    destruct (String.eqb_spec c n) as [<-|Hne]; [left; now left|].
    destruct (Hfr n x Hn) as [H|H]; [left; now right|].
    apply (Permutation_in _ Hperm) in H. destruct H as [[= -> ->]|H]; [congruence|].
    now right.
  - intros n W [<-|Hn] Hr; [|now apply Hmin].
    exists d. split; [assumption|].
    destruct (Hun c W Hr Hc) as [v [y [Hv Hyle]]].
    specialize (Hleast _ Hv). simpl in Hleast. lia.
  - intros n m w [<-|Hn] He.
    + left. split; [reflexivity|]. destruct He as [adj' [E Hin']]. congruence.
    + destruct (Hrel n m w Hn He) as [[_ []]|H]. now right.
  - intros _. split; [now left | assumption].
  - intros m w Hin'. exists adj. auto.
  - intros n u Hp. destruct (Hprev n u Hp) as [Hu H]. split; [now right | exact H].
  - intros n [<-|Hn]; auto.
Qed.
End DijkstraProof.

Section DijkstraLoop.
Variable g : Graph.
Variables starts ends : list string.
Hypothesis Hwf : wf_graph g.

(** The path rebuilt from a node with a finite distance: it leads from a
    start to the node along edges whose weights add up to the distance. *)
Lemma dj_walk_back settled cur dcur pending st :
  dj_inv g starts ends settled cur dcur pending st ->
  forall fuel n x acc, dict_get (distances st) n = Some (Fin x) ->
  match walk_back fuel (previous_lookup (previous st)) (Some n) acc with
  | Done p => exists q ws,
      p = acc ++ rev (q ++ [n]) /\ joins g (q ++ [n]) ws /\
      (exists s, hd_error (q ++ [n]) = Some s /\ In s starts) /\
      total ws = x
  | KeyError => False
  | OutOfFuel => Z.of_nat fuel <= x
  end.
Proof.
  intros Hinv.
  assert (Hne : forall n x, dict_get (distances st) n = Some (Fin x) -> n <> "").
  { intros n x H. apply (wf_nonempty g Hwf).
    rewrite <- (dj_keys _ _ _ _ _ _ _ _ Hinv). apply dict_get_in_keys. eauto. }
  induction fuel as [|fuel IH]; intros n x acc Hn.
  - rewrite walk_back_zero by eauto.
    apply (reach_nonneg g minutes starts n); [apply minutes_nonneg, Hwf|].
    apply (dj_reach _ _ _ _ _ _ _ _ Hinv), Hn.
  - rewrite walk_back_step by eauto.
    unfold previous_lookup at 1. cbn [bind].
    destruct (dict_get (previous st) n) as [u|] eqn:E.
    + destruct (dj_prev _ _ _ _ _ _ _ _ Hinv n u E) as [Hu [xu [w [Hxu [He Hx]]]]].
      rewrite Hn in Hx. injection Hx as ->.
      destruct (wf_edge g Hwf u n w He) as [_ [Hw _]].
      specialize (IH u xu (acc ++ [n]) Hxu).
      destruct (walk_back fuel _ (Some u) (acc ++ [n])) as [p| |].
      * destruct IH as [q [ws [-> [Hj [[s [Hhd Hs]] Htot]]]]].
        exists (q ++ [u]), (ws ++ [w]). split; [|split; [|split]].
        -- rewrite (rev_app_distr (q ++ [u]) [n]). simpl.
           now rewrite <- app_assoc.
        -- now apply joins_snoc.
        -- exists s. split; [|assumption]. destruct q; simpl in *; assumption.
        -- rewrite total_app, Htot. unfold total. simpl. lia.
      * assumption.
      * lia.
    + destruct (dj_root _ _ _ _ _ _ _ _ Hinv n x Hn E) as [Hs ->].
      rewrite walk_back_none. exists [], []. simpl.
      split; [reflexivity|]. split; [exact I|]. split; [eauto | reflexivity].
Qed.

(** The outcome of the loop from a state that satisfies the invariant. *)
Lemma dijkstra_loop_spec : forall fuel settled cur dcur st,
  dj_inv g starts ends settled cur dcur [] st ->
  match dijkstra_loop fuel g ends st with
  | Done (None, c) =>
      c = Inf /\ forall e W, In e ends -> ~ reach g minutes starts e W
  | Done (Some p, c) => exists ws,
      route g starts ends p ws /\ c = Fin (total ws) /\
      forall e W, In e ends -> reach g minutes starts e W -> total ws <= W
  | KeyError => False
  | OutOfFuel =>
      (fuel < dj_measure g settled st)%nat \/
      exists d, Z.of_nat fuel <= Z.of_nat (dj_measure g settled st) + d /\
                (exists e, In e ends /\ reach g minutes starts e d) /\
                forall e W, In e ends -> reach g minutes starts e W -> d <= W
  end.
Proof.
  induction fuel as [|fuel IH]; intros settled cur dcur st Hinv;
    destruct (heappop (heap st)) as [[[d c] rest]|] eqn:Epop.
  - simpl. rewrite Epop. left.
    destruct (heappop_spec _ _ _ Epop) as [Hp _].
    apply Permutation_length in Hp. unfold dj_measure. rewrite Hp. simpl. lia.
  - simpl. rewrite Epop. split; [reflexivity|]. intros e W He Hr.
    destruct (dj_unsettled g starts ends Hwf settled cur dcur st e W Hinv Hr)
      as [v [y [Hv _]]].
    + intros Hs; exact (dj_ends _ _ _ _ _ _ _ _ Hinv e Hs He).
    + apply heappop_none in Epop. rewrite Epop in Hv. destruct Hv.
  - cbn [dijkstra_loop]. rewrite Epop.
    destruct (heappop_spec _ _ _ Epop) as [Hperm Hleast]. cbn [fst] in Hleast.
    assert (Hin : In (d, c) (heap st)).
    { eapply Permutation_in; [symmetry; exact Hperm | now left]. }
    assert (Hlen : length (heap st) = S (length rest)).
    { now apply Permutation_length in Hperm. }
    destruct (dj_heap _ _ _ _ _ _ _ _ Hinv d c Hin) as [y [Hy Hyd]].
    assert (Hbest : forall e W, In e ends -> reach g minutes starts e W -> d <= W).
    { intros e W He Hr.
      destruct (dj_unsettled g starts ends Hwf settled cur dcur st e W Hinv Hr)
        as [v [x [Hv Hle]]].
      - intros Hs; exact (dj_ends _ _ _ _ _ _ _ _ Hinv e Hs He).
      - specialize (Hleast _ Hv). simpl in Hleast. lia. }
    destruct (mem c ends) eqn:Eend.
    + apply mem_in in Eend.
      assert (Hyd' : y = d).
      { destruct (dj_frontier _ _ _ _ _ _ _ _ Hinv c y Hy) as [H|H].
        - exfalso. exact (dj_ends _ _ _ _ _ _ _ _ Hinv c H Eend).
        - specialize (Hleast _ H). simpl in Hleast. lia. }
      subst y.
      pose proof (dj_walk_back settled cur dcur [] st Hinv fuel c d [] Hy) as Hwb.
      destruct (walk_back fuel _ (Some c) []) as [p| |]; cbn [bind].
      * destruct Hwb as [q [ws [-> [Hj [Hs Htot]]]]]. exists ws.
        rewrite app_nil_l, rev_involutive. split; [|split].
        -- split; [assumption|]. split; [assumption|].
           exists c. rewrite rev_app_distr. simpl. auto.
        -- now rewrite Htot.
        -- rewrite Htot. exact Hbest.
      * assumption.
      * right. exists d. split; [|split; [|exact Hbest]].
        -- unfold dj_measure. rewrite Hlen. lia.
        -- exists c. split; [assumption|].
           now apply (dj_reach _ _ _ _ _ _ _ _ Hinv).
    + apply mem_not_in in Eend.
      assert (Hkey : In c (dict_keys (edges g))).
      { rewrite (wf_keys g Hwf), <- (dj_keys _ _ _ _ _ _ _ _ Hinv).
        apply dict_get_in_keys. eauto. }
      apply dict_get_in_keys in Hkey. destruct Hkey as [adj Hadj]. rewrite Hadj.
      destruct (in_dec string_dec c settled) as [Hc|Hc].
      * (* a stale entry *)
        destruct (dj_pop_stale g starts ends settled cur dcur st d c rest adj
                    Hinv Hperm Hc Hadj) as [Enoop Hinv'].
        cbv zeta in Enoop, Hinv'. rewrite Enoop. cbn [bind].
        specialize (IH settled cur dcur _ Hinv').
        unfold dj_measure in *. cbn [heap] in IH. rewrite Hlen.
        destruct (dijkstra_loop fuel g ends _) as [[[p|] c']| |]; auto.
        destruct IH as [IH|[d' [Hd' Hmin]]].
        -- left. lia.
        -- right. exists d'. split; [lia | assumption].
      * (* the node is settled now *)
        pose proof (dj_pop_fresh g starts ends Hwf settled cur dcur st d c rest adj
                      Hinv Hperm Hleast Hc Eend Hadj) as Hpop.
        destruct (relax_all_inv g starts ends Hwf (c :: settled) c d adj _ Hpop)
          as [st' [Erel [Hinv' Hheap]]].
        rewrite Erel. cbn [bind]. cbn [heap] in Hheap.
        assert (Hdeg : (unsettled_degree g (c :: settled) + length adj =
                        unsettled_degree g settled)%nat).
        { apply unsettled_degree_settle; [|assumption|assumption].
          rewrite (wf_keys g Hwf). apply (wf_nodup g Hwf). }
        specialize (IH (c :: settled) c d st' Hinv').
        unfold dj_measure in *. rewrite Hlen.
        destruct (dijkstra_loop fuel g ends st') as [[[p|] c']| |]; auto.
        destruct IH as [IH|[d' [Hd' Hmin]]].
        -- left. lia.
        -- right. exists d'. split; [lia | assumption].
  - simpl. rewrite Epop. split; [reflexivity|]. intros e W He Hr.
    destruct (dj_unsettled g starts ends Hwf settled cur dcur st e W Hinv Hr)
      as [v [y [Hv _]]].
    + intros Hs; exact (dj_ends _ _ _ _ _ _ _ _ Hinv e Hs He).
    + apply heappop_none in Epop. rewrite Epop in Hv. destruct Hv.
Qed.
End DijkstraLoop.

(** ** The heap seeded with the start candidates *)

Lemma dict_get_const {V : Type} (ks : list string) (v : V) n :
  dict_get (map (fun k => (k, v)) ks) n = if mem n ks then Some v else None.
Proof.
  unfold mem. induction ks as [|k ks IH]; simpl; [reflexivity|].
  rewrite (String.eqb_sym n k).
  destruct (String.eqb k n); [reflexivity | exact IH].
Qed.

Lemma dijkstra_seed_fold : forall l st,
  (forall s, In s l -> In s (dict_keys (distances st))) ->
  previous (fold_left dijkstra_seed l st) = previous st /\
  heap (fold_left dijkstra_seed l st) = map (pair 0) (rev l) ++ heap st /\
  dict_keys (distances (fold_left dijkstra_seed l st)) = dict_keys (distances st) /\
  forall n, dict_get (distances (fold_left dijkstra_seed l st)) n =
            if mem n l then Some (Fin 0) else dict_get (distances st) n.
Proof.
  induction l as [|s l IH]; intros st Hl.
  - simpl. auto.
  - cbn [fold_left].
    assert (Hs : In s (dict_keys (distances st))) by (apply Hl; now left).
    destruct (IH (dijkstra_seed st s)) as [E1 [E2 [E3 E4]]].
    { intros x Hx. cbn [dijkstra_seed distances].
      rewrite dict_keys_set_in by assumption. apply Hl. now right. }
    rewrite E1, E2, E3. cbn [dijkstra_seed distances previous heap heappush].
    split; [reflexivity|]. split; [|split].
    + simpl. rewrite map_app, <- app_assoc. reflexivity.
    + now apply dict_keys_set_in.
    + intros n. rewrite E4. cbn [dijkstra_seed distances]. rewrite dict_get_set.
      unfold mem. cbn [existsb]. rewrite (String.eqb_sym n s).
      destruct (existsb (String.eqb n) l); [now rewrite orb_true_r|].
      destruct (String.eqb s n); reflexivity.
Qed.

Lemma unsettled_degree_nil g :
  unsettled_degree g [] = list_sum (map (fun kv => length (snd kv)) (edges g)).
Proof. reflexivity. Qed.

Section DijkstraInit.
Variable g : Graph.
Variables starts ends : list string.
Hypothesis Hnd : NoDup starts.
Hypothesis Hk : forall s, In s starts -> In s (dict_keys (nodes g)).

Lemma dj_init_facts :
  previous (dijkstra_start g starts) = [] /\
  heap (dijkstra_start g starts) = map (pair 0) (rev starts) /\
  dict_keys (distances (dijkstra_start g starts)) = dict_keys (nodes g) /\
  forall n, dict_get (distances (dijkstra_start g starts)) n =
            if mem n starts then Some (Fin 0)
            else if mem n (dict_keys (nodes g)) then Some Inf else None.
Proof.
  unfold dijkstra_start.
  assert (Hkeys : dict_keys (map (fun sid => (sid, Inf)) (dict_keys (nodes g)))
                  = dict_keys (nodes g)).
  { unfold dict_keys at 1. rewrite map_map. cbn [fst]. apply map_id. }
  match goal with |- context [fold_left dijkstra_seed starts ?s] =>
    destruct (dijkstra_seed_fold starts s) as [E1 [E2 [E3 E4]]] end.
  { cbn [distances]. rewrite Hkeys. exact Hk. }
  cbn [distances previous heap] in *.
  rewrite E1, E2, E3, app_nil_r. repeat split; auto.
  intros n. rewrite E4, dict_get_const. reflexivity.
Qed.

Lemma dj_init_inv : dj_inv g starts ends [] "" 0 [] (dijkstra_start g starts).
Proof.
  destruct dj_init_facts as [E1 [E2 [E3 E4]]].
  assert (Hfin : forall n x, dict_get (distances (dijkstra_start g starts)) n = Some (Fin x) ->
                             In n starts /\ x = 0).
  { intros n x. rewrite E4. destruct (mem n starts) eqn:Em.
    - intros [= <-]. apply mem_in in Em. auto.
    - destruct (mem n (dict_keys (nodes g))); discriminate. }
  constructor; rewrite ?E1, ?E2; try (intros; contradiction); auto.
  - intros s Hs. rewrite E4. apply mem_in in Hs. now rewrite Hs.
  - constructor.
  - intros n x H. destruct (Hfin n x H) as [Hn ->]. right.
    apply in_map, in_rev. now rewrite rev_involutive.
  - intros x n H. apply in_map_iff in H. destruct H as [s [[= <- <-] Hs]].
    apply in_rev in Hs. exists 0. rewrite E4. apply mem_in in Hs. rewrite Hs.
    split; [reflexivity | lia].
  - intros n x H. destruct (Hfin n x H) as [Hn ->]. now constructor.
  - intros n u. simpl. discriminate.
Qed.

Lemma dj_init_measure :
  (dj_measure g [] (dijkstra_start g starts) < search_fuel g)%nat.
Proof.
  destruct dj_init_facts as [_ [E2 _]].
  unfold dj_measure, search_fuel. rewrite E2, length_map, length_rev.
  assert (length starts <= length (dict_keys (nodes g)))%nat
    by (apply NoDup_incl_length; [assumption | exact Hk]).
  unfold dict_keys in *. rewrite length_map in *. lia.
Qed.
End DijkstraInit.

(** The outcome of [find_fastest_path] on a well-formed graph. *)
Lemma find_fastest_path_spec fuel g start_name end_name :
  wf_graph g ->
  let starts := candidates g start_name in
  let ends := candidates g end_name in
  match find_fastest_path fuel g start_name end_name with
  | Done (None, c) =>
      c = Inf /\ forall e W, In e ends -> ~ reach g minutes starts e W
  | Done (Some p, c) => exists ws,
      route g starts ends p ws /\ c = Fin (total ws) /\
      forall e W, In e ends -> reach g minutes starts e W -> total ws <= W
  | KeyError => False
  | OutOfFuel =>
      (fuel < search_fuel g)%nat \/
      exists d, 0 < d /\
                (exists e, In e ends /\ reach g minutes starts e d) /\
                forall e W, In e ends -> reach g minutes starts e W -> d <= W
  end.
Proof.
  intros Hwf starts ends.
  assert (Hnd : NoDup starts) by now apply candidates_nodup.
  assert (Hk : forall s, In s starts -> In s (dict_keys (nodes g)))
    by apply candidates_keys.
  pose proof (dijkstra_loop_spec g starts ends Hwf fuel [] "" 0
                (dijkstra_start g starts) (dj_init_inv g starts ends Hk)) as H.
  pose proof (dj_init_measure g starts Hnd Hk) as Hm.
  change (find_fastest_path fuel g start_name end_name)
    with (dijkstra_loop fuel g ends (dijkstra_start g starts)).
  destruct (dijkstra_loop fuel g ends (dijkstra_start g starts)) as [[[p|] c]| |];
    auto.
  destruct H as [H|[d [Hd H]]]; [left; lia|].
  destruct (le_lt_dec (search_fuel g) fuel); [|now left].
  right. exists d. split; [lia | assumption].
Qed.

(** The same for [find_shortest_path], in terms of [search_fuel]. *)
Lemma find_shortest_path_fuel fuel g start_name end_name :
  wf_graph g ->
  find_shortest_path fuel g start_name end_name = OutOfFuel ->
  let starts := candidates g start_name in
  let ends := candidates g end_name in
  (fuel < search_fuel g)%nat \/
  exists d, 0 < d /\
            (exists e, In e ends /\ reach g hops starts e d) /\
            forall e W, In e ends -> reach g hops starts e W -> d <= W.
Proof.
  intros Hwf E starts ends.
  pose proof (find_shortest_path_spec fuel g start_name end_name Hwf) as H.
  rewrite E in H. cbv zeta in H. fold starts ends in H.
  unfold search_fuel.
  destruct H as [H|[d [Hd H]]]; [left; lia|].
  destruct (le_lt_dec (S (length (nodes g) + unsettled_degree g [])) fuel);
    [|now left].
  right. exists d. split; [lia | assumption].
Qed.

(** ** Routes of a built graph *)

Lemma reach_is_route g cost starts ends e W :
  reach g cost starts e W -> In e ends ->
  exists p ws, route g starts ends p ws /\ total (map cost ws) = W.
Proof.
  intros Hr He. destruct (reach_route g cost starts e W Hr) as [q [ws [Hj [Hs HW]]]].
  exists (q ++ [e]), ws. split; [|assumption].
  split; [assumption|]. split; [assumption|].
  exists e. rewrite rev_app_distr. simpl. auto.
Qed.

Lemma joins_total g p ws :
  wf_graph g -> joins g p ws -> 2 * Z.of_nat (length ws) <= total ws.
Proof.
  intros Hwf. revert ws. induction p as [|a p IH]; intros ws H; [destruct H|].
  destruct p as [|b p].
  - destruct ws; [unfold total; simpl; lia | destruct H].
  - destruct ws as [|w ws]; [destruct H|]. destruct H as [He H].
    destruct (wf_edge g Hwf a b w He) as [_ [Hw _]].
    specialize (IH ws H). unfold total in *. cbn [length fold_right]. lia.
Qed.

Lemma route_single g starts ends p :
  route g starts ends p [] -> exists m, p = [m] /\ In m starts /\ In m ends.
Proof.
  intros [Hj [[s [Hhd Hs]] [e [Hlast He]]]].
  destruct p as [|a [|b p]]; try destruct Hj.
  simpl in *. injection Hhd as ->. injection Hlast as ->. eauto.
Qed.

Lemma no_candidates_no_route g starts ends p ws :
  starts = [] \/ ends = [] -> ~ route g starts ends p ws.
Proof.
  intros [-> | ->] [_ [[s [_ Hs]] [e [_ He]]]]; contradiction.
Qed.

(** C2: when [find_fastest_path] returns a path and a cost on a built
    graph (whose weights are all positive), the cost is the sum of the
    weights of edges joining each node of the path to the next, and no path
    of the graph from a start candidate to an end candidate has a smaller
    sum of weights. *)
Theorem fastest_path_minimal df rnd g fuel start_name end_name path cost :
  build_graph df rnd = Done g ->
  find_fastest_path fuel g start_name end_name = Done (Some path, cost) ->
  let starts := candidates g start_name in
  let ends := candidates g end_name in
  exists ws,
    route g starts ends path ws /\
    Forall (fun w => 0 < w) ws /\
    cost = Fin (total ws) /\
    forall path' ws', route g starts ends path' ws' -> total ws <= total ws'.
Proof.
  intros Hg Hfind starts ends.
  pose proof (build_graph_wf df rnd g Hg) as Hwf.
  pose proof (find_fastest_path_spec fuel g start_name end_name Hwf) as H.
  rewrite Hfind in H. cbv zeta in H. fold starts ends in H.
  destruct H as [ws [Hroute [Hcost Hmin]]].
  exists ws. split; [assumption|]. split; [|split; [assumption|]].
  - destruct Hroute as [Hj _]. clear - Hj Hwf. revert ws Hj.
    induction path as [|a p IH]; intros ws Hj; [destruct Hj|].
    destruct p as [|b p].
    + destruct ws; [constructor | destruct Hj].
    + destruct ws as [|w ws]; [destruct Hj|]. destruct Hj as [He Hj].
      destruct (wf_edge g Hwf a b w He) as [_ [Hw _]].
      constructor; [lia | auto].
  - intros path' ws' Hroute'.
    destruct (route_reach g minutes starts ends path' ws' Hroute') as [e [He Hr]].
    specialize (Hmin e _ He Hr). now rewrite total_map_minutes in Hmin.
Qed.

(** C6: on a built graph, when no end candidate can be reached from a start
    candidate -- in particular when a name matches no identifier and its
    candidate list is empty -- both searches end without raising:
    [find_shortest_path] returns [None] and [find_fastest_path] returns
    [None] with an infinite cost. *)
Theorem no_route_outcome df rnd g fuel start_name end_name :
  build_graph df rnd = Done g ->
  (search_fuel g <= fuel)%nat ->
  let starts := candidates g start_name in
  let ends := candidates g end_name in
  (starts = [] \/ ends = [] \/ forall p ws, ~ route g starts ends p ws) ->
  find_shortest_path fuel g start_name end_name = Done None /\
  find_fastest_path fuel g start_name end_name = Done (None, Inf).
Proof.
  intros Hg Hfuel starts ends Hno.
  pose proof (build_graph_wf df rnd g Hg) as Hwf.
  assert (Hnone : forall p ws, ~ route g starts ends p ws).
  { destruct Hno as [H|[H|H]]; [| |exact H];
      intros p ws; apply no_candidates_no_route; auto. }
  assert (Hunreach : forall cost e W,
             In e ends -> ~ reach g cost starts e W).
  { intros cost e W He Hr.
    destruct (reach_is_route g cost starts ends e W Hr He) as [p [ws [Hroute _]]].
    exact (Hnone p ws Hroute). }
  split.
  - pose proof (find_shortest_path_spec fuel g start_name end_name Hwf) as H.
    pose proof (find_shortest_path_fuel fuel g start_name end_name Hwf) as Hf.
    cbv zeta in H, Hf. fold starts ends in H, Hf.
    destruct (find_shortest_path fuel g start_name end_name) as [[p|]| |].
    + destruct H as [ws [Hroute _]]. destruct (Hnone p ws Hroute).
    + reflexivity.
    + destruct H.
    + destruct (Hf eq_refl) as [Hlt|[d [_ [[e [He Hr]] _]]]]; [lia|].
      destruct (Hunreach hops e d He Hr).
  - pose proof (find_fastest_path_spec fuel g start_name end_name Hwf) as H.
    cbv zeta in H. fold starts ends in H.
    destruct (find_fastest_path fuel g start_name end_name) as [[[p|] c]| |].
    + destruct H as [ws [Hroute _]]. destruct (Hnone p ws Hroute).
    + destruct H as [-> _]. reflexivity.
    + destruct H.
    + destruct H as [Hlt|[d [_ [[e [He Hr]] _]]]]; [lia|].
      destruct (Hunreach minutes e d He Hr).
Qed.

(** C8: on a built graph, when some node is both a start candidate and an
    end candidate, [find_shortest_path] returns a path of a single node
    (no stop) and [find_fastest_path] returns a path of a single node with
    cost 0; the node is one that is in both candidate lists. *)
Theorem overlap_single_node df rnd g fuel start_name end_name n :
  build_graph df rnd = Done g ->
  (search_fuel g <= fuel)%nat ->
  let starts := candidates g start_name in
  let ends := candidates g end_name in
  In n starts -> In n ends ->
  (exists m, In m starts /\ In m ends /\
             find_shortest_path fuel g start_name end_name = Done (Some [m])) /\
  (exists m, In m starts /\ In m ends /\
             find_fastest_path fuel g start_name end_name = Done (Some [m], Fin 0)).
Proof.
  intros Hg Hfuel starts ends Hs He.
  pose proof (build_graph_wf df rnd g Hg) as Hwf.
  assert (Hr : forall cost, reach g cost starts n 0) by (intros; now constructor).
  split.
  - pose proof (find_shortest_path_spec fuel g start_name end_name Hwf) as H.
    pose proof (find_shortest_path_fuel fuel g start_name end_name Hwf) as Hf.
    cbv zeta in H, Hf. fold starts ends in H, Hf.
    destruct (find_shortest_path fuel g start_name end_name) as [[p|]| |].
    + destruct H as [ws [Hroute Hmin]].
      specialize (Hmin n 0 He (Hr hops)).
      destruct ws; [|simpl in Hmin; lia].
      destruct (route_single g starts ends p Hroute) as [m [-> [H1 H2]]]. eauto.
    + destruct (H n 0 He (Hr hops)).
    + destruct H.
    + destruct (Hf eq_refl) as [Hlt|[d [Hd [_ Hmin]]]]; [lia|].
      specialize (Hmin n 0 He (Hr hops)). lia.
  - pose proof (find_fastest_path_spec fuel g start_name end_name Hwf) as H.
    cbv zeta in H. fold starts ends in H.
    destruct (find_fastest_path fuel g start_name end_name) as [[[p|] c]| |].
    + destruct H as [ws [Hroute [-> Hmin]]].
      specialize (Hmin n 0 He (Hr minutes)).
      pose proof (joins_total g p ws Hwf (proj1 Hroute)) as Hpos.
      destruct ws; [|simpl length in Hpos; lia].
      destruct (route_single g starts ends p Hroute) as [m [-> [H1 H2]]]. eauto.
    + destruct H as [_ H]. destruct (H n 0 He (Hr minutes)).
    + destruct H.
    + destruct H as [Hlt|[d [Hd [_ Hmin]]]]; [lia|].
      specialize (Hmin n 0 He (Hr minutes)). lia.
Qed.

(** ** More fuel does not change a finished run *)

Lemma walk_back_mono lookup : forall fuel current acc r,
  walk_back fuel lookup current acc = r -> r <> OutOfFuel ->
  forall fuel', (fuel <= fuel')%nat -> walk_back fuel' lookup current acc = r.
Proof.
  induction fuel as [|fuel IH]; intros current acc r H Hr fuel' Hle.
  - destruct fuel' as [|fuel']; [assumption|].
    simpl in *. destruct (truthy current); [congruence | assumption].
  - destruct fuel' as [|fuel']; [lia|].
    simpl in *. destruct (truthy current) as [c|]; [|assumption].
    destruct (lookup c) as [next| |]; cbn [bind] in *; try assumption.
    apply IH; [assumption | assumption | lia].
Qed.

Lemma bfs_loop_mono g ends : forall fuel st r,
  bfs_loop fuel g ends st = r -> r <> OutOfFuel ->
  forall fuel', (fuel <= fuel')%nat -> bfs_loop fuel' g ends st = r.
Proof.
  induction fuel as [|fuel IH]; intros st r H Hr fuel' Hle.
  - destruct fuel' as [|fuel']; [assumption|].
    simpl in *. destruct (queue st); [assumption | congruence].
  - destruct fuel' as [|fuel']; [lia|].
    cbn [bfs_loop] in *. destruct (queue st) as [|c rest]; [assumption|].
    destruct (mem c ends).
    + destruct (walk_back fuel _ (Some c) []) as [p| |] eqn:Ew;
        cbn [bind] in H; try congruence.
      * rewrite (walk_back_mono _ fuel _ _ _ Ew) by (try discriminate; lia).
        exact H.
      * rewrite (walk_back_mono _ fuel _ _ _ Ew) by (try discriminate; lia).
        exact H.
    + destruct (dict_get (edges g) c); [|assumption].
      apply IH; [assumption | assumption | lia].
Qed.

Lemma dijkstra_loop_mono g ends : forall fuel st r,
  dijkstra_loop fuel g ends st = r -> r <> OutOfFuel ->
  forall fuel', (fuel <= fuel')%nat -> dijkstra_loop fuel' g ends st = r.
Proof.
  induction fuel as [|fuel IH]; intros st r H Hr fuel' Hle.
  - destruct fuel' as [|fuel']; [assumption|].
    simpl in *. destruct (heappop (heap st)) as [[[d c] rest]|];
      [congruence | assumption].
  - destruct fuel' as [|fuel']; [lia|].
    cbn [dijkstra_loop] in *.
    destruct (heappop (heap st)) as [[[d c] rest]|]; [|assumption].
    destruct (mem c ends).
    + destruct (walk_back fuel _ (Some c) []) as [p| |] eqn:Ew;
        cbn [bind] in H; try congruence.
      * rewrite (walk_back_mono _ fuel _ _ _ Ew) by (try discriminate; lia).
        exact H.
      * rewrite (walk_back_mono _ fuel _ _ _ Ew) by (try discriminate; lia).
        exact H.
    + destruct (dict_get (edges g) c); [|assumption].
      destruct (for_each _ _ _) as [st'| |]; cbn [bind] in *; try assumption.
      apply IH; [assumption | assumption | lia].
Qed.

(** A run that can only be cut short below a bound, or below the bound
    plus the least cost of a route, ends once it is given enough fuel. *)
Lemma enough_fuel_ends {A : Type} (run : nat -> outcome A) (N0 : nat)
    (P : Z -> Prop) :
  (forall fuel r, run fuel = r -> r <> OutOfFuel ->
                  forall fuel', (fuel <= fuel')%nat -> run fuel' = r) ->
  (forall fuel, run fuel <> KeyError) ->
  (forall fuel, run fuel = OutOfFuel ->
     (fuel < N0)%nat \/
     exists d, Z.of_nat fuel <= Z.of_nat N0 + d /\ P d /\
               forall d', P d' -> d <= d') ->
  exists r N, forall fuel, (N <= fuel)%nat -> run fuel = Done r.
Proof.
  intros Hmono Hkey Hout.
  destruct (run N0) as [r| |] eqn:E0.
  - exists r, N0. intros fuel Hle.
    apply (Hmono N0); [assumption | discriminate | assumption].
  - destruct (Hkey N0 E0).
  - destruct (Hout N0 E0) as [Hlt|[d [_ [Hd Hmin]]]]; [lia|].
    set (N1 := (N0 + Z.to_nat d + 1)%nat).
    destruct (run N1) as [r| |] eqn:E1.
    + exists r, N1. intros fuel Hle.
      apply (Hmono N1); [assumption | discriminate | assumption].
    + destruct (Hkey N1 E1).
    + destruct (Hout N1 E1) as [Hlt|[d' [Hle [Hd' Hmin']]]]; [unfold N1 in Hlt; lia|].
      specialize (Hmin' d Hd). unfold N1 in Hle. lia.
Qed.

Lemma find_shortest_path_total g start_name end_name :
  wf_graph g ->
  exists r N, forall fuel, (N <= fuel)%nat ->
    find_shortest_path fuel g start_name end_name = Done r.
Proof.
  intros Hwf.
  apply (enough_fuel_ends
           (fun fuel => find_shortest_path fuel g start_name end_name)
           (length (nodes g))
           (fun d => exists e, In e (candidates g end_name) /\
                               reach g hops (candidates g start_name) e d)).
  - intros fuel r. unfold find_shortest_path. apply bfs_loop_mono.
  - intros fuel E.
    pose proof (find_shortest_path_spec fuel g start_name end_name Hwf) as H.
    now rewrite E in H.
  - intros fuel E.
    pose proof (find_shortest_path_spec fuel g start_name end_name Hwf) as H.
    rewrite E in H. cbv zeta in H.
    destruct H as [H|[d [Hd [He Hmin]]]]; [now left|].
    right. exists d. split; [assumption|]. split; [assumption|].
    intros d' [e [He' Hr]]. eauto.
Qed.

Lemma find_fastest_path_total g start_name end_name :
  wf_graph g ->
  exists r N, forall fuel, (N <= fuel)%nat ->
    find_fastest_path fuel g start_name end_name = Done r.
Proof.
  intros Hwf.
  set (starts := candidates g start_name). set (ends := candidates g end_name).
  assert (Hk : forall s, In s starts -> In s (dict_keys (nodes g)))
    by apply candidates_keys.
  assert (Hspec := fun fuel =>
            dijkstra_loop_spec g starts ends Hwf fuel [] "" 0
              (dijkstra_start g starts) (dj_init_inv g starts ends Hk)).
  change (exists r N, forall fuel, (N <= fuel)%nat ->
            dijkstra_loop fuel g ends (dijkstra_start g starts) = Done r).
  apply (enough_fuel_ends
           (fun fuel => dijkstra_loop fuel g ends (dijkstra_start g starts))
           (dj_measure g [] (dijkstra_start g starts))
           (fun d => exists e, In e ends /\ reach g minutes starts e d)).
  - intros fuel r. apply dijkstra_loop_mono.
  - intros fuel E. specialize (Hspec fuel). now rewrite E in Hspec.
  - intros fuel E. specialize (Hspec fuel). rewrite E in Hspec.
    destruct Hspec as [H|[d [Hd [He Hmin]]]]; [now left|].
    right. exists d. split; [assumption|]. split; [assumption|].
    intros d' [e [He' Hr]]. eauto.
Qed.

Lemma single_result {A : Type} (run : nat -> outcome A) r N :
  (forall fuel r', run fuel = r' -> r' <> OutOfFuel ->
                   forall fuel', (fuel <= fuel')%nat -> run fuel' = r') ->
  (forall fuel, (N <= fuel)%nat -> run fuel = Done r) ->
  forall fuel r', run fuel = Done r' -> r' = r.
Proof.
  intros Hmono Hr fuel r' E.
  pose proof (Hmono fuel _ E ltac:(discriminate) (Nat.max fuel N) ltac:(lia)) as H1.
  pose proof (Hr (Nat.max fuel N) ltac:(lia)) as H2.
  congruence.
Qed.

(** C9: the searches read the graph and return a result; they have no
    other effect, so a second invocation meets the same graph.  On a built
    graph each search ends, and every invocation with the same names that
    runs to its end returns one and the same result, path and cost,
    whatever fuel it was observed with. *)
Theorem finders_repeatable df rnd g start_name end_name :
  build_graph df rnd = Done g ->
  (exists path,
     (exists N, forall fuel, (N <= fuel)%nat ->
        find_shortest_path fuel g start_name end_name = Done path) /\
     (forall fuel r,
        find_shortest_path fuel g start_name end_name = Done r -> r = path)) /\
  (exists path_cost,
     (exists N, forall fuel, (N <= fuel)%nat ->
        find_fastest_path fuel g start_name end_name = Done path_cost) /\
     (forall fuel r,
        find_fastest_path fuel g start_name end_name = Done r -> r = path_cost)).
Proof.
  intros Hg. pose proof (build_graph_wf df rnd g Hg) as Hwf. split.
  - destruct (find_shortest_path_total g start_name end_name Hwf) as [r [N Hr]].
    exists r. split; [eauto|].
    apply (single_result
             (fun fuel => find_shortest_path fuel g start_name end_name) r N);
      [|assumption].
    intros fuel r'. unfold find_shortest_path. apply bfs_loop_mono.
  - destruct (find_fastest_path_total g start_name end_name Hwf) as [r [N Hr]].
    exists r. split; [eauto|].
    apply (single_result
             (fun fuel => find_fastest_path fuel g start_name end_name) r N);
      [|assumption].
    intros fuel r'. unfold find_fastest_path. apply dijkstra_loop_mono.
Qed.

(** * The properties on the small network *)

Example demo_edges :
  edges demo_graph =
  [("B (L1)", [("A (L1)", 2); ("C (L1)", 3); ("B (L2)", 5)]);
   ("A (L1)", [("B (L1)", 2)]);
   ("C (L1)", [("B (L1)", 3)]);
   ("B (L2)", [("D (L2)", 4); ("B (L1)", 5)]);
   ("D (L2)", [("B (L2)", 4)])].
Proof. reflexivity. Qed.

Example demo_along_line :
  find_shortest_path 10 demo_graph "A" "C" =
  Done (Some ["A (L1)"; "B (L1)"; "C (L1)"]).
Proof. reflexivity. Qed.

Example demo_through_interchange :
  find_fastest_path 20 demo_graph "C" "D" =
  Done (Some ["C (L1)"; "B (L1)"; "B (L2)"; "D (L2)"], Fin 12).
Proof. reflexivity. Qed.

Example demo_unknown_station :
  find_shortest_path 10 demo_graph "Q" "D" = Done None /\
  find_fastest_path 10 demo_graph "Q" "D" = Done (None, Inf).
Proof. split; reflexivity. Qed.

Example demo_duplicate_row :
  build_graph (frame_of [mkRow "A" "L1"; mkRow "A" "L1"]) demo_rng =
  Done {| nodes := [("A (L1)", mkStation "A" "L1")];
          edges := [("A (L1)", [("A (L1)", 2); ("A (L1)", 2);
                                ("A (L1)", 5); ("A (L1)", 5)])] |}.
Proof. reflexivity. Qed.

(** ** Frames that are not text *)

Example demo_numbers_as_text :
  str (Int (-42)) = "-42" /\ str (Flt (float_of_int 1)) = "1.0" /\
  str (Flt (float_of_ratio 3 2)) = "1.5" /\ str (Flt (float_of_ratio 1 10)) = "0.1" /\
  str (Flt (float_of_int (10 ^ 16))) = "1e+16" /\ str NaN = "nan".
Proof. vm_compute. repeat split. Qed.

(** Numbers are ordered by value: 2, 9, 10. *)
Example demo_numbered_stations :
  build_graph numbered_df demo_rng =
  Done {| nodes := [("10 (L1)", mkStation "10" "L1"); ("9 (L1)", mkStation "9" "L1");
                    ("2 (L1)", mkStation "2" "L1")];
          edges := [("10 (L1)", [("9 (L1)", 3)]);
                    ("9 (L1)", [("2 (L1)", 2); ("10 (L1)", 3)]);
                    ("2 (L1)", [("9 (L1)", 2)])] |}.
Proof. vm_compute. reflexivity. Qed.

(** Beside a float64 column the integers are registered as doubles. *)
Example demo_registered_as_doubles :
  build_graph apart_df demo_rng =
  Done {| nodes := [("1.0 (1.5)", mkStation "1.0" "1.5");
                    ("2.0 (2.5)", mkStation "2.0" "2.5")];
          edges := [("1.0 (1.5)", []); ("2.0 (2.5)", [])] |}.
Proof. vm_compute. reflexivity. Qed.

(** A missing name is sorted last and makes no group of its own. *)
Example demo_unnamed_station :
  build_graph unnamed_df demo_rng =
  Done {| nodes := [("nan (L1)", mkStation "nan" "L1"); ("B (L1)", mkStation "B" "L1");
                    ("nan (L2)", mkStation "nan" "L2")];
          edges := [("nan (L1)", [("B (L1)", 2)]); ("B (L1)", [("nan (L1)", 2)]);
                    ("nan (L2)", [])] |}.
Proof. vm_compute. reflexivity. Qed.

(** Beside a float64 column the integers are registered as doubles
    ("1.0 (1.5)") and connected as integers ("1 (1.5)"). *)
Example demo_int_beside_float :
  build_graph fractional_df demo_rng = KeyError /\
  dict_keys (nodes (fold_left
     (fun graph row => add_station graph (mkStation (str (Station_cell row))
                                                    (str (Line_cell row))))
     (iterrows fractional_df) empty_graph)) = ["1.0 (1.5)"; "2.0 (1.5)"].
Proof. vm_compute. split; reflexivity. Qed.




Lemma shortest_path_minimal_witness :
  build_graph demo_df demo_rng = Done demo_graph /\
  find_shortest_path 10 demo_graph "A" "D" =
    Done (Some ["A (L1)"; "B (L1)"; "B (L2)"; "D (L2)"]) /\
  exists ws,
    route demo_graph (candidates demo_graph "A") (candidates demo_graph "D")
      ["A (L1)"; "B (L1)"; "B (L2)"; "D (L2)"] ws /\
    length ["A (L1)"; "B (L1)"; "B (L2)"; "D (L2)"] = S (length ws) /\
    forall path' ws',
      route demo_graph (candidates demo_graph "A") (candidates demo_graph "D")
        path' ws' ->
      (length ws <= length ws')%nat /\
      (length ["A (L1)"; "B (L1)"; "B (L2)"; "D (L2)"] <= length path')%nat.
Proof.
  split; [vm_compute; reflexivity|]. split; [vm_compute; reflexivity|].
  apply (shortest_path_minimal demo_df demo_rng demo_graph 10 "A" "D").
  - vm_compute. reflexivity.
  - vm_compute. reflexivity.
Defined.

Lemma fastest_path_minimal_witness :
  build_graph demo_df demo_rng = Done demo_graph /\
  find_fastest_path 20 demo_graph "A" "D" =
    Done (Some ["A (L1)"; "B (L1)"; "B (L2)"; "D (L2)"], Fin 11) /\
  exists ws,
    route demo_graph (candidates demo_graph "A") (candidates demo_graph "D")
      ["A (L1)"; "B (L1)"; "B (L2)"; "D (L2)"] ws /\
    Forall (fun w => 0 < w) ws /\
    Fin 11 = Fin (total ws) /\
    forall path' ws',
      route demo_graph (candidates demo_graph "A") (candidates demo_graph "D")
        path' ws' ->
      total ws <= total ws'.
Proof.
  split; [vm_compute; reflexivity|]. split; [vm_compute; reflexivity|].
  apply (fastest_path_minimal demo_df demo_rng demo_graph 20 "A" "D").
  - vm_compute. reflexivity.
  - vm_compute. reflexivity.
Defined.

Lemma edges_symmetric_witness :
  build_graph demo_df demo_rng = Done demo_graph /\
  dict_get (edges demo_graph) "A (L1)" = Some [("B (L1)", 2)] /\
  In ("B (L1)", 2) [("B (L1)", 2)] /\
  exists adj', dict_get (edges demo_graph) "B (L1)" = Some adj' /\
               In ("A (L1)", 2) adj'.
Proof.
  split; [vm_compute; reflexivity|]. split; [vm_compute; reflexivity|].
  split; [left; reflexivity|].
  apply (edges_symmetric demo_df demo_rng demo_graph "A (L1)" [("B (L1)", 2)]
           "B (L1)" 2).
  - vm_compute. reflexivity.
  - vm_compute. reflexivity.
  - left. reflexivity.
Defined.



Lemma no_route_outcome_witness :
  build_graph demo_df demo_rng = Done demo_graph /\
  (search_fuel demo_graph <= 20)%nat /\
  (candidates demo_graph "A" = [] \/ candidates demo_graph "Z" = [] \/
   forall p ws,
     ~ route demo_graph (candidates demo_graph "A") (candidates demo_graph "Z") p ws) /\
  find_shortest_path 20 demo_graph "A" "Z" = Done None /\
  find_fastest_path 20 demo_graph "A" "Z" = Done (None, Inf).
Proof.
  split; [vm_compute; reflexivity|]. split; [vm_compute; lia|].
  split; [right; left; reflexivity|].
  apply (no_route_outcome demo_df demo_rng demo_graph 20 "A" "Z").
  - vm_compute. reflexivity.
  - vm_compute. lia.
  - right. left. reflexivity.
Defined.

Lemma overlap_single_node_witness :
  build_graph demo_df demo_rng = Done demo_graph /\
  (search_fuel demo_graph <= 20)%nat /\
  In "B (L2)" (candidates demo_graph "B") /\
  In "B (L2)" (candidates demo_graph "B (L2") /\
  (exists m, In m (candidates demo_graph "B") /\
             In m (candidates demo_graph "B (L2") /\
             find_shortest_path 20 demo_graph "B" "B (L2" = Done (Some [m])) /\
  (exists m, In m (candidates demo_graph "B") /\
             In m (candidates demo_graph "B (L2") /\
             find_fastest_path 20 demo_graph "B" "B (L2" = Done (Some [m], Fin 0)).
Proof.
  split; [vm_compute; reflexivity|]. split; [vm_compute; lia|].
  split; [vm_compute; auto|]. split; [vm_compute; auto|].
  apply (overlap_single_node demo_df demo_rng demo_graph 20 "B" "B (L2" "B (L2)").
  - vm_compute. reflexivity.
  - vm_compute. lia.
  - vm_compute. auto.
  - vm_compute. auto.
Defined.

Lemma finders_repeatable_witness :
  build_graph demo_df demo_rng = Done demo_graph /\
  (exists path,
     (exists N, forall fuel, (N <= fuel)%nat ->
        find_shortest_path fuel demo_graph "A" "D" = Done path) /\
     (forall fuel r,
        find_shortest_path fuel demo_graph "A" "D" = Done r -> r = path)) /\
  (exists path_cost,
     (exists N, forall fuel, (N <= fuel)%nat ->
        find_fastest_path fuel demo_graph "A" "D" = Done path_cost) /\
     (forall fuel r,
        find_fastest_path fuel demo_graph "A" "D" = Done r -> r = path_cost)).
Proof.
  split; [vm_compute; reflexivity|].
  apply (finders_repeatable demo_df demo_rng demo_graph "A" "D").
  vm_compute. reflexivity.
Defined.

(** * Further properties of the code *)

(** ** Station identifiers *)

Lemma string_app_assoc (a b c : string) :
  ((a ++ b) ++ c = a ++ (b ++ c))%string.
Proof. induction a as [|x a IH]; simpl; congruence. Qed.

Lemma contains_char_app c a b :
  contains_char c (a ++ b)%string = contains_char c a || contains_char c b.
Proof.
  induction a as [|x a IH]; simpl; [reflexivity|].
  rewrite IH. now rewrite orb_assoc.
Qed.

(** A string is cut in one way only at an occurrence of a character that
    does not occur after it. *)
Lemma cut_at_last c : forall a b l1 l2,
  contains_char c l1 = false -> contains_char c l2 = false ->
  (a ++ String c l1 = b ++ String c l2)%string -> a = b /\ l1 = l2.
Proof.
  induction a as [|x a IH]; intros [|y b] l1 l2 H1 H2 E; simpl in E.
  - injection E as ->. auto.
  - injection E as <- ->.
    rewrite contains_char_app in H1. simpl in H1.
    rewrite Ascii.eqb_refl, orb_true_r in H1. discriminate.
  - injection E as -> <-.
    rewrite contains_char_app in H2. simpl in H2.
    rewrite Ascii.eqb_refl, orb_true_r in H2. discriminate.
  - injection E as -> E. destruct (IH b l1 l2 H1 H2 E) as [-> ->]. auto.
Qed.

(** X1: two stations whose line names hold no opening parenthesis have the
    same identifier only when they have the same name and the same line;
    without the condition on the lines, distinct stations can share an
    identifier. *)
Theorem id_injective_without_paren :
  (forall s1 s2,
     contains_char "(" (line s1) = false ->
     contains_char "(" (line s2) = false ->
     id s1 = id s2 -> s1 = s2) /\
  (exists s1 s2, s1 <> s2 /\ id s1 = id s2).
Proof.
  split.
  - intros [n1 l1] [n2 l2] H1 H2 E. unfold id in E. cbn [name line] in *.
    change (n1 ++ " (" ++ l1 ++ ")")%string
      with (n1 ++ (" " ++ String "(" (l1 ++ ")")))%string in E.
    change (n2 ++ " (" ++ l2 ++ ")")%string
      with (n2 ++ (" " ++ String "(" (l2 ++ ")")))%string in E.
    rewrite <- !string_app_assoc in E.
    apply cut_at_last in E.
    + destruct E as [En El].
      apply append_inj_r in En. apply append_inj_r in El. congruence.
    + rewrite contains_char_app, H1. reflexivity.
    + rewrite contains_char_app, H2. reflexivity.
  - exists (mkStation "A (B)" "C"), (mkStation "A" "B) (C").
    split; [discriminate | reflexivity].
Qed.

(** ** [add_connection] and [add_station] *)

Lemma dict_keys_in_set_in {V : Type} (d : dict V) k v k' :
  In k' (dict_keys d) -> In k' (dict_keys (dict_set d k v)).
Proof. intros H. apply dict_keys_set_iff. now right. Qed.

(** X2: [add_connection] raises [KeyError] exactly when one of the two
    identifiers is not registered.  Otherwise it leaves the nodes and the
    order of the keys as they are and appends [(to_id, time)] to the list of
    [from_id] and then [(from_id, time)] to the list of [to_id]; every other
    adjacency list is left untouched. *)
Theorem add_connection_outcome g a b t :
  match add_connection g a b t with
  | Done g' =>
      In a (dict_keys (edges g)) /\ In b (dict_keys (edges g)) /\
      nodes g' = nodes g /\
      dict_keys (edges g') = dict_keys (edges g) /\
      forall k, dict_get (edges g') k =
                option_map
                  (fun adj => adj ++ (if String.eqb k a then [(b, t)] else [])
                                  ++ (if String.eqb k b then [(a, t)] else []))
                  (dict_get (edges g) k)
  | KeyError => ~ In a (dict_keys (edges g)) \/ ~ In b (dict_keys (edges g))
  | OutOfFuel => False
  end.
Proof.
  unfold add_connection.
  destruct (dict_get (edges g) a) as [l1|] eqn:Ea.
  - assert (Ha : In a (dict_keys (edges g))) by (apply dict_get_in_keys; eauto).
    rewrite dict_get_set.
    destruct (String.eqb_spec a b) as [<-|Hab].
    + cbn [nodes edges]. repeat split; auto.
      * rewrite !dict_keys_set_in; auto. now apply dict_keys_in_set_in.
      * intros k. rewrite !dict_get_set, (String.eqb_sym k a).
        destruct (String.eqb_spec a k) as [<-|Hne].
        -- rewrite Ea. simpl. now rewrite <- app_assoc.
        -- destruct (dict_get (edges g) k); simpl; [|reflexivity].
           now rewrite !app_nil_r.
    + destruct (dict_get (edges g) b) as [l2|] eqn:Eb.
      * assert (Hb : In b (dict_keys (edges g))) by (apply dict_get_in_keys; eauto).
        cbn [nodes edges]. repeat split; auto.
        -- rewrite !dict_keys_set_in; auto. now apply dict_keys_in_set_in.
        -- intros k. rewrite !dict_get_set, (String.eqb_sym k a), (String.eqb_sym k b).
           destruct (String.eqb_spec b k) as [<-|Hbk].
           ++ rewrite Eb. simpl.
              destruct (String.eqb_spec a b); [contradiction | reflexivity].
           ++ destruct (String.eqb_spec a k) as [<-|Hak].
              ** rewrite Ea. simpl. reflexivity.
              ** destruct (dict_get (edges g) k); simpl; [|reflexivity].
                 now rewrite !app_nil_r.
      * right. intros H. apply dict_get_in_keys in H. destruct H as [v H].
        congruence.
  - left. intros H. apply dict_get_in_keys in H. destruct H as [v H]. congruence.
Qed.

(** X3: registering a station again keeps every other adjacency list but
    empties its own -- so after a connection the graph is no longer
    symmetric: the neighbour still lists the station, the station no longer
    lists the neighbour. *)
Theorem add_station_resets_edges g station b w :
  has_edge g (id station) b w ->
  has_edge g b (id station) w ->
  b <> id station ->
  let g' := add_station g station in
  dict_get (nodes g') (id station) = Some station /\
  dict_get (edges g') (id station) = Some [] /\
  dict_keys (edges g') = dict_keys (edges g) /\
  (forall k, k <> id station -> dict_get (edges g') k = dict_get (edges g) k) /\
  has_edge g' b (id station) w /\
  ~ has_edge g' (id station) b w /\
  ~ symmetric g'.
Proof.
  intros Hab Hba Hne g'. unfold g', add_station. cbn [nodes edges].
  assert (Hk : In (id station) (dict_keys (edges g))).
  { destruct Hab as [adj [E _]]. apply dict_get_in_keys. eauto. }
  assert (Hgone : ~ has_edge
                     {| nodes := dict_set (nodes g) (id station) station;
                        edges := dict_set (edges g) (id station) [] |}
                     (id station) b w).
  { intros [adj [E Hin]]. cbn [edges] in E. rewrite dict_get_set_same in E.
    injection E as <-. destruct Hin. }
  assert (Hkept : has_edge
                    {| nodes := dict_set (nodes g) (id station) station;
                       edges := dict_set (edges g) (id station) [] |}
                    b (id station) w).
  { destruct Hba as [adj [E Hin]]. exists adj. cbn [edges].
    rewrite dict_get_set_other by congruence. auto. }
  split; [apply dict_get_set_same|]. split; [apply dict_get_set_same|].
  split; [now apply dict_keys_set_in|].
  split; [intros k Hkne; apply dict_get_set_other; congruence|].
  split; [assumption|]. split; [assumption|].
  intros Hsym. apply Hgone, Hsym, Hkept.
Qed.

(** ** The graph built from any input *)

(** X4: on a frame whose cells are all text [build_graph] never raises,
    whatever the rows and the random draws.  In its result the two
    dictionaries have the same keys, every edge joins two registered nodes,
    and every weight is between 2 and 8. *)
Theorem build_graph_never_raises (df : table) rnd :
  exists g,
    build_graph (frame_of df) rnd = Done g /\
    dict_keys (edges g) = dict_keys (nodes g) /\
    NoDup (dict_keys (nodes g)) /\
    forall a b w, has_edge g a b w ->
      In a (dict_keys (nodes g)) /\ In b (dict_keys (nodes g)) /\ 2 <= w <= 8.
Proof.
  destruct (build_graph_done df rnd) as [g [Eg [Hwf _]]].
  exists g. split; [assumption|].
  split; [apply (wf_keys g Hwf)|]. split; [apply (wf_nodup g Hwf)|].
  intros a b w He. destruct (wf_edge g Hwf a b w He) as [Hb [Hw _]].
  split; [|auto].
  rewrite <- (wf_keys g Hwf). destruct He as [adj [E _]].
  apply dict_get_in_keys. eauto.
Qed.

Lemma dict_set_new {V : Type} (d : dict V) k v :
  ~ In k (dict_keys d) -> dict_set d k v = d ++ [(k, v)].
Proof.
  induction d as [|[k0 v0] d IH]; simpl; intros H; [reflexivity|].
  destruct (String.eqb_spec k0 k) as [->|Hne]; [tauto|].
  rewrite IH by tauto. reflexivity.
Qed.

Lemma stations_nodes_values : forall rest done g,
  (forall k st, dict_get (nodes g) k = Some st ->
                id st = k /\ In (mkRow (name st) (line st)) done) ->
  forall k st,
    dict_get (nodes (fold_left (fun graph r =>
        add_station graph (mkStation (Station_col r) (Line_col r))) rest g)) k
    = Some st ->
    id st = k /\ In (mkRow (name st) (line st)) (done ++ rest).
Proof.
  induction rest as [|r rest IH]; intros done g Hg k st H.
  - rewrite app_nil_r. now apply Hg.
  - cbn [fold_left] in H.
    replace (done ++ r :: rest) with ((done ++ [r]) ++ rest)
      by (rewrite <- app_assoc; reflexivity).
    apply (IH (done ++ [r])
             (add_station g (mkStation (Station_col r) (Line_col r))));
      [|exact H].
    intros k' st'. cbn [add_station nodes]. rewrite dict_get_set.
    destruct (String.eqb_spec (id (mkStation (Station_col r) (Line_col r))) k')
      as [<-|Hne].
    + intros [= <-]. split; [reflexivity|]. cbn [name line].
      rewrite row_eta. apply in_or_app. right. now left.
    + intros H'. destruct (Hg k' st' H') as [H1 H2].
      split; [assumption | apply in_or_app; now left].
Qed.

Lemma stations_nodes_distinct : forall rest done g,
  nodes g = map row_node done ->
  NoDup (map row_id (done ++ rest)) ->
  nodes (fold_left (fun graph r =>
      add_station graph (mkStation (Station_col r) (Line_col r))) rest g)
  = map row_node (done ++ rest).
Proof.
  induction rest as [|r rest IH]; intros done g Hg Hnd.
  - now rewrite app_nil_r.
  - cbn [fold_left].
    replace (done ++ r :: rest) with ((done ++ [r]) ++ rest) in *
      by (rewrite <- app_assoc; reflexivity).
    apply IH; [|assumption].
    cbn [add_station nodes]. rewrite dict_set_new.
    + rewrite Hg, map_app. reflexivity.
    + rewrite Hg. unfold dict_keys. rewrite map_map. cbn [row_node fst].
      rewrite map_app, map_app in Hnd. apply NoDup_app_remove_r in Hnd.
      apply NoDup_remove_2 in Hnd. rewrite app_nil_r in Hnd. exact Hnd.
Qed.

(** X5: on a frame whose cells are all text, the nodes of the built graph
    are the identifiers of the rows, each once; the station kept under an
    identifier has that identifier and is a station of the input; and when
    the rows have distinct identifiers the nodes are those of the rows, in
    file order. *)
Theorem built_nodes (df : table) rnd g :
  build_graph (frame_of df) rnd = Done g ->
  (forall k, In k (dict_keys (nodes g)) <-> exists r, In r df /\ k = row_id r) /\
  NoDup (dict_keys (nodes g)) /\
  (forall k st, dict_get (nodes g) k = Some st ->
     id st = k /\ In (mkRow (name st) (line st)) df) /\
  (length (nodes g) <= length df)%nat /\
  (NoDup (map row_id df) -> nodes g = map row_node df).
Proof.
  intros Hg.
  destruct (build_graph_done df rnd) as [g' [Eg [Hwf [Hn _]]]].
  assert (g' = g) by congruence. subst g'.
  pose proof (stations_graph_bare df) as Hb.
  assert (Hkeys : forall k, In k (dict_keys (nodes g)) <->
                            exists r, In r df /\ k = row_id r).
  { intros k. rewrite Hn. apply (bare_ids df _ Hb). }
  split; [exact Hkeys|]. split; [apply (wf_nodup g Hwf)|].
  split; [|split].
  - intros k st H. rewrite Hn in H. unfold stations_graph in H.
    apply (stations_nodes_values df [] empty_graph) with (k := k); [|exact H].
    intros k' st' H'. discriminate.
  - assert (H : (length (dict_keys (nodes g)) <= length (map row_id df))%nat).
    { apply NoDup_incl_length; [apply (wf_nodup g Hwf)|].
      intros k Hk. apply Hkeys in Hk. destruct Hk as [r [Hr ->]].
      now apply in_map. }
    unfold dict_keys in H. now rewrite !length_map in H.
  - intros Hnd. rewrite Hn. unfold stations_graph.
    apply (stations_nodes_distinct df [] empty_graph); [reflexivity | exact Hnd].
Qed.

(** ** The size of the network *)

Lemma entries_cons k (v : list (string * Z)) d :
  list_sum (map (fun kv : string * list (string * Z) => length (snd kv)) ((k, v) :: d))
  = (length v + list_sum (map (fun kv => length (snd kv)) d))%nat.
Proof. reflexivity. Qed.

Lemma entries_set (d : dict (list (string * Z))) k v v' :
  dict_get d k = Some v ->
  (list_sum (map (fun kv => length (snd kv)) (dict_set d k v')) + length v =
   list_sum (map (fun kv => length (snd kv)) d) + length v')%nat.
Proof.
  induction d as [|[k0 v0] d IH]; [discriminate|].
  cbn [dict_get dict_set].
  destruct (String.eqb k0 k).
  - intros [= ->]. rewrite !entries_cons. lia.
  - intros H. specialize (IH H). rewrite !entries_cons. lia.
Qed.

Lemma add_connection_entries g a b t g' :
  add_connection g a b t = Done g' ->
  adjacency_entries g' = (adjacency_entries g + 2)%nat.
Proof.
  unfold add_connection, adjacency_entries.
  destruct (dict_get (edges g) a) as [l1|] eqn:Ea; [|discriminate].
  destruct (dict_get _ b) as [l2|] eqn:Eb; [|discriminate].
  intros [= <-]. cbn [edges].
  pose proof (entries_set _ _ _ (l1 ++ [(b, t)]) Ea) as H1.
  pose proof (entries_set _ _ _ (l2 ++ [(a, t)]) Eb) as H2.
  rewrite length_app in H1, H2. simpl in H1, H2. lia.
Qed.

Lemma connect_all_entries cs : forall g g',
  connect_all cs g = Done g' ->
  adjacency_entries g' = (adjacency_entries g + 2 * length cs)%nat.
Proof.
  unfold connect_all.
  induction cs as [|c cs IH]; intros g g' H.
  - injection H as <-. simpl. lia.
  - cbn [for_each] in H. unfold connect at 1 in H.
    destruct (add_connection g _ _ _) as [g1| |] eqn:E1; try discriminate.
    cbn [bind] in H. rewrite (IH g1 g' H).
    rewrite (add_connection_entries _ _ _ _ _ E1). simpl length. lia.
Qed.

Lemma bare_graph_entries df g : bare_graph df g -> adjacency_entries g = O.
Proof.
  intros Hb. pose proof (bare_adj df g Hb) as Hadj.
  pose proof (bare_nodup df g Hb) as Hnd. rewrite <- (bare_keys df g Hb) in Hnd.
  unfold adjacency_entries. clear Hb.
  induction (edges g) as [|[k v] d IH]; [reflexivity|].
  rewrite entries_cons.
  assert (v = []) as ->.
  { apply (Hadj k). simpl. now rewrite String.eqb_refl. }
  simpl in Hnd. inversion Hnd as [|? ? Hk Hd]; subst.
  rewrite IH; [reflexivity | | assumption].
  intros a adj H. apply (Hadj a). simpl.
  destruct (String.eqb_spec k a) as [->|]; [|assumption].
  exfalso. apply Hk. apply dict_get_in_keys. eauto.
Qed.

Lemma line_connections_length l group rnd :
  length (fst (line_connections l group rnd)) = (length group - 1)%nat.
Proof.
  unfold line_connections.
  pose proof (draws_length (length group - 1) rnd) as H.
  destruct (draws (length group - 1) rnd) as [ws r1]. cbn [fst] in *.
  rewrite chain_length; [assumption|].
  unfold line_ids. now rewrite length_map, sort_rows_length.
Qed.

Lemma intra_connections_length groups : forall rnd,
  length (concat (map snd (intra_connections groups rnd))) =
  list_sum (map (fun lg => (length (snd lg) - 1)%nat) groups).
Proof.
  induction groups as [|[l grp] groups IH]; intros rnd; [reflexivity|].
  cbn [intra_connections].
  pose proof (line_connections_length l grp rnd) as H.
  destruct (line_connections l grp rnd) as [cs r1]. cbn [fst] in H.
  cbn [map concat snd]. rewrite length_app, IH, H. reflexivity.
Qed.

Lemma transfers_length groups :
  length (concat (map snd
    (map (fun sg : string * table =>
            (fst sg, transfer_connections (fst sg) (snd sg))) groups))) =
  list_sum (map (fun sg => (length (snd sg) * (length (snd sg) - 1) / 2)%nat) groups).
Proof.
  induction groups as [|[n grp] groups IH]; [reflexivity|].
  cbn [map concat fst snd]. rewrite length_app, IH.
  unfold transfer_connections at 1.
  rewrite length_map, pairs_length_div, length_map. reflexivity.
Qed.

(** X6: on a frame whose cells are all text, duplicates or not, the built
    graph holds two adjacency entries for each call of [add_connection], and
    the calls are k - 1 for each line with k rows plus L * (L - 1) / 2 for
    each station name with L rows. *)
Theorem network_size (df : table) rnd g :
  build_graph (frame_of df) rnd = Done g ->
  length (connections df rnd) =
    (list_sum (map (fun l => length (rows_of_line df l) - 1)
                   (row_keys Line_col df)) +
     list_sum (map (fun n => length (rows_of_station df n) *
                             (length (rows_of_station df n) - 1) / 2)
                   (row_keys Station_col df)))%nat /\
  adjacency_entries g = (2 * length (connections df rnd))%nat.
Proof.
  intros Hg. split.
  - unfold connections, intra, transfers. rewrite length_app.
    rewrite intra_connections_length, transfers_length.
    unfold group_rows. rewrite !map_map. reflexivity.
  - rewrite build_graph_trace in Hg. fold (connections df rnd) in Hg.
    rewrite (connect_all_entries _ _ _ Hg).
    now rewrite (bare_graph_entries df _ (stations_graph_bare df)).
Qed.

(** ** Cutting and reversing paths *)

Lemma joins_cons g a b l w ws :
  joins g (a :: b :: l) (w :: ws) <-> has_edge g a b w /\ joins g (b :: l) ws.
Proof. reflexivity. Qed.

Lemma joins_app_inv g x p2 : forall p1 ws,
  joins g (p1 ++ x :: p2) ws ->
  exists ws1 ws2, ws = ws1 ++ ws2 /\
                  joins g (p1 ++ [x]) ws1 /\ joins g (x :: p2) ws2.
Proof.
  induction p1 as [|a p1 IH]; intros ws H.
  - exists [], ws. simpl. auto.
  - change ((a :: p1) ++ x :: p2) with (a :: (p1 ++ x :: p2)) in H.
    destruct (p1 ++ x :: p2) as [|b l] eqn:E; [destruct p1; discriminate|].
    destruct ws as [|w ws]; [destruct H|].
    apply joins_cons in H. destruct H as [He H].
    destruct (IH ws H) as [ws1 [ws2 [-> [H1 H2]]]].
    exists (w :: ws1), ws2. split; [reflexivity|]. split; [|assumption].
    change ((a :: p1) ++ [x]) with (a :: (p1 ++ [x])).
    destruct p1 as [|c p1]; simpl in E |- *; injection E as <- _.
    + destruct ws1; [auto | destruct H1].
    + split; [assumption | exact H1].
Qed.

Lemma joins_app g x p2 ws2 : forall p1 ws1,
  joins g (p1 ++ [x]) ws1 -> joins g (x :: p2) ws2 ->
  joins g (p1 ++ x :: p2) (ws1 ++ ws2).
Proof.
  induction p1 as [|a p1 IH]; intros ws1 H1 H2.
  - destruct ws1; [exact H2 | destruct H1].
  - change ((a :: p1) ++ [x]) with (a :: (p1 ++ [x])) in H1.
    change ((a :: p1) ++ x :: p2) with (a :: (p1 ++ x :: p2)).
    destruct p1 as [|c p1].
    + simpl in H1. destruct ws1 as [|w ws1]; [destruct H1|].
      destruct H1 as [He H1]. destruct ws1; [|destruct H1].
      simpl. split; [assumption | exact H2].
    + destruct ws1 as [|w ws1]; [destruct H1|].
      destruct H1 as [He H1]. specialize (IH ws1 H1 H2).
      simpl. split; [assumption | exact IH].
Qed.

Lemma joins_weights g p ws :
  wf_graph g -> joins g p ws -> Forall (fun w => 2 <= w <= 8) ws.
Proof.
  intros Hwf. revert ws. induction p as [|a p IH]; intros ws H; [destruct H|].
  destruct p as [|b p].
  - destruct ws; [constructor | destruct H].
  - destruct ws as [|w ws]; [destruct H|]. destruct H as [He H].
    destruct (wf_edge g Hwf a b w He) as [_ [Hw _]].
    constructor; auto.
Qed.

Lemma joins_nodes g p ws :
  wf_graph g -> joins g p ws ->
  (forall a, hd_error p = Some a -> In a (dict_keys (nodes g))) ->
  forall n, In n p -> In n (dict_keys (nodes g)).
Proof.
  intros Hwf. revert ws. induction p as [|a p IH]; intros ws H Hhd n Hn;
    [destruct Hn|].
  destruct Hn as [<-|Hn]; [now apply Hhd|].
  destruct p as [|b p]; [destruct Hn|].
  destruct ws as [|w ws]; [destruct H|]. destruct H as [He H].
  apply (IH ws H); [|assumption].
  intros c [= <-]. now destruct (wf_edge g Hwf a b w He).
Qed.

Lemma total_bounds (cost : Z -> Z) lo hi ws :
  (forall w, 2 <= w <= 8 -> lo <= cost w <= hi) ->
  Forall (fun w => 2 <= w <= 8) ws ->
  lo * Z.of_nat (length ws) <= total (map cost ws) <= hi * Z.of_nat (length ws).
Proof.
  intros Hc H. unfold total. induction H as [|w ws Hw _ IH]; simpl length.
  - simpl. lia.
  - cbn [map fold_right]. specialize (Hc w Hw). lia.
Qed.

Lemma total_positive (cost : Z -> Z) ws :
  (forall w, 2 <= w <= 8 -> 0 < cost w) ->
  Forall (fun w => 2 <= w <= 8) ws -> ws <> [] -> 0 < total (map cost ws).
Proof.
  intros Hc H Hne.
  assert (Hnn : forall l, Forall (fun w => 2 <= w <= 8) l -> 0 <= total (map cost l)).
  { unfold total. induction 1 as [|w l Hw _ IH]; simpl; [lia|].
    specialize (Hc w Hw). lia. }
  destruct H as [|w ws Hw Hrest]; [contradiction|].
  specialize (Hnn ws Hrest). specialize (Hc w Hw).
  unfold total in *. simpl. lia.
Qed.

Lemma dup_split (p : list string) :
  NoDup p \/ exists xs x ys zs, p = xs ++ x :: ys ++ x :: zs.
Proof.
  induction p as [|a p IH]; [left; constructor|].
  destruct IH as [Hnd|[xs [x [ys [zs ->]]]]].
  - destruct (in_dec string_dec a p) as [Hin|Hout].
    + right. apply in_split in Hin. destruct Hin as [ys [zs ->]].
      exists [], a, ys, zs. reflexivity.
    + left. now constructor.
  - right. exists (a :: xs), x, ys, zs. reflexivity.
Qed.

Lemma hd_error_app_cons {A : Type} (xs : list A) x ys zs :
  hd_error (xs ++ x :: ys) = hd_error (xs ++ x :: zs).
Proof. destruct xs; reflexivity. Qed.

Lemma last_of_app {A : Type} (xs ys : list A) y zs :
  hd_error (rev (xs ++ y :: zs)) = hd_error (rev (ys ++ y :: zs)).
Proof.
  rewrite !rev_app_distr.
  destruct (rev (y :: zs)) as [|c l] eqn:E; [|reflexivity].
  apply (f_equal (@length A)) in E. rewrite length_rev in E. discriminate.
Qed.

(** A route that passes twice through a node contains a shorter route: the
    part between the two passages can be left out. *)
Lemma route_cut g starts ends p ws :
  wf_graph g -> route g starts ends p ws -> ~ NoDup p ->
  exists p' ws1 wsa ws2,
    ws = ws1 ++ wsa ++ ws2 /\ wsa <> [] /\
    Forall (fun w => 2 <= w <= 8) wsa /\
    route g starts ends p' (ws1 ++ ws2).
Proof.
  intros Hwf [Hj [Hs He]] Hdup.
  destruct (dup_split p) as [Hnd|[xs [x [ys [zs ->]]]]]; [contradiction|].
  destruct (joins_app_inv g x (ys ++ x :: zs) xs ws Hj) as [ws1 [ws' [-> [H1 H2]]]].
  destruct (joins_app_inv g x zs (x :: ys) ws' H2) as [wsa [ws2 [-> [Ha Hb]]]].
  exists (xs ++ x :: zs), ws1, wsa, ws2.
  split; [reflexivity|]. split; [|split; [|split; [|split]]].
  - intros ->. apply joins_length in Ha. rewrite length_app in Ha.
    simpl in Ha. lia.
  - eapply joins_weights; eassumption.
  - now apply joins_app.
  - now rewrite (hd_error_app_cons xs x zs (ys ++ x :: zs)).
  - replace (xs ++ x :: ys ++ x :: zs) with ((xs ++ x :: ys) ++ x :: zs) in He
      by (rewrite <- app_assoc; reflexivity).
    now rewrite (last_of_app xs (xs ++ x :: ys) x zs).
Qed.

Lemma total_map_app (cost : Z -> Z) ws1 ws2 :
  total (map cost (ws1 ++ ws2)) = total (map cost ws1) + total (map cost ws2).
Proof. now rewrite map_app, total_app. Qed.

(** A route of least cost passes through no node twice, so it has fewer
    edges than the graph has nodes. *)
Lemma least_route_simple g (cost : Z -> Z) starts ends p ws :
  wf_graph g ->
  (forall w, 2 <= w <= 8 -> 0 < cost w) ->
  (forall s, In s starts -> In s (dict_keys (nodes g))) ->
  route g starts ends p ws ->
  (forall e W, In e ends -> reach g cost starts e W -> total (map cost ws) <= W) ->
  NoDup p /\ (forall n, In n p -> In n (dict_keys (nodes g))) /\
  (length p <= length (nodes g))%nat.
Proof.
  intros Hwf Hcost Hstarts Hroute Hmin.
  assert (Hreg : forall n, In n p -> In n (dict_keys (nodes g))).
  { destruct Hroute as [Hj [[s [Hhd Hs]] _]].
    apply (joins_nodes g p ws Hwf Hj).
    intros a Ha. rewrite Hhd in Ha. injection Ha as <-. auto. }
  assert (Hnd : NoDup p).
  { destruct (dup_split p) as [Hnd|Hdup]; [assumption|]. exfalso.
    destruct (route_cut g starts ends p ws Hwf Hroute) as
      [p' [ws1 [wsa [ws2 [-> [Hne [Hwa Hroute']]]]]]].
    { intros Hnd. destruct Hdup as [xs [x [ys [zs ->]]]].
      apply NoDup_remove_2 in Hnd. apply Hnd.
      apply in_or_app. right. apply in_or_app. right. now left. }
    destruct (route_reach g cost starts ends p' _ Hroute') as [e [He Hr]].
    specialize (Hmin e _ He Hr).
    rewrite !total_map_app in Hmin.
    pose proof (total_positive cost wsa Hcost Hwa Hne).
    lia. }
  split; [assumption|]. split; [assumption|].
  assert (length p <= length (dict_keys (nodes g)))%nat
    by (apply NoDup_incl_length; assumption).
  unfold dict_keys in *. now rewrite length_map in *.
Qed.

Lemma total_rev ws : total (rev ws) = total ws.
Proof.
  induction ws as [|w ws IH]; [reflexivity|].
  simpl rev. rewrite total_app, IH. unfold total. simpl. lia.
Qed.

(** In a built graph a path can be walked backwards. *)
Lemma joins_rev g p ws :
  wf_graph g -> joins g p ws -> joins g (rev p) (rev ws).
Proof.
  intros Hwf. revert ws. induction p as [|a p IH]; intros ws H; [destruct H|].
  destruct p as [|b p].
  - destruct ws; [exact I | destruct H].
  - destruct ws as [|w ws]; [destruct H|]. destruct H as [He H].
    specialize (IH ws H).
    destruct (wf_edge g Hwf a b w He) as [_ [_ Hba]].
    change (rev (a :: b :: p)) with ((rev p ++ [b]) ++ [a]).
    change (rev (w :: ws)) with (rev ws ++ [w]).
    apply joins_snoc; assumption.
Qed.

Lemma route_rev g starts ends p ws :
  wf_graph g -> route g starts ends p ws -> route g ends starts (rev p) (rev ws).
Proof.
  intros Hwf [Hj [Hs He]]. split; [now apply joins_rev|].
  split; [assumption|]. now rewrite rev_involutive.
Qed.

(** The least cost of a route is at most the greatest cost of an edge times
    one less than the number of nodes. *)
Lemma least_cost_bound g (cost : Z -> Z) cmax starts ends e d :
  wf_graph g ->
  (forall w, 2 <= w <= 8 -> 0 < cost w <= cmax) ->
  (forall s, In s starts -> In s (dict_keys (nodes g))) ->
  In e ends -> reach g cost starts e d ->
  (forall e' W, In e' ends -> reach g cost starts e' W -> d <= W) ->
  d <= cmax * (Z.of_nat (length (nodes g)) - 1).
Proof.
  intros Hwf Hcost Hstarts He Hr Hmin.
  destruct (reach_is_route g cost starts ends e d Hr He) as [p [ws [Hroute Htot]]].
  destruct (least_route_simple g cost starts ends p ws Hwf) as [_ [_ Hlen]]; auto.
  { intros w Hw. now destruct (Hcost w Hw). }
  { intros e' W He' Hr'. rewrite Htot. eauto. }
  pose proof (joins_length g p ws (proj1 Hroute)) as Hp.
  pose proof (joins_weights g p ws Hwf (proj1 Hroute)) as Hw.
  pose proof (total_bounds cost 0 cmax ws) as Hb.
  destruct Hb as [_ Hb]; [|assumption|].
  { intros w Hw'. destruct (Hcost w Hw'). lia. }
  assert (0 <= cmax) by (destruct (Hcost 2 ltac:(lia)); lia).
  nia.
Qed.

Lemma find_fastest_path_cut_short fuel g start_name end_name :
  wf_graph g ->
  find_fastest_path fuel g start_name end_name = OutOfFuel ->
  let starts := candidates g start_name in
  let ends := candidates g end_name in
  (fuel < search_fuel g)%nat \/
  exists d, Z.of_nat fuel < Z.of_nat (search_fuel g) + d /\
            (exists e, In e ends /\ reach g minutes starts e d) /\
            forall e W, In e ends -> reach g minutes starts e W -> d <= W.
Proof.
  intros Hwf E starts ends.
  assert (Hnd : NoDup starts) by now apply candidates_nodup.
  assert (Hk : forall s, In s starts -> In s (dict_keys (nodes g)))
    by apply candidates_keys.
  pose proof (dijkstra_loop_spec g starts ends Hwf fuel [] "" 0
                (dijkstra_start g starts) (dj_init_inv g starts ends Hk)) as H.
  pose proof (dj_init_measure g starts Hnd Hk) as Hm.
  change (find_fastest_path fuel g start_name end_name)
    with (dijkstra_loop fuel g ends (dijkstra_start g starts)) in E.
  rewrite E in H. destruct H as [H|[d [Hd H]]]; [left; lia|].
  right. exists d. split; [lia | assumption].
Qed.

(** ** What the two searches return *)

(** X7: on a built graph neither search misses a route: when
    [find_shortest_path] returns [None], or [find_fastest_path] returns
    [None] as its path, no path of the graph leads from a start candidate to
    an end candidate, and the cost returned with [None] is infinite. *)
Theorem none_means_no_route df rnd g fuel start_name end_name :
  build_graph df rnd = Done g ->
  let starts := candidates g start_name in
  let ends := candidates g end_name in
  (find_shortest_path fuel g start_name end_name = Done None ->
   forall p ws, ~ route g starts ends p ws) /\
  (forall cost, find_fastest_path fuel g start_name end_name = Done (None, cost) ->
   cost = Inf /\ forall p ws, ~ route g starts ends p ws).
Proof.
  intros Hg starts ends. pose proof (build_graph_wf df rnd g Hg) as Hwf. split.
  - intros E p ws Hroute.
    pose proof (find_shortest_path_spec fuel g start_name end_name Hwf) as H.
    rewrite E in H. cbv zeta in H.
    destruct (route_reach g hops starts ends p ws Hroute) as [e [He Hr]].
    exact (H e _ He Hr).
  - intros cost E.
    pose proof (find_fastest_path_spec fuel g start_name end_name Hwf) as H.
    rewrite E in H. cbv zeta in H. destruct H as [-> H].
    split; [reflexivity|]. intros p ws Hroute.
    destruct (route_reach g minutes starts ends p ws Hroute) as [e [He Hr]].
    exact (H e _ He Hr).
Qed.

(** X8: on a built graph the two searches agree on whether there is a
    route: one returns [None] exactly when the other does, and the cost is
    infinite exactly in that case. *)
Theorem searches_agree df rnd g fuel1 fuel2 start_name end_name r1 r2 cost :
  build_graph df rnd = Done g ->
  find_shortest_path fuel1 g start_name end_name = Done r1 ->
  find_fastest_path fuel2 g start_name end_name = Done (r2, cost) ->
  (r1 = None <-> r2 = None) /\ (r2 = None <-> cost = Inf).
Proof.
  intros Hg E1 E2. pose proof (build_graph_wf df rnd g Hg) as Hwf.
  pose proof (find_shortest_path_spec fuel1 g start_name end_name Hwf) as H1.
  pose proof (find_fastest_path_spec fuel2 g start_name end_name Hwf) as H2.
  rewrite E1 in H1. rewrite E2 in H2. cbv zeta in H1, H2.
  destruct r1 as [p1|], r2 as [p2|].
  - destruct H2 as [ws [_ [-> _]]]. split; split; discriminate.
  - exfalso. destruct H1 as [ws [Hroute _]]. destruct H2 as [_ H2].
    destruct (route_reach g minutes _ _ p1 ws Hroute) as [e [He Hr]].
    exact (H2 e _ He Hr).
  - exfalso. destruct H2 as [ws [Hroute _]].
    destruct (route_reach g hops _ _ p2 ws Hroute) as [e [He Hr]].
    exact (H1 e _ He Hr).
  - destruct H2 as [-> _]. split; split; reflexivity.
Qed.

(** X9: on a built graph, when both searches return a path, the path of
    [find_shortest_path] has no more nodes than that of
    [find_fastest_path], and the travel time returned is at least 2 and at
    most 8 minutes for each stop of the fewest-stops path. *)
Theorem stops_and_time df rnd g fuel1 fuel2 start_name end_name p1 p2 cost :
  build_graph df rnd = Done g ->
  find_shortest_path fuel1 g start_name end_name = Done (Some p1) ->
  find_fastest_path fuel2 g start_name end_name = Done (Some p2, cost) ->
  (length p1 <= length p2)%nat /\
  exists c, cost = Fin c /\
            2 * (Z.of_nat (length p1) - 1) <= c <= 8 * (Z.of_nat (length p1) - 1).
Proof.
  intros Hg E1 E2. pose proof (build_graph_wf df rnd g Hg) as Hwf.
  pose proof (find_shortest_path_spec fuel1 g start_name end_name Hwf) as H1.
  pose proof (find_fastest_path_spec fuel2 g start_name end_name Hwf) as H2.
  rewrite E1 in H1. rewrite E2 in H2. cbv zeta in H1, H2.
  destruct H1 as [ws1 [Hr1 Hmin1]]. destruct H2 as [ws2 [Hr2 [-> Hmin2]]].
  pose proof (joins_length g p1 ws1 (proj1 Hr1)) as L1.
  pose proof (joins_length g p2 ws2 (proj1 Hr2)) as L2.
  destruct (route_reach g hops _ _ p2 ws2 Hr2) as [e2 [He2 Hh2]].
  destruct (route_reach g minutes _ _ p1 ws1 Hr1) as [e1 [He1 Hm1]].
  specialize (Hmin1 e2 _ He2 Hh2). specialize (Hmin2 e1 _ He1 Hm1).
  rewrite total_map_hops in Hmin1. rewrite total_map_minutes in Hmin2.
  pose proof (joins_total g p2 ws2 Hwf (proj1 Hr2)) as Hlo.
  pose proof (total_bounds minutes 2 8 ws1) as Hhi.
  rewrite total_map_minutes in Hhi.
  destruct Hhi as [_ Hhi];
    [unfold minutes; auto | eapply joins_weights; [eassumption | exact (proj1 Hr1)] |].
  split; [lia|]. exists (total ws2). split; [reflexivity | lia].
Qed.

(** X10: on a built graph a returned path passes through no node twice,
    all its nodes are registered, and so it has no more nodes than the
    graph. *)
Theorem returned_paths_simple df rnd g fuel start_name end_name :
  build_graph df rnd = Done g ->
  (forall p, find_shortest_path fuel g start_name end_name = Done (Some p) ->
     NoDup p /\ (forall n, In n p -> In n (dict_keys (nodes g))) /\
     (length p <= length (nodes g))%nat) /\
  (forall p cost,
     find_fastest_path fuel g start_name end_name = Done (Some p, cost) ->
     NoDup p /\ (forall n, In n p -> In n (dict_keys (nodes g))) /\
     (length p <= length (nodes g))%nat).
Proof.
  intros Hg. pose proof (build_graph_wf df rnd g Hg) as Hwf. split.
  - intros p E.
    pose proof (find_shortest_path_spec fuel g start_name end_name Hwf) as H.
    rewrite E in H. cbv zeta in H. destruct H as [ws [Hroute Hmin]].
    apply (least_route_simple g hops (candidates g start_name)
             (candidates g end_name) p ws Hwf); auto.
    + intros. unfold hops. lia.
    + apply candidates_keys.
    + intros e W He Hr. rewrite total_map_hops. eauto.
  - intros p cost E.
    pose proof (find_fastest_path_spec fuel g start_name end_name Hwf) as H.
    rewrite E in H. cbv zeta in H. destruct H as [ws [Hroute [_ Hmin]]].
    apply (least_route_simple g minutes (candidates g start_name)
             (candidates g end_name) p ws Hwf); auto.
    + intros. unfold minutes. lia.
    + apply candidates_keys.
    + intros e W He Hr. rewrite total_map_minutes. eauto.
Qed.

(** X11: on a built graph both loops end within a bound read off the
    graph: [find_shortest_path] returns once the fuel is twice the number of
    nodes, [find_fastest_path] once it is [search_fuel] plus eight times the
    number of nodes. *)
Theorem searches_end_within df rnd g fuel start_name end_name :
  build_graph df rnd = Done g ->
  ((2 * length (nodes g) <= fuel)%nat ->
   exists r, find_shortest_path fuel g start_name end_name = Done r) /\
  ((search_fuel g + 8 * length (nodes g) <= fuel)%nat ->
   exists r, find_fastest_path fuel g start_name end_name = Done r).
Proof.
  intros Hg. pose proof (build_graph_wf df rnd g Hg) as Hwf.
  assert (Hk : forall s, In s (candidates g start_name) ->
                         In s (dict_keys (nodes g))) by apply candidates_keys.
  split; intros Hfuel.
  - pose proof (find_shortest_path_spec fuel g start_name end_name Hwf) as H.
    destruct (find_shortest_path fuel g start_name end_name) as [r| |];
      [eauto | destruct H |].
    exfalso. cbv zeta in H. destruct H as [H|[d [Hd [[e [He Hr]] Hmin]]]]; [lia|].
    pose proof (least_cost_bound g hops 1 (candidates g start_name)
                  (candidates g end_name) e d Hwf) as Hb.
    specialize (Hb ltac:(intros; unfold hops; lia) Hk He Hr Hmin). lia.
  - pose proof (find_fastest_path_spec fuel g start_name end_name Hwf) as H.
    pose proof (find_fastest_path_cut_short fuel g start_name end_name Hwf) as Hc.
    destruct (find_fastest_path fuel g start_name end_name) as [r| |];
      [eauto | destruct H |].
    exfalso. cbv zeta in Hc.
    destruct (Hc eq_refl) as [Hlt|[d [Hd [[e [He Hr]] Hmin]]]]; [lia|].
    pose proof (least_cost_bound g minutes 8 (candidates g start_name)
                  (candidates g end_name) e d Hwf) as Hb.
    specialize (Hb ltac:(intros; unfold minutes; lia) Hk He Hr Hmin). lia.
Qed.

(** X12: a built graph is symmetric, so a query and the query with the two
    names exchanged get paths with the same number of stops from
    [find_shortest_path] and the same travel time from [find_fastest_path];
    one finds no route exactly when the other finds none. *)
Theorem same_in_both_directions df rnd g fuel1 fuel2 name_a name_b :
  build_graph df rnd = Done g ->
  (forall r1 r2,
     find_shortest_path fuel1 g name_a name_b = Done r1 ->
     find_shortest_path fuel2 g name_b name_a = Done r2 ->
     option_map (@length string) r1 = option_map (@length string) r2) /\
  (forall r1 c1 r2 c2,
     find_fastest_path fuel1 g name_a name_b = Done (r1, c1) ->
     find_fastest_path fuel2 g name_b name_a = Done (r2, c2) ->
     c1 = c2 /\ (r1 = None <-> r2 = None)).
Proof.
  intros Hg. pose proof (build_graph_wf df rnd g Hg) as Hwf. split.
  - intros r1 r2 E1 E2.
    pose proof (find_shortest_path_spec fuel1 g name_a name_b Hwf) as H1.
    pose proof (find_shortest_path_spec fuel2 g name_b name_a Hwf) as H2.
    rewrite E1 in H1. rewrite E2 in H2. cbv zeta in H1, H2.
    destruct r1 as [p1|], r2 as [p2|]; cbn [option_map].
    + destruct H1 as [ws1 [Hr1 Hmin1]]. destruct H2 as [ws2 [Hr2 Hmin2]].
      pose proof (joins_length g p1 ws1 (proj1 Hr1)) as L1.
      pose proof (joins_length g p2 ws2 (proj1 Hr2)) as L2.
      destruct (route_reach g hops _ _ _ _ (route_rev g _ _ p2 ws2 Hwf Hr2))
        as [e1 [He1 Hh1]].
      destruct (route_reach g hops _ _ _ _ (route_rev g _ _ p1 ws1 Hwf Hr1))
        as [e2 [He2 Hh2]].
      specialize (Hmin1 e1 _ He1 Hh1). specialize (Hmin2 e2 _ He2 Hh2).
      rewrite total_map_hops, length_rev in Hmin1, Hmin2.
      f_equal. lia.
    + exfalso. destruct H1 as [ws1 [Hr1 _]].
      destruct (route_reach g hops _ _ _ _ (route_rev g _ _ p1 ws1 Hwf Hr1))
        as [e [He Hr]].
      exact (H2 e _ He Hr).
    + exfalso. destruct H2 as [ws2 [Hr2 _]].
      destruct (route_reach g hops _ _ _ _ (route_rev g _ _ p2 ws2 Hwf Hr2))
        as [e [He Hr]].
      exact (H1 e _ He Hr).
    + reflexivity.
  - intros r1 c1 r2 c2 E1 E2.
    pose proof (find_fastest_path_spec fuel1 g name_a name_b Hwf) as H1.
    pose proof (find_fastest_path_spec fuel2 g name_b name_a Hwf) as H2.
    rewrite E1 in H1. rewrite E2 in H2. cbv zeta in H1, H2.
    destruct r1 as [p1|], r2 as [p2|].
    + destruct H1 as [ws1 [Hr1 [-> Hmin1]]]. destruct H2 as [ws2 [Hr2 [-> Hmin2]]].
      destruct (route_reach g minutes _ _ _ _ (route_rev g _ _ p2 ws2 Hwf Hr2))
        as [e1 [He1 Hh1]].
      destruct (route_reach g minutes _ _ _ _ (route_rev g _ _ p1 ws1 Hwf Hr1))
        as [e2 [He2 Hh2]].
      specialize (Hmin1 e1 _ He1 Hh1). specialize (Hmin2 e2 _ He2 Hh2).
      rewrite total_map_minutes, total_rev in Hmin1, Hmin2.
      split; [f_equal; lia | split; discriminate].
    + exfalso. destruct H1 as [ws1 [Hr1 _]]. destruct H2 as [_ H2].
      destruct (route_reach g minutes _ _ _ _ (route_rev g _ _ p1 ws1 Hwf Hr1))
        as [e [He Hr]].
      exact (H2 e _ He Hr).
    + exfalso. destruct H2 as [ws2 [Hr2 _]]. destruct H1 as [_ H1].
      destruct (route_reach g minutes _ _ _ _ (route_rev g _ _ p2 ws2 Hwf Hr2))
        as [e [He Hr]].
      exact (H1 e _ He Hr).
    + destruct H1 as [-> _]. destruct H2 as [-> _]. split; [reflexivity | tauto].
Qed.

Lemma string_app_nil_r (s : string) : (s ++ "")%string = s.
Proof. induction s as [|c s IH]; simpl; [reflexivity | now rewrite IH]. Qed.

(** X13: in the graph built from a frame whose cells are all text, the
    station name of a row selects the node of the row, and so does the full
    identifier; the empty name selects every node. *)
Theorem known_station_resolves (df : table) rnd g r :
  build_graph (frame_of df) rnd = Done g ->
  In r df ->
  In (row_id r) (candidates g (Station_col r)) /\
  In (row_id r) (candidates g (row_id r)) /\
  candidates g "" = dict_keys (nodes g).
Proof.
  intros Hg Hr.
  destruct (build_graph_done df rnd) as [g' [Eg [_ [Hn _]]]].
  assert (g' = g) by congruence. subst g'.
  assert (Hk : In (row_id r) (dict_keys (nodes g))).
  { rewrite Hn. apply (bare_ids df _ (stations_graph_bare df)). eauto. }
  unfold candidates. split; [|split].
  - apply filter_In. split; [assumption|].
    apply startswith_spec. unfold row_id, id. cbn [name line]. eauto.
  - apply filter_In. split; [assumption|].
    apply startswith_spec. exists "". symmetry. apply string_app_nil_r.
  - clear. induction (dict_keys (nodes g)) as [|k ks IH]; [reflexivity|].
    cbn [filter]. replace (startswith k "") with true.
    + now rewrite IH.
    + symmetry. apply startswith_spec. exists k. reflexivity.
Qed.

(** ** Weights and the random draws *)

Lemma drawn_weights_succ raw p n :
  drawn_weights raw p (S n) =
  (2 + raw p mod 7) :: drawn_weights raw (S p) n.
Proof.
  unfold drawn_weights. cbn [seq map]. rewrite Nat.add_0_r. f_equal.
  rewrite <- seq_shift, map_map. apply map_ext. intros i.
  now rewrite Nat.add_succ_r.
Qed.

Lemma drawn_weights_app raw n : forall p m,
  drawn_weights raw p (n + m) =
  drawn_weights raw p n ++ drawn_weights raw (p + n) m.
Proof.
  induction n as [|n IH]; intros p m.
  - simpl. now rewrite Nat.add_0_r.
  - cbn [Nat.add]. rewrite !drawn_weights_succ, IH. cbn [app].
    now rewrite Nat.add_succ_r.
Qed.

Lemma draws_spec n : forall rnd,
  draws n rnd =
  (drawn_weights (raw rnd) (pos rnd) n,
   {| raw := raw rnd; pos := pos rnd + n |}).
Proof.
  induction n as [|n IH]; intros rnd.
  - simpl. rewrite Nat.add_0_r. now destruct rnd.
  - cbn [draws]. unfold randint, randbelow. rewrite IH. cbn [raw pos].
    rewrite drawn_weights_succ. change (8 - 2 + 1) with 7.
    now rewrite Nat.add_succ_r.
Qed.

Lemma chain_weights ids ws :
  length ws = (length ids - 1)%nat -> map snd (chain ids ws) = ws.
Proof.
  revert ws. induction ids as [|a ids IH]; intros ws H.
  - destruct ws; [reflexivity | discriminate].
  - destruct ids as [|b ids].
    + destruct ws; [reflexivity | discriminate].
    + destruct ws as [|w ws]; [discriminate|].
      cbn [chain map snd]. f_equal. apply IH. simpl in *. lia.
Qed.

Lemma intra_connections_weights groups : forall rnd,
  map snd (concat (map snd (intra_connections groups rnd))) =
  drawn_weights (raw rnd) (pos rnd)
    (list_sum (map (fun lg => (length (snd lg) - 1)%nat) groups)).
Proof.
  induction groups as [|[l grp] groups IH]; intros rnd; [reflexivity|].
  cbn [intra_connections]. unfold line_connections.
  rewrite draws_spec.
  cbn [map concat snd fst list_sum]. rewrite map_app, IH. cbn [raw pos].
  change (list_sum ((length grp - 1)%nat ::
            map (fun lg : string * list row => (length (snd lg) - 1)%nat) groups))
    with ((length grp - 1) +
          list_sum (map (fun lg : string * list row => (length (snd lg) - 1)%nat)
                        groups))%nat.
  rewrite drawn_weights_app. f_equal.
  apply chain_weights. unfold drawn_weights, line_ids.
  now rewrite !length_map, length_seq, sort_rows_length.
Qed.

(** X14: on a frame whose cells are all text, the weights of the
    intra-line connections are the successive results of
    [random.randint(2, 8)], one draw for each connection, the lines taken in
    ascending order of their names and the stations of a line in ascending
    order; the transfer pass draws nothing and gives weight 5 throughout. *)
Theorem weights_follow_draws (df : table) rnd :
  build_graph (frame_of df) rnd = connect_all (connections df rnd) (stations_graph df) /\
  connections df rnd =
    concat (map snd (intra df rnd)) ++ concat (map snd (transfers df)) /\
  map snd (concat (map snd (intra df rnd))) =
    drawn_weights (raw rnd) (pos rnd)
      (list_sum (map (fun l => (length (rows_of_line df l) - 1)%nat)
                     (row_keys Line_col df))) /\
  Forall (fun c => snd c = 5) (concat (map snd (transfers df))).
Proof.
  split; [apply build_graph_trace|]. split; [reflexivity|]. split.
  - unfold intra. rewrite intra_connections_weights.
    unfold group_rows. rewrite map_map. reflexivity.
  - apply Forall_forall. intros c Hc. apply in_concat in Hc.
    destruct Hc as [cs [Hcs Hc]]. apply in_map_iff in Hcs.
    destruct Hcs as [[n cs'] [<- Hn]]. cbn [snd] in Hc.
    unfold transfers in Hn. apply in_map_iff in Hn.
    destruct Hn as [[n' grp] [[= <- <-] _]]. cbn [fst snd] in Hc.
    unfold transfer_connections in Hc. apply in_map_iff in Hc.
    destruct Hc as [ll [<- _]]. reflexivity.
Qed.

(** ** Where the edges are *)

Lemma intra_connections_from groups l cs : forall rnd,
  In (l, cs) (intra_connections groups rnd) ->
  exists grp rnd1, In (l, grp) groups /\ cs = fst (line_connections l grp rnd1).
Proof.
  induction groups as [|[l0 grp0] groups IH]; intros rnd H; [destruct H|].
  cbn [intra_connections] in H.
  destruct (line_connections l0 grp0 rnd) as [cs0 r1] eqn:E.
  destruct H as [[= <- <-]|H].
  - exists grp0, rnd. rewrite E. split; [now left | reflexivity].
  - destruct (IH r1 H) as [grp [rnd1 [Hin Hcs]]].
    exists grp, rnd1. split; [now right | assumption].
Qed.

Lemma intra_connection_rows df rnd a b w :
  In (a, b, w) (concat (map snd (intra df rnd))) ->
  exists ra rb, In ra df /\ In rb df /\ a = row_id ra /\ b = row_id rb /\
                Line_col ra = Line_col rb /\ 2 <= w <= 8.
Proof.
  intros H. apply in_concat in H. destruct H as [cs [Hcs Hc]].
  apply in_map_iff in Hcs. destruct Hcs as [[l cs'] [<- Hl]]. cbn [snd] in Hc.
  unfold intra in Hl.
  destruct (intra_connections_from _ _ _ _ Hl) as [grp [rnd1 [Hg ->]]].
  apply group_rows_in in Hg. destruct Hg as [_ ->].
  unfold line_connections in Hc.
  pose proof (draws_range (length (filter (fun r => String.eqb (Line_col r) l) df) - 1)
                rnd1) as Hr.
  destruct (draws _ rnd1) as [ws r1]. cbn [fst] in *.
  apply chain_in in Hc. destruct Hc as [Ha [Hb Hw]].
  assert (Hid : forall x, In x (line_ids l (filter (fun r => String.eqb (Line_col r) l) df)) ->
                          exists r, In r df /\ x = row_id r /\ Line_col r = l).
  { intros x Hx. unfold line_ids in Hx. apply in_map_iff in Hx.
    destruct Hx as [r [<- Hr']].
    apply (Permutation_in _ (sort_rows_perm _ _)) in Hr'.
    apply filter_In in Hr'. destruct Hr' as [Hr' El]. apply String.eqb_eq in El.
    exists r. unfold row_id. rewrite El. auto. }
  destruct (Hid a Ha) as [ra [H1 [H2 H3]]]. destruct (Hid b Hb) as [rb [H4 [H5 H6]]].
  rewrite Forall_forall in Hr.
  exists ra, rb. repeat split; auto; try congruence; apply (Hr w Hw).
Qed.

Lemma transfer_connection_rows df a b w :
  In (a, b, w) (concat (map snd (transfers df))) ->
  exists ra rb, In ra df /\ In rb df /\ a = row_id ra /\ b = row_id rb /\
                Station_col ra = Station_col rb /\ w = 5.
Proof.
  intros H. apply in_concat in H. destruct H as [cs [Hcs Hc]].
  apply in_map_iff in Hcs. destruct Hcs as [[n cs'] [<- Hn]]. cbn [snd] in Hc.
  unfold transfers in Hn. apply in_map_iff in Hn.
  destruct Hn as [[n' grp] [[= <- <-] Hg]]. cbn [fst snd] in Hc.
  apply group_rows_in in Hg. destruct Hg as [_ ->].
  unfold transfer_connections in Hc. apply in_map_iff in Hc.
  destruct Hc as [[l1 l2] [[= <- <- <-] Hp]]. cbn [fst snd].
  apply pairs_in in Hp. destruct Hp as [H1 H2].
  assert (Hrow : forall l', In l' (map Line_col
                     (filter (fun r => String.eqb (Station_col r) n') df)) ->
                   exists r, In r df /\ id (mkStation n' l') = row_id r /\
                             Station_col r = n').
  { intros l' Hl. apply in_map_iff in Hl. destruct Hl as [r [<- Hr]].
    apply filter_In in Hr. destruct Hr as [Hr En]. apply String.eqb_eq in En.
    exists r. unfold row_id. rewrite En. auto. }
  destruct (Hrow l1 H1) as [ra [Ha [Ea Sa]]].
  destruct (Hrow l2 H2) as [rb [Hb [Eb Sb]]].
  exists ra, rb. repeat split; auto. congruence.
Qed.

(** X15: in the graph built from a frame whose cells are all text, every
    edge joins the nodes of two rows that are either on the same line, with
    a weight between 2 and 8, or of the same station name, with weight 5:
    one moves along a line or changes lines at a station, and nothing
    else. *)
Theorem edges_along_lines_or_transfers (df : table) rnd g a b w :
  build_graph (frame_of df) rnd = Done g ->
  has_edge g a b w ->
  exists ra rb,
    In ra df /\ In rb df /\ a = row_id ra /\ b = row_id rb /\
    ((Line_col ra = Line_col rb /\ 2 <= w <= 8) \/
     (Station_col ra = Station_col rb /\ w = 5)).
Proof.
  intros Hg He.
  destruct (build_graph_done df rnd) as [g' [Eg [_ [_ Hedges]]]].
  assert (g' = g) by congruence. subst g'.
  apply Hedges in He. cbv zeta in He. rewrite !in_app_iff in He.
  destruct He as [[H|H]|[H|H]].
  - destruct (intra_connection_rows df rnd a b w H)
      as [ra [rb [H1 [H2 [H3 [H4 [H5 H6]]]]]]].
    exists ra, rb. auto 10.
  - destruct (transfer_connection_rows df a b w H)
      as [ra [rb [H1 [H2 [H3 [H4 [H5 H6]]]]]]].
    exists ra, rb. auto 10.
  - destruct (intra_connection_rows df rnd b a w H)
      as [rb [ra [H1 [H2 [H3 [H4 [H5 H6]]]]]]].
    exists ra, rb. repeat split; auto.
  - destruct (transfer_connection_rows df b a w H)
      as [rb [ra [H1 [H2 [H3 [H4 [H5 H6]]]]]]].
    exists ra, rb. repeat split; auto.
Qed.

(** ** Which stations are connected *)

Lemma connected_refl g x : connected g x x.
Proof. exists [x], []. simpl. auto. Qed.

Lemma connected_edge g x y w : has_edge g x y w -> connected g x y.
Proof. intros H. exists [x; y], [w]. simpl. auto. Qed.

Lemma connected_trans g x y z :
  connected g x y -> connected g y z -> connected g x z.
Proof.
  intros [p1 [ws1 [J1 [H1 L1]]]] [p2 [ws2 [J2 [H2 L2]]]].
  destruct (rev p1) as [|y' r] eqn:E; [discriminate|]. injection L1 as ->.
  assert (Ep : p1 = rev r ++ [y])
    by (rewrite <- (rev_involutive p1), E; reflexivity).
  destruct p2 as [|y' p2]; [discriminate|]. injection H2 as ->.
  subst p1. exists (rev r ++ y :: p2), (ws1 ++ ws2).
  split; [now apply joins_app|]. split.
  - now rewrite (hd_error_app_cons (rev r) y p2 []).
  - now rewrite (last_of_app (rev r) [] y p2).
Qed.

Lemma connected_sym g x y : wf_graph g -> connected g x y -> connected g y x.
Proof.
  intros Hwf [p [ws [J [H L]]]]. exists (rev p), (rev ws).
  split; [now apply joins_rev|]. split; [assumption|].
  now rewrite rev_involutive.
Qed.

Lemma chain_connects g : forall ids ws,
  wf_graph g ->
  length ws = (length ids - 1)%nat ->
  (forall a b w, In (a, b, w) (chain ids ws) -> has_edge g a b w) ->
  forall x y, In x ids -> In y ids -> connected g x y.
Proof.
  induction ids as [|a ids IH]; intros ws Hwf Hlen Hc x y Hx Hy; [destruct Hx|].
  destruct ids as [|b ids].
  - destruct Hx as [<-|[]], Hy as [<-|[]]. apply connected_refl.
  - destruct ws as [|w ws]; [discriminate|].
    assert (Hab : connected g a b).
    { apply (connected_edge g a b w), Hc. now left. }
    assert (Hrest : forall u v, In u (b :: ids) -> In v (b :: ids) -> connected g u v).
    { apply (IH ws Hwf).
      - simpl in *. lia.
      - intros a' b' w' H. apply Hc. now right. }
    assert (Ha : forall v, In v (b :: ids) -> connected g a v).
    { intros v Hv. apply (connected_trans g a b v Hab), Hrest; [now left | assumption]. }
    destruct Hx as [<-|Hx], Hy as [<-|Hy].
    + apply connected_refl.
    + now apply Ha.
    + apply connected_sym; [assumption | now apply Ha].
    + now apply Hrest.
Qed.

Lemma same_line_connected df rnd g ra rb :
  build_graph (frame_of df) rnd = Done g -> In ra df -> In rb df ->
  Line_col ra = Line_col rb -> connected g (row_id ra) (row_id rb).
Proof.
  intros Hg Ha Hb El.
  destruct (build_graph_done df rnd) as [g' [Eg [Hwf [_ Hedges]]]].
  assert (g' = g) by congruence. subst g'.
  set (l := Line_col ra).
  set (grp := filter (fun r => String.eqb (Line_col r) l) df).
  assert (Hgrp : In (l, grp) (group_rows Line_col df)).
  { apply group_rows_in. split; [|reflexivity]. apply in_map_iff. exists ra. auto. }
  destruct (intra_connections_in _ l grp rnd Hgrp) as [rnd1 Hin].
  fold (intra df rnd) in Hin. unfold line_connections in Hin.
  pose proof (draws_length (length grp - 1) rnd1) as Hlen.
  destruct (draws (length grp - 1) rnd1) as [ws r1]. cbn [fst] in *.
  assert (Hid : forall r, In r df -> Line_col r = l -> In (row_id r) (line_ids l grp)).
  { intros r Hr E. unfold line_ids. apply in_map_iff. exists r. split.
    - unfold row_id. now rewrite E.
    - apply (Permutation_in _ (Permutation_sym (sort_rows_perm _ _))).
      apply filter_In. split; [assumption|]. now apply String.eqb_eq. }
  apply (chain_connects g (line_ids l grp) ws Hwf).
  - unfold line_ids. now rewrite length_map, sort_rows_length.
  - intros a b w Hc. apply Hedges. cbv zeta. left. apply in_app_iff. left.
    apply in_concat. exists (chain (line_ids l grp) ws). split; [|assumption].
    apply in_map_iff. exists (l, chain (line_ids l grp) ws). auto.
  - now apply Hid.
  - apply Hid; [assumption | now symmetry].
Qed.

Lemma same_station_connected df rnd g ra rb :
  build_graph (frame_of df) rnd = Done g -> In ra df -> In rb df ->
  Station_col ra = Station_col rb -> connected g (row_id ra) (row_id rb).
Proof.
  intros Hg Ha Hb En.
  destruct (build_graph_done df rnd) as [g' [Eg [Hwf [_ Hedges]]]].
  assert (g' = g) by congruence. subst g'.
  destruct (string_dec (Line_col ra) (Line_col rb)) as [El|Hne].
  - unfold row_id. rewrite En, El. apply connected_refl.
  - set (n := Station_col ra).
    assert (Hl : forall r, In r df -> Station_col r = n ->
                           In (Line_col r) (map Line_col (rows_of_station df n))).
    { intros r Hr E. apply in_map. apply filter_In. split; [assumption|].
      now apply String.eqb_eq. }
    assert (Hn : In n (map Station_col df)) by (apply in_map_iff; exists ra; auto).
    assert (Hcs : forall l1 l2, In (l1, l2) (pairs (map Line_col (rows_of_station df n))) ->
                  In (id (mkStation n l1), id (mkStation n l2), 5)
                     (concat (map snd (transfers df)))).
    { intros l1 l2 Hp. apply in_concat.
      exists (transfer_connections n (rows_of_station df n)). split.
      - apply in_map_iff.
        exists (n, transfer_connections n (rows_of_station df n)).
        split; [reflexivity | now apply transfers_in].
      - apply transfer_connections_in. auto. }
    apply (connected_edge g _ _ 5). apply Hedges. cbv zeta.
    unfold row_id. rewrite <- En. fold n. rewrite !in_app_iff.
    assert (H1 : In (Line_col ra) (map Line_col (rows_of_station df n)))
      by now apply Hl.
    assert (H2 : In (Line_col rb) (map Line_col (rows_of_station df n)))
      by (apply Hl; [assumption | now symmetry]).
    destruct (pairs_complete _ _ _ H1 H2 Hne) as [H|H].
    + left. right. now apply Hcs.
    + right. right. now apply Hcs.
Qed.

Lemma row_candidate df rnd g r :
  build_graph (frame_of df) rnd = Done g -> In r df ->
  In (row_id r) (candidates g (Station_col r)).
Proof.
  intros Hg Hr.
  destruct (build_graph_done df rnd) as [g' [Eg [_ [Hn _]]]].
  assert (g' = g) by congruence. subst g'.
  unfold candidates. apply filter_In. split.
  - rewrite Hn. apply (bare_ids df _ (stations_graph_bare df)). eauto.
  - apply startswith_spec. unfold row_id, id. cbn [name line]. eauto.
Qed.

Lemma connected_route g starts ends x y :
  connected g x y -> In x starts -> In y ends ->
  exists p ws, route g starts ends p ws.
Proof.
  intros [p [ws [J [H L]]]] Hx Hy. exists p, ws.
  split; [assumption|]. split; eauto.
Qed.

(** X16: in the graph built from a frame whose cells are all text, two
    rows on the same line, or of the same station name, have connected
    nodes; so a search between their station names that runs to its end
    never comes back empty-handed. *)
Theorem same_line_or_station_connected (df : table) rnd g ra rb :
  build_graph (frame_of df) rnd = Done g ->
  In ra df -> In rb df ->
  Line_col ra = Line_col rb \/ Station_col ra = Station_col rb ->
  connected g (row_id ra) (row_id rb) /\
  (forall fuel r,
     find_shortest_path fuel g (Station_col ra) (Station_col rb) = Done r ->
     r <> None) /\
  (forall fuel r c,
     find_fastest_path fuel g (Station_col ra) (Station_col rb) = Done (r, c) ->
     r <> None).
Proof.
  intros Hg Ha Hb Hl. pose proof (build_graph_wf (frame_of df) rnd g Hg) as Hwf.
  assert (Hc : connected g (row_id ra) (row_id rb)).
  { destruct Hl; [eapply same_line_connected | eapply same_station_connected];
      eassumption. }
  destruct (connected_route g (candidates g (Station_col ra))
              (candidates g (Station_col rb)) _ _ Hc
              (row_candidate df rnd g ra Hg Ha) (row_candidate df rnd g rb Hg Hb))
    as [p [ws Hroute]].
  split; [assumption|]. split.
  - intros fuel r E ->.
    pose proof (find_shortest_path_spec fuel g (Station_col ra) (Station_col rb) Hwf) as H.
    rewrite E in H. cbv zeta in H.
    destruct (route_reach g hops _ _ p ws Hroute) as [e [He Hr]].
    exact (H e _ He Hr).
  - intros fuel r c E ->.
    pose proof (find_fastest_path_spec fuel g (Station_col ra) (Station_col rb) Hwf) as H.
    rewrite E in H. cbv zeta in H. destruct H as [_ H].
    destruct (route_reach g minutes _ _ p ws Hroute) as [e [He Hr]].
    exact (H e _ He Hr).
Qed.

Lemma edge_rows df rnd g a b w :
  build_graph (frame_of df) rnd = Done g -> has_edge g a b w ->
  exists ra rb, In ra df /\ In rb df /\ a = row_id ra /\ b = row_id rb /\
    (Line_col ra = Line_col rb \/ Station_col ra = Station_col rb).
Proof.
  intros Hg He.
  destruct (build_graph_done df rnd) as [g' [Eg [_ [_ Hedges]]]].
  assert (g' = g) by congruence. subst g'.
  apply Hedges in He. cbv zeta in He. rewrite !in_app_iff in He.
  destruct He as [[H|H]|[H|H]].
  - destruct (intra_connection_rows df rnd a b w H)
      as [ra [rb [H1 [H2 [H3 [H4 [H5 H6]]]]]]].
    exists ra, rb. auto 10.
  - destruct (transfer_connection_rows df a b w H)
      as [ra [rb [H1 [H2 [H3 [H4 [H5 H6]]]]]]].
    exists ra, rb. auto 10.
  - destruct (intra_connection_rows df rnd b a w H)
      as [rb [ra [H1 [H2 [H3 [H4 [H5 H6]]]]]]].
    exists ra, rb. repeat split; auto.
  - destruct (transfer_connection_rows df b a w H)
      as [rb [ra [H1 [H2 [H3 [H4 [H5 H6]]]]]]].
    exists ra, rb. repeat split; auto.
Qed.

Lemma linked_along df rnd g a :
  build_graph (frame_of df) rnd = Done g ->
  forall p ws x y,
    joins g p ws -> hd_error p = Some x -> hd_error (rev p) = Some y ->
    linked df a x -> linked df a y.
Proof.
  intros Hg. induction p as [|u p IH]; intros ws x y J H L Hx; [discriminate|].
  injection H as ->.
  destruct p as [|v p].
  - simpl in L. injection L as <-. assumption.
  - destruct ws as [|w ws]; [destruct J|]. destruct J as [He J].
    destruct (edge_rows df rnd g x v w Hg He)
      as [rx [rv [H1 [H2 [H3 [H4 H5]]]]]].
    apply (IH ws v y J eq_refl).
    + rewrite <- L. apply (last_of_app [] [x] v p).
    + subst v. subst x. eapply linked_step; eassumption.
Qed.

(** X17: in the graph built from a frame whose cells are all text, a
    route leads from the node of a row to another node exactly when the two
    are linked through the table, by steps between rows on the same line or
    of the same station name. *)
Theorem connected_iff_linked (df : table) rnd g ra b :
  build_graph (frame_of df) rnd = Done g ->
  In ra df ->
  (connected g (row_id ra) b <-> linked df (row_id ra) b).
Proof.
  intros Hg Ha. split.
  - intros [p [ws [J [H L]]]].
    apply (linked_along df rnd g (row_id ra) Hg p ws (row_id ra) b J H L).
    now constructor.
  - induction 1 as [r Hr|a rb rc _ IH Hb Hc Hl].
    + apply connected_refl.
    + apply (connected_trans g a (row_id rb)); [exact IH|].
      destruct Hl; [eapply same_line_connected | eapply same_station_connected];
        eassumption.
Qed.

(** ** The nodes of any frame *)







(** * The further properties on the small network *)

Lemma add_station_resets_edges_witness :
  has_edge demo_graph (id (mkStation "A" "L1")) "B (L1)" 2 /\
  has_edge demo_graph "B (L1)" (id (mkStation "A" "L1")) 2 /\
  "B (L1)" <> id (mkStation "A" "L1") /\
  has_edge (add_station demo_graph (mkStation "A" "L1")) "B (L1)"
           (id (mkStation "A" "L1")) 2 /\
  ~ has_edge (add_station demo_graph (mkStation "A" "L1"))
             (id (mkStation "A" "L1")) "B (L1)" 2 /\
  ~ symmetric (add_station demo_graph (mkStation "A" "L1")).
Proof.
  assert (H1 : has_edge demo_graph (id (mkStation "A" "L1")) "B (L1)" 2).
  { exists [("B (L1)", 2)]. split; [reflexivity | left; reflexivity]. }
  assert (H2 : has_edge demo_graph "B (L1)" (id (mkStation "A" "L1")) 2).
  { exists [("A (L1)", 2); ("C (L1)", 3); ("B (L2)", 5)].
    split; [reflexivity | left; reflexivity]. }
  assert (H3 : "B (L1)" <> id (mkStation "A" "L1")).
  { vm_compute. discriminate. }
  split; [exact H1|]. split; [exact H2|]. split; [exact H3|].
  apply (add_station_resets_edges demo_graph (mkStation "A" "L1") "B (L1)" 2
           H1 H2 H3).
Defined.

Lemma built_nodes_witness :
  build_graph (frame_of demo_rows) demo_rng = Done demo_graph /\
  (forall k, In k (dict_keys (nodes demo_graph)) <->
             exists r, In r demo_rows /\ k = row_id r) /\
  NoDup (dict_keys (nodes demo_graph)) /\
  (forall k st, dict_get (nodes demo_graph) k = Some st ->
     id st = k /\ In (mkRow (name st) (line st)) demo_rows) /\
  (length (nodes demo_graph) <= length demo_rows)%nat /\
  (NoDup (map row_id demo_rows) -> nodes demo_graph = map row_node demo_rows).
Proof.
  split; [vm_compute; reflexivity|].
  apply (built_nodes demo_rows demo_rng demo_graph).
  vm_compute. reflexivity.
Defined.

Lemma network_size_witness :
  build_graph (frame_of demo_rows) demo_rng = Done demo_graph /\
  length (connections demo_rows demo_rng) = 4%nat /\
  adjacency_entries demo_graph = 8%nat.
Proof.
  split; [vm_compute; reflexivity|].
  apply (network_size demo_rows demo_rng demo_graph).
  vm_compute. reflexivity.
Defined.

Lemma none_means_no_route_witness :
  build_graph demo_df demo_rng = Done demo_graph /\
  find_shortest_path 10 demo_graph "Q" "D" = Done None /\
  forall p ws,
    ~ route demo_graph (candidates demo_graph "Q") (candidates demo_graph "D") p ws.
Proof.
  split; [vm_compute; reflexivity|]. split; [vm_compute; reflexivity|].
  apply (none_means_no_route demo_df demo_rng demo_graph 10 "Q" "D").
  - vm_compute. reflexivity.
  - vm_compute. reflexivity.
Defined.

Lemma searches_agree_witness :
  build_graph demo_df demo_rng = Done demo_graph /\
  find_shortest_path 10 demo_graph "Q" "D" = Done None /\
  find_fastest_path 10 demo_graph "Q" "D" = Done (None, Inf) /\
  (@None (list string) = None <-> @None (list string) = None) /\
  (@None (list string) = None <-> Inf = Inf).
Proof.
  split; [vm_compute; reflexivity|]. split; [vm_compute; reflexivity|].
  split; [vm_compute; reflexivity|].
  apply (searches_agree demo_df demo_rng demo_graph 10 10 "Q" "D" None None Inf).
  - vm_compute. reflexivity.
  - vm_compute. reflexivity.
  - vm_compute. reflexivity.
Defined.

Lemma stops_and_time_witness :
  build_graph demo_df demo_rng = Done demo_graph /\
  find_shortest_path 10 demo_graph "A" "D" =
    Done (Some ["A (L1)"; "B (L1)"; "B (L2)"; "D (L2)"]) /\
  find_fastest_path 20 demo_graph "A" "D" =
    Done (Some ["A (L1)"; "B (L1)"; "B (L2)"; "D (L2)"], Fin 11) /\
  (4 <= 4)%nat /\
  exists c, Fin 11 = Fin c /\ 2 * (Z.of_nat 4 - 1) <= c <= 8 * (Z.of_nat 4 - 1).
Proof.
  split; [vm_compute; reflexivity|]. split; [vm_compute; reflexivity|].
  split; [vm_compute; reflexivity|].
  apply (stops_and_time demo_df demo_rng demo_graph 10 20 "A" "D"
           ["A (L1)"; "B (L1)"; "B (L2)"; "D (L2)"]
           ["A (L1)"; "B (L1)"; "B (L2)"; "D (L2)"] (Fin 11)).
  - vm_compute. reflexivity.
  - vm_compute. reflexivity.
  - vm_compute. reflexivity.
Defined.

Lemma returned_paths_simple_witness :
  build_graph demo_df demo_rng = Done demo_graph /\
  find_shortest_path 10 demo_graph "A" "D" =
    Done (Some ["A (L1)"; "B (L1)"; "B (L2)"; "D (L2)"]) /\
  NoDup ["A (L1)"; "B (L1)"; "B (L2)"; "D (L2)"] /\
  (forall n, In n ["A (L1)"; "B (L1)"; "B (L2)"; "D (L2)"] ->
             In n (dict_keys (nodes demo_graph))) /\
  (length ["A (L1)"; "B (L1)"; "B (L2)"; "D (L2)"] <= length (nodes demo_graph))%nat.
Proof.
  split; [vm_compute; reflexivity|]. split; [vm_compute; reflexivity|].
  apply (returned_paths_simple demo_df demo_rng demo_graph 10 "A" "D").
  - vm_compute. reflexivity.
  - vm_compute. reflexivity.
Defined.

Lemma searches_end_within_witness :
  build_graph demo_df demo_rng = Done demo_graph /\
  (2 * length (nodes demo_graph) <= 60)%nat /\
  (search_fuel demo_graph + 8 * length (nodes demo_graph) <= 60)%nat /\
  (exists r, find_shortest_path 60 demo_graph "C" "D" = Done r) /\
  (exists r, find_fastest_path 60 demo_graph "C" "D" = Done r).
Proof.
  assert (Hg : build_graph demo_df demo_rng = Done demo_graph)
    by (vm_compute; reflexivity).
  assert (H1 : (2 * length (nodes demo_graph) <= 60)%nat) by (vm_compute; lia).
  assert (H2 : (search_fuel demo_graph + 8 * length (nodes demo_graph) <= 60)%nat)
    by (vm_compute; lia).
  split; [exact Hg|]. split; [exact H1|]. split; [exact H2|].
  split.
  - exact (proj1 (searches_end_within demo_df demo_rng demo_graph 60 "C" "D" Hg) H1).
  - exact (proj2 (searches_end_within demo_df demo_rng demo_graph 60 "C" "D" Hg) H2).
Defined.

Lemma same_in_both_directions_witness :
  build_graph demo_df demo_rng = Done demo_graph /\
  find_fastest_path 20 demo_graph "A" "D" =
    Done (Some ["A (L1)"; "B (L1)"; "B (L2)"; "D (L2)"], Fin 11) /\
  find_fastest_path 40 demo_graph "D" "A" =
    Done (Some ["D (L2)"; "B (L2)"; "B (L1)"; "A (L1)"], Fin 11) /\
  Fin 11 = Fin 11 /\
  (Some ["A (L1)"; "B (L1)"; "B (L2)"; "D (L2)"] = None <->
   Some ["D (L2)"; "B (L2)"; "B (L1)"; "A (L1)"] = None).
Proof.
  split; [vm_compute; reflexivity|]. split; [vm_compute; reflexivity|].
  split; [vm_compute; reflexivity|].
  apply (same_in_both_directions demo_df demo_rng demo_graph 20 40 "A" "D").
  - vm_compute. reflexivity.
  - vm_compute. reflexivity.
  - vm_compute. reflexivity.
Defined.

Lemma known_station_resolves_witness :
  build_graph (frame_of demo_rows) demo_rng = Done demo_graph /\
  In (mkRow "D" "L2") demo_rows /\
  In (row_id (mkRow "D" "L2")) (candidates demo_graph "D") /\
  In (row_id (mkRow "D" "L2")) (candidates demo_graph (row_id (mkRow "D" "L2"))) /\
  candidates demo_graph "" = dict_keys (nodes demo_graph).
Proof.
  split; [vm_compute; reflexivity|]. split; [simpl; auto 10|].
  apply (known_station_resolves demo_rows demo_rng demo_graph (mkRow "D" "L2")).
  - vm_compute. reflexivity.
  - simpl. auto 10.
Defined.

Lemma edges_along_lines_or_transfers_witness :
  build_graph (frame_of demo_rows) demo_rng = Done demo_graph /\
  has_edge demo_graph "B (L1)" "B (L2)" 5 /\
  exists ra rb,
    In ra demo_rows /\ In rb demo_rows /\
    "B (L1)" = row_id ra /\ "B (L2)" = row_id rb /\
    ((Line_col ra = Line_col rb /\ 2 <= 5 <= 8) \/
     (Station_col ra = Station_col rb /\ 5 = 5)).
Proof.
  assert (He : has_edge demo_graph "B (L1)" "B (L2)" 5).
  { exists [("A (L1)", 2); ("C (L1)", 3); ("B (L2)", 5)].
    split; [reflexivity | simpl; auto]. }
  split; [vm_compute; reflexivity|]. split; [exact He|].
  apply (edges_along_lines_or_transfers demo_rows demo_rng demo_graph
           "B (L1)" "B (L2)" 5).
  - vm_compute. reflexivity.
  - exact He.
Defined.

Lemma same_line_or_station_connected_witness :
  build_graph (frame_of demo_rows) demo_rng = Done demo_graph /\
  In (mkRow "A" "L1") demo_rows /\ In (mkRow "C" "L1") demo_rows /\
  (Line_col (mkRow "A" "L1") = Line_col (mkRow "C" "L1") \/
   Station_col (mkRow "A" "L1") = Station_col (mkRow "C" "L1")) /\
  connected demo_graph (row_id (mkRow "A" "L1")) (row_id (mkRow "C" "L1")) /\
  (forall fuel r,
     find_shortest_path fuel demo_graph (Station_col (mkRow "A" "L1"))
       (Station_col (mkRow "C" "L1")) = Done r -> r <> None) /\
  (forall fuel r c,
     find_fastest_path fuel demo_graph (Station_col (mkRow "A" "L1"))
       (Station_col (mkRow "C" "L1")) = Done (r, c) -> r <> None).
Proof.
  split; [vm_compute; reflexivity|]. split; [simpl; auto 10|].
  split; [simpl; auto 10|]. split; [left; reflexivity|].
  apply (same_line_or_station_connected demo_rows demo_rng demo_graph
           (mkRow "A" "L1") (mkRow "C" "L1")).
  - vm_compute. reflexivity.
  - simpl. auto 10.
  - simpl. auto 10.
  - left. reflexivity.
Defined.

Lemma connected_iff_linked_witness :
  build_graph (frame_of demo_rows) demo_rng = Done demo_graph /\
  In (mkRow "A" "L1") demo_rows /\
  (connected demo_graph (row_id (mkRow "A" "L1")) "D (L2)" <->
   linked demo_rows (row_id (mkRow "A" "L1")) "D (L2)").
Proof.
  split; [vm_compute; reflexivity|]. split; [simpl; auto 10|].
  apply (connected_iff_linked demo_rows demo_rng demo_graph (mkRow "A" "L1") "D (L2)").
  - vm_compute. reflexivity.
  - simpl. auto 10.
Defined.

